(** * n8n-desktop: token cache, access gate and readiness gate

    A shallow embedding of [lmsIntegration.js] (class [LMSIntegration]), of
    the start-up logic of [index.js] and of [envVars.js], with the properties
    the specification states about them and further properties of the code.

    JavaScript values are untyped, so the embedding keeps them untyped: a
    [value] is what a variable of the program can hold, property access and
    truthiness follow the language, and a [completion] says how an evaluation
    ends (normally, by a thrown exception, or with the process gone).

    Numbers are the integers (every time stamp the program handles is a whole
    number of seconds or milliseconds) together with the two infinities and
    [NaN]; a product is rounded as a double is, and overflows to an infinity.
    Strings are byte strings. *)

From Stdlib Require Import ZArith List String Ascii Bool Lia Arith.
From Stdlib Require Import DecimalFacts DecimalPos DecimalZ.
Import ListNotations.

Set Warnings "-register-all".

Local Open Scope Z_scope.
Local Open Scope list_scope.

(* ================================================================== *)
(** * JavaScript values                                                  *)
(* ================================================================== *)

Module JS.

Inductive value : Type :=
| Undefined
| Null
| Bool (b : bool)
| Num (n : Z)
| NaN
| Infinity (positive : bool)
| Str (s : string)
| Arr (elements : list value)
| Obj (properties : list (string * value)).

Inductive error : Type :=
| TypeError (message : string)
| SyntaxError (message : string)
| Error (message : string).

(** How an evaluation ends: with a value, with an exception on its way to the
    nearest handler, or with the process terminated (which no handler sees). *)
Inductive completion (A : Type) : Type :=
| Normal (a : A)
| Throw (e : error)
| Exit (code : Z).

Arguments Normal {A} a.
Arguments Throw {A} e.
Arguments Exit {A} code.

Definition bindC {A B} (c : completion A) (k : A -> completion B) : completion B :=
  match c with
  | Normal a => k a
  | Throw e => Throw e
  | Exit n => Exit n
  end.

(** [try { body } catch (error) { handler }] *)
Definition try_catch {A} (body : completion A) (handler : error -> completion A)
  : completion A :=
  match body with
  | Throw e => handler e
  | other => other
  end.

(** ToBoolean *)
Definition truthy (v : value) : bool :=
  match v with
  | Undefined | Null | NaN => false
  | Bool b => b
  | Num n => negb (n =? 0)
  | Str s => negb (String.eqb s EmptyString)
  | Infinity _ | Arr _ | Obj _ => true
  end.

Definition falsy (v : value) : bool := negb (truthy v).

Fixpoint lookup (k : string) (ps : list (string * value)) : option value :=
  match ps with
  | [] => None
  | (k', v) :: rest => if String.eqb k k' then Some v else lookup k rest
  end.

(** [o.k] for the property names the program uses (none of them is a
    built-in of a primitive wrapper or of [Array.prototype]): a data property
    of an object, [undefined] when there is none, and a [TypeError] when [o]
    is [null] or [undefined]. *)
Definition get (o : value) (k : string) : completion value :=
  match o with
  | Undefined | Null =>
      Throw (TypeError ("Cannot read properties of null or undefined: " ++ k))
  | Obj ps => Normal (match lookup k ps with Some v => v | None => Undefined end)
  | _ => Normal Undefined
  end.

(** [o?.k] *)
Definition get_opt (o : value) (k : string) : completion value :=
  match o with
  | Undefined | Null => Normal Undefined
  | _ => get o k
  end.

(** [a || b] with [b] already evaluated (used where [b] cannot throw). *)
Definition or_else (a b : value) : value := if truthy a then a else b.

(** [s.split(".")] on a string. *)
Fixpoint split_on (sep : ascii) (s : string) : list string :=
  match s with
  | EmptyString => [EmptyString]
  | String c rest =>
      if Ascii.eqb c sep then EmptyString :: split_on sep rest
      else match split_on sep rest with
           | [] => [String c EmptyString]
           | p :: ps => String c p :: ps
           end
  end.

(** [s.replace(/a/g, b)] for single characters. *)
Fixpoint replace_all (a b : ascii) (s : string) : string :=
  match s with
  | EmptyString => EmptyString
  | String c rest => String (if Ascii.eqb c a then b else c) (replace_all a b rest)
  end.

(** [s.endsWith(suffix)] *)
Definition endsWith (s suffix : string) : bool :=
  let n := String.length s in
  let m := String.length suffix in
  (m <=? n)%nat && String.eqb (substring (n - m) m s) suffix.

(** What ToNumber gives: an integer, an infinity or [NaN]. *)
Inductive number : Type :=
| Finite (z : Z)
| Infinite (positive : bool)
| NotANumber.

(** What the engine and Node provide.  The program is verified against any
    runtime; [Node.runtime] below is an executable one. *)
Class Runtime : Type := {
  (** [JSON.parse(text)]; [None] is the [SyntaxError]. *)
  JSON_parse : string -> option value;
  (** [JSON.stringify(v, null, 2)]; [None] is the result [undefined]. *)
  JSON_stringify : value -> option string;
  (** [Buffer.from(s, "base64").toString("utf8")]; it never throws. *)
  Buffer_base64_utf8 : string -> string;
  (** ToNumber on a string. *)
  StringToNumber : string -> number;
  (** ToString on an array ([Array.prototype.join]) whose elements can all
      be converted. *)
  Array_toString : list value -> string
}.

Section Coercions.
Context {rt : Runtime}.

(** The values ToPrimitive cannot convert.  The objects of the program are
    plain objects (object literals, and what [JSON.parse] and
    [response.json()] return), whose properties are never functions: ToPrimitive
    asks such an object for [valueOf] and [toString], a property of the object
    itself hides the method of [Object.prototype], and the inherited [valueOf]
    returns the object.  So the conversion throws exactly when the object has
    a property [toString] of its own.  An array is converted by [join], which
    converts every element other than [null] and [undefined]. *)
Fixpoint unconvertible (v : value) : bool :=
  match v with
  | Obj ps => match lookup "toString" ps with Some _ => true | None => false end
  | Arr vs => existsb unconvertible vs
  | _ => false
  end.

Definition cannot_convert : error :=
  TypeError "Cannot convert object to primitive value".

(** ToPrimitive *)
Definition ToPrimitive (v : value) : completion value :=
  if unconvertible v then Throw cannot_convert
  else
    match v with
    | Arr vs => Normal (Str (Array_toString vs))
    | Obj _ => Normal (Str "[object Object]")
    | _ => Normal v
    end.

(** ToNumber *)
Definition ToNumber (v : value) : completion number :=
  bindC (ToPrimitive v) (fun prim =>
    Normal (match prim with
            | Null => Finite 0
            | Bool b => Finite (if b then 1 else 0)
            | Num n => Finite n
            | Infinity positive => Infinite positive
            | Str s => StringToNumber s
            | _ => NotANumber            (* [undefined], [NaN] *)
            end)).

Definition of_number (n : number) : value :=
  match n with
  | Finite z => Num z
  | Infinite positive => Infinity positive
  | NotANumber => NaN
  end.

(** The double nearest to an integer (ties to the even significand), an
    infinity from [2^1024] on.  Integers below [2^53] are doubles. *)
Definition round (z : Z) : number :=
  let a := Z.abs z in
  if a <? 2 ^ 53 then Finite z
  else
    let e := Z.log2 a - 52 in
    let q := a / 2 ^ e in
    let r := a mod 2 ^ e in
    let half := 2 ^ (e - 1) in
    let q' := if r <? half then q
              else if half <? r then q + 1
              else if Z.even q then q else q + 1 in
    let m := q' * 2 ^ e in
    if 2 ^ 1024 <=? m then Infinite (0 <? z) else Finite (Z.sgn z * m).

(** [x * y] on numbers: the product of two integers is rounded. *)
Definition times (x y : number) : number :=
  match x, y with
  | Finite m, Finite n => round (m * n)
  | Finite m, Infinite positive | Infinite positive, Finite m =>
      if m =? 0 then NotANumber else Infinite (Bool.eqb positive (0 <? m))
  | Infinite p, Infinite q => Infinite (Bool.eqb p q)
  | _, _ => NotANumber
  end.

(** [x - y] on numbers.  The program subtracts time stamps in milliseconds
    only, integers far below [2^53], where the difference of two doubles is
    the difference of the integers. *)
Definition minus (x y : number) : number :=
  match x, y with
  | Finite m, Finite n => Finite (m - n)
  | Finite _, Infinite positive => Infinite (negb positive)
  | Infinite positive, Finite _ => Infinite positive
  | Infinite p, Infinite q => if Bool.eqb p q then NotANumber else Infinite p
  | _, _ => NotANumber
  end.

(** [x >= y], [x < y] on numbers; a comparison with [NaN] is false. *)
Definition geb (x y : number) : bool :=
  match x, y with
  | Finite m, Finite n => n <=? m
  | Finite _, Infinite positive => negb positive
  | Infinite positive, Finite _ => positive
  | Infinite p, Infinite q => p || negb q
  | _, _ => false
  end.

Definition ltb (x y : number) : bool :=
  match x, y with
  | Finite m, Finite n => m <? n
  | Finite _, Infinite positive => positive
  | Infinite positive, Finite _ => negb positive
  | Infinite p, Infinite q => negb p && q
  | _, _ => false
  end.

(** [a * b], [a - b]: the left operand is converted first. *)
Definition mul (a b : value) : completion value :=
  bindC (ToNumber a) (fun x =>
  bindC (ToNumber b) (fun y =>
  Normal (of_number (times x y)))).

Definition sub (a b : value) : completion value :=
  bindC (ToNumber a) (fun x =>
  bindC (ToNumber b) (fun y =>
  Normal (of_number (minus x y)))).

(** [a >= b], [a < b] where one side is a number (so both sides are compared
    as numbers). *)
Definition ge (a b : value) : completion bool :=
  bindC (ToNumber a) (fun x =>
  bindC (ToNumber b) (fun y =>
  Normal (geb x y))).

Definition lt (a b : value) : completion bool :=
  bindC (ToNumber a) (fun x =>
  bindC (ToNumber b) (fun y =>
  Normal (ltb x y))).

End Coercions.

End JS.

Export JS.

Declare Scope js_scope.
Delimit Scope js_scope with js.
Notation "x <- c ;; k" := (bindC c (fun x => k))
  (at level 61, c at next level, right associativity) : js_scope.

(* ================================================================== *)
(** * JSON data                                                          *)
(* ================================================================== *)

(** What a JSON text keeps of a value: [undefined], [NaN] and the infinities
    become [null], and a property whose value is [undefined] disappears. *)
Fixpoint stored (v : value) : value :=
  match v with
  | Undefined | NaN | Infinity _ => Null
  | Arr vs => Arr (map stored vs)
  | Obj ps =>
      Obj (flat_map (fun p : string * value =>
                       let (k, x) := p in
                       match x with
                       | Undefined => []
                       | _ => [(k, stored x)]
                       end) ps)
  | _ => v
  end.

(** The property names of every object inside are pairwise distinct. *)
Inductive keyed : value -> Prop :=
| keyed_undefined : keyed Undefined
| keyed_null : keyed Null
| keyed_bool b : keyed (Bool b)
| keyed_num n : keyed (Num n)
| keyed_nan : keyed NaN
| keyed_infinity positive : keyed (Infinity positive)
| keyed_str s : keyed (Str s)
| keyed_arr vs : Forall keyed vs -> keyed (Arr vs)
| keyed_obj ps :
    NoDup (map fst ps) -> Forall (fun p => keyed (snd p)) ps -> keyed (Obj ps).

(** JSON data: what [JSON.parse] returns for a text that [JSON.stringify]
    wrote (a text with a number beyond the doubles parses to an infinity). *)
Inductive data : value -> Prop :=
| data_null : data Null
| data_bool b : data (Bool b)
| data_num n : data (Num n)
| data_str s : data (Str s)
| data_arr vs : Forall data vs -> data (Arr vs)
| data_obj ps :
    NoDup (map fst ps) -> Forall (fun p => data (snd p)) ps -> data (Obj ps).

(** The contract of [JSON.stringify] and [JSON.parse] taken together. *)
Definition faithful_JSON (rt : Runtime) : Prop :=
  forall v, keyed v -> v <> Undefined ->
            exists text, JSON_stringify v = Some text /\
                         JSON_parse text = Some (stored v).

Definition defined (v : value) : bool :=
  match v with Undefined => false | _ => true end.

Definition defined_props (ps : list (string * value)) : list (string * value) :=
  filter (fun p => defined (snd p)) ps.

Definition stored_props (ps : list (string * value)) : list (string * value) :=
  flat_map (fun p : string * value =>
              let (k, x) := p in
              match x with
              | Undefined => []
              | _ => [(k, stored x)]
              end) ps.

(* ================================================================== *)
(** * The world the program runs in                                      *)
(* ================================================================== *)

(** One answer of the SSO endpoint to a [fetch]. *)
Inductive http_reply : Type :=
| ConnectionFailed
| Reply (status : Z) (body : string).

(** What went over the network. *)
Inductive net_event : Type :=
| FingerprintLookups               (* public IP and geolocation services *)
| SsoLoginRequest (bearer : value) (* POST to [config.apiUrl] *).

Record State : Type := mkState {
  (* fields of the [LMSIntegration] instance *)
  cachedToken : value;
  jwtToken : value;
  lastResponse : value;
  (* [~/.n8n-desktop] and [~/.n8n-desktop/jwt-cache.json] *)
  cacheDir : bool;
  cacheFile : option string;
  diskFull : bool;                 (* creating and writing fail: ENOSPC *)
  unlinkDenied : bool;             (* removing fails: EACCES, EPERM, EBUSY *)
  (* [Date.now()], in milliseconds *)
  clock : Z;
  (* the answers the endpoint will give, and the traffic so far *)
  endpoint : list http_reply;
  traffic : list net_event
}.

Definition M (A : Type) : Type := State -> completion A * State.

Definition ret {A} (a : A) : M A := fun st => (Normal a, st).

Definition bind {A B} (c : M A) (k : A -> M B) : M B :=
  fun st =>
    match c st with
    | (Normal a, st') => k a st'
    | (Throw e, st') => (Throw e, st')
    | (Exit n, st') => (Exit n, st')
    end.

Definition lift {A} (c : completion A) : M A := fun st => (c, st).

Definition throw {A} (e : error) : M A := fun st => (Throw e, st).

(** [try { body } catch (error) { handler }]: a terminated process is not
    an exception. *)
Definition try_catchM {A} (body : M A) (handler : error -> M A) : M A :=
  fun st =>
    match body st with
    | (Throw e, st') => handler e st'
    | other => other
    end.

Declare Scope io_scope.
Delimit Scope io_scope with io.
Notation "x <- c ;; k" := (bind c (fun x => k))
  (at level 61, c at next level, right associativity) : io_scope.
Notation "c ;;; k" := (bind c (fun _ => k))
  (at level 61, right associativity) : io_scope.

Definition with_cachedToken (v : value) (st : State) : State :=
  mkState v (jwtToken st) (lastResponse st) (cacheDir st) (cacheFile st)
          (diskFull st) (unlinkDenied st) (clock st) (endpoint st) (traffic st).

Definition with_jwtToken (v : value) (st : State) : State :=
  mkState (cachedToken st) v (lastResponse st) (cacheDir st) (cacheFile st)
          (diskFull st) (unlinkDenied st) (clock st) (endpoint st) (traffic st).

Definition with_lastResponse (v : value) (st : State) : State :=
  mkState (cachedToken st) (jwtToken st) v (cacheDir st) (cacheFile st)
          (diskFull st) (unlinkDenied st) (clock st) (endpoint st) (traffic st).

(** [this.cachedToken = v], [this.jwtToken = v], [this.lastResponse = v] *)
Definition set_cachedToken (v : value) : M unit :=
  fun st => (Normal tt, with_cachedToken v st).

Definition set_jwtToken (v : value) : M unit :=
  fun st => (Normal tt, with_jwtToken v st).

Definition set_lastResponse (v : value) : M unit :=
  fun st => (Normal tt, with_lastResponse v st).

Definition with_disk (dir : bool) (file : option string) (st : State) : State :=
  mkState (cachedToken st) (jwtToken st) (lastResponse st) dir file
          (diskFull st) (unlinkDenied st) (clock st) (endpoint st) (traffic st).

Definition with_network (replies : list http_reply) (log : list net_event)
  (st : State) : State :=
  mkState (cachedToken st) (jwtToken st) (lastResponse st) (cacheDir st)
          (cacheFile st) (diskFull st) (unlinkDenied st) (clock st) replies log.

(** [Date.now()] *)
Definition Date_now : M Z := fun st => (Normal (clock st), st).

(** ** [fs], on the cache directory and the cache file *)

Definition existsSync_cacheDir : M bool := fun st => (Normal (cacheDir st), st).

Definition existsSync_cacheFile : M bool := fun st =>
  (Normal (match cacheFile st with Some _ => true | None => false end), st).

Definition mkdirSync_cacheDir : M unit := fun st =>
  if diskFull st then (Throw (Error "ENOSPC: mkdir"), st)
  else (Normal tt, with_disk true (cacheFile st) st).

Definition writeFileSync_cacheFile (data : string) : M unit := fun st =>
  if diskFull st then (Throw (Error "ENOSPC: write"), st)
  else if cacheDir st then (Normal tt, with_disk true (Some data) st)
  else (Throw (Error "ENOENT: open"), st).

Definition readFileSync_cacheFile : M string := fun st =>
  match cacheFile st with
  | Some text => (Normal text, st)
  | None => (Throw (Error "ENOENT: open"), st)
  end.

Definition unlinkSync_cacheFile : M unit := fun st =>
  match cacheFile st with
  | Some _ =>
      if unlinkDenied st then (Throw (Error "EPERM: unlink"), st)
      else (Normal tt, with_disk (cacheDir st) None st)
  | None => (Throw (Error "ENOENT: unlink"), st)
  end.

(** ** [fetch] of the SSO endpoint *)

Definition fetch_apiUrl (bearer : value) : M http_reply := fun st =>
  let log := traffic st ++ [SsoLoginRequest bearer] in
  match endpoint st with
  | [] => (Throw (TypeError "fetch failed"), with_network [] log st)
  | ConnectionFailed :: rest =>
      (Throw (TypeError "fetch failed"), with_network rest log st)
  | Reply status body :: rest =>
      (Normal (Reply status body), with_network rest log st)
  end.

(** [response.ok] *)
Definition response_ok (status : Z) : bool := (200 <=? status) && (status <=? 299).

(* ================================================================== *)
(** * lmsIntegration.js: class LMSIntegration                            *)
(* ================================================================== *)

(** A [Date], kept as the value it was built from (the dates are only
    shown). *)
Inductive date : Type := Date (from : value).

(** The object [getJWTInfo] returns. *)
Record JWTInfo : Type := mkJWTInfo {
  info_header : value;
  info_payload : value;
  info_isExpired : bool;
  info_expirationDate : option date;
  info_issuedDate : option date;
  info_username : value;
  info_algorithm : value
}.

(** The object [getTokenStatus] returns. *)
Inductive TokenStatus : Type :=
| NoToken                                   (* hasToken: false, source: 'none' *)
| FromCache (isValid : bool) (expirationDate : option date)
            (timeUntilExpiry : value) (username : value)
            (hasGroupAccess : value).

Section LMSIntegration.
Context {rt : Runtime}.

Definition dot : ascii := "."%char.

(** The [while (base64.length % 4) base64 += "="] loop of [base64UrlDecode];
    it runs at most three times. *)
Fixpoint pad_base64 (rounds : nat) (base64 : string) : string :=
  match rounds with
  | O => base64
  | S rounds' =>
      if (String.length base64 mod 4 =? 0)%nat then base64
      else pad_base64 rounds' (base64 ++ "=")
  end.

Definition base64UrlDecode (str : string) : string :=
  let base64 := replace_all "_" "/" (replace_all "-" "+" str) in
  Buffer_base64_utf8 (pad_base64 3 base64).

(** [token.split(".")]: a method of strings only. *)
Definition split_token (token : value) : completion (list string) :=
  match token with
  | Str s => Normal (split_on dot s)
  | _ => Throw (TypeError "token.split is not a function")
  end.

(** [JSON.parse(text)] as an evaluation. *)
Definition parse_json (text : string) : completion value :=
  match JSON_parse text with
  | Some v => Normal v
  | None => Throw (SyntaxError "Unexpected token in JSON")
  end.

Local Open Scope js_scope.

Definition decodeJWT (token : value) : completion value :=
  try_catch
    (if falsy token then Normal Null
     else
       parts <- split_token token ;;
       match parts with
       | [p0; p1; p2] =>
           header <- parse_json (base64UrlDecode p0) ;;
           payload <- parse_json (base64UrlDecode p1) ;;
           Normal (Obj [("header", header); ("payload", payload);
                        ("signature", Str p2)]%string)
       | _ => Normal Null                        (* parts.length !== 3 *)
       end)
    (fun _ => Normal Null).

Definition getTokenExpiration (jwt : value) : completion value :=
  try_catch
    (decoded <- decodeJWT jwt ;;
     if falsy decoded then Normal Null
     else
       payload <- get decoded "payload" ;;
       exp <- get payload "exp" ;;
       if truthy exp then mul exp (Num 1000) else Normal Null)
    (fun _ => Normal Null).

Local Close Scope js_scope.
Local Open Scope io_scope.

Definition isJWTExpired (token : value) : M bool :=
  try_catchM
    (decoded <- lift (decodeJWT token) ;;
     if falsy decoded then ret true
     else
       payload <- lift (get decoded "payload") ;;
       exp <- lift (get payload "exp") ;;
       if falsy exp then ret true
       else
         now <- Date_now ;;
         let currentTime := Num (now / 1000) in    (* Math.floor(now / 1000) *)
         lift (lt exp currentTime))
    (fun _ => ret true).

Definition ensureCacheDirectory : M unit :=
  present <- existsSync_cacheDir ;;
  if present then ret tt else mkdirSync_cacheDir.

(** The object literal [cacheData] of [saveTokenToCache]. *)
Definition cacheData_literal (jwt isNIEUser isLDAPEnabled hasGroupAccess key : value)
  (cachedAt : Z) (expiresAt : value) : value :=
  Obj [("jwt", jwt); ("isNIEUser", isNIEUser); ("isLDAPEnabled", isLDAPEnabled);
       ("hasGroupAccess", hasGroupAccess); ("key", key);
       ("cachedAt", Num cachedAt); ("expiresAt", expiresAt)]%string.

Definition saveTokenToCache (tokenData : value) : M bool :=
  try_catchM
    (ensureCacheDirectory ;;;
     jwt <- lift (get tokenData "jwt") ;;
     isNIEUser <- lift (get tokenData "isNIEUser") ;;
     isLDAPEnabled <- lift (get tokenData "isLDAPEnabled") ;;
     hasGroupAccess <- lift (get tokenData "hasGroupAccess") ;;
     key <- lift (get tokenData "key") ;;
     cachedAt <- Date_now ;;
     expiresAt <- lift (getTokenExpiration jwt) ;;
     let cacheData :=
       cacheData_literal jwt isNIEUser isLDAPEnabled hasGroupAccess key
                         cachedAt expiresAt in
     text <- match JSON_stringify cacheData with
             | Some text => ret text
             | None => throw (TypeError "The data argument must be a string")
             end ;;
     writeFileSync_cacheFile text ;;;
     set_cachedToken cacheData ;;;
     ret true)
    (fun _ => ret false).

Definition clearTokenCache : M unit :=
  try_catchM
    (present <- existsSync_cacheFile ;;
     (if present then unlinkSync_cacheFile else ret tt) ;;;
     set_cachedToken Null)
    (fun _ => ret tt).

Definition loadTokenFromCache : M value :=
  try_catchM
    (present <- existsSync_cacheFile ;;
     if present then
       text <- readFileSync_cacheFile ;;
       cacheData <- lift (parse_json text) ;;
       set_cachedToken cacheData ;;;
       ret cacheData
     else ret Null)
    (fun _ => clearTokenCache ;;; ret Null).

Definition bufferTime : Z := 5 * 60 * 1000.

Definition isCachedTokenValid (cachedToken : value) : M bool :=
  if falsy cachedToken then ret false
  else
    jwt <- lift (get cachedToken "jwt") ;;
    if falsy jwt then ret false
    else
      expiresAt <- lift (get cachedToken "expiresAt") ;;
      expired <-
        (if truthy expiresAt then
           now <- Date_now ;;
           lift (ge (Num now) expiresAt)
         else ret false) ;;
      if expired then ret false
      else
        expiresSoon <-
          (if truthy expiresAt then
             now <- Date_now ;;
             limit <- lift (sub expiresAt (Num bufferTime)) ;;
             lift (ge (Num now) limit)
           else ret false) ;;
        if expiresSoon then ret false
        else
          decoded <- lift (decodeJWT jwt) ;;
          if falsy decoded then ret false else ret true.

(** [new Date(v)] with one argument converts it with ToPrimitive. *)
Definition new_Date (v : value) : completion date :=
  bindC (ToPrimitive v) (fun _ => Normal (Date v)).

Definition getJWTInfo (token : value) : M (option JWTInfo) :=
  (* the parameter defaults to null *)
  let token := match token with Undefined => Null | t => t end in
  this_jwtToken <- (fun st => (Normal (jwtToken st), st)) ;;
  let jwtToken := or_else token this_jwtToken in
  if falsy jwtToken then ret None
  else
    decoded <- lift (decodeJWT jwtToken) ;;
    if falsy decoded then ret None
    else
      isExpired <- isJWTExpired jwtToken ;;
      payload <- lift (get decoded "payload") ;;
      header <- lift (get decoded "header") ;;
      exp <- lift (get payload "exp") ;;
      expirationDate <-
        (if truthy exp then
           milliseconds <- lift (mul exp (Num 1000)) ;;
           date <- lift (new_Date milliseconds) ;;
           ret (Some date)
         else ret None) ;;
      iat <- lift (get payload "iat") ;;
      issuedDate <-
        (if truthy iat then
           milliseconds <- lift (mul iat (Num 1000)) ;;
           date <- lift (new_Date milliseconds) ;;
           ret (Some date)
         else ret None) ;;
      username <- lift (get payload "username") ;;
      username' <-
        (if truthy username then ret username
         else body <- lift (get payload "body") ;; lift (get_opt body "username")) ;;
      algorithm <- lift (get header "alg") ;;
      ret (Some (mkJWTInfo header payload isExpired expirationDate issuedDate
                           username' algorithm)).

(** Everything after [getJWTInfo] only prints. *)
Definition displayJWTInfo (token : value) : M unit :=
  info <- getJWTInfo token ;;
  ret tt.

(** [getSystemInfoWithPublicIP] builds the request body from the operating
    system and from public look-up services.  Its own handler catches every
    exception and substitutes fixed values, and its result only feeds the
    request body: what is kept of it is that it uses the network. *)
Definition getSystemInfoWithPublicIP : M unit := fun st =>
  (Normal tt, with_network (endpoint st) (traffic st ++ [FingerprintLookups]) st).

Definition performSSOLogin (bearerToken : value) : M value :=
  try_catchM
    (getSystemInfoWithPublicIP ;;;
     (* [`Bearer ${bearerToken}`]: ToString converts an object with
        ToPrimitive, before [fetch] is called *)
     lift (ToPrimitive bearerToken) ;;;
     response <- fetch_apiUrl bearerToken ;;
     match response with
     | ConnectionFailed => throw (TypeError "fetch failed")
     | Reply status body =>
         if negb (response_ok status) then throw (Error "HTTP error!")
         else
           data <- lift (parse_json body) ;;               (* response.json() *)
           jwt <- lift (get data "jwt") ;;
           (if truthy jwt then set_jwtToken jwt ;;; displayJWTInfo jwt
            else ret tt) ;;;
           ret data
     end)
    (fun _ => ret Null).

Definition getValidToken (bearerToken : value) : M value :=
  cachedToken <- loadTokenFromCache ;;
  valid <- isCachedTokenValid cachedToken ;;
  if valid then
    jwt <- lift (get cachedToken "jwt") ;;
    set_jwtToken jwt ;;;
    set_lastResponse cachedToken ;;;
    ret cachedToken
  else
    tokenData <- performSSOLogin bearerToken ;;
    if truthy tokenData then
      saveTokenToCache tokenData ;;;
      ret tokenData
    else ret Null.

(** [initialize], with the member [this.exitProcess] it calls as a parameter. *)
Definition initialize_via (exitProcess : Z -> M unit)
  (bearerToken : value) (exitOnFailure : bool) : M bool :=
  if falsy bearerToken then
    (if exitOnFailure then exitProcess 1 else ret tt) ;;;
    ret false
  else
    try_catchM
      (tokenData <- getValidToken bearerToken ;;
       if truthy tokenData then
         set_lastResponse tokenData ;;;
         isNIEUser <- lift (get tokenData "isNIEUser") ;;
         isLDAPEnabled <- lift (get tokenData "isLDAPEnabled") ;;
         hasGroupAccess <- lift (get tokenData "hasGroupAccess") ;;
         expiresAt <- lift (get tokenData "expiresAt") ;;
         (if truthy expiresAt then lift (new_Date expiresAt) ;;; ret tt
          else ret tt) ;;;                     (* [expirationDate], only shown *)
         (if negb (truthy hasGroupAccess || truthy isNIEUser || truthy isLDAPEnabled)
          then (if exitOnFailure then exitProcess 2 else ret tt)
          else ret tt) ;;;
         ret true
       else
         (if exitOnFailure then exitProcess 3 else ret tt) ;;;
         ret false)
      (fun _ =>
         (if exitOnFailure then exitProcess 4 else ret tt) ;;;
         ret false).

(** The class body declares no member [exitProcess] and nothing assigns one
    to the instance: [this.exitProcess] is [undefined], and calling it
    throws. *)
Definition exitProcess (code : Z) : M unit :=
  throw (TypeError "this.exitProcess is not a function").

(** What the calls were written for: [process.exit(code)]. *)
Definition process_exit (code : Z) : M unit := fun st => (Exit code, st).

Definition initialize : value -> bool -> M bool := initialize_via exitProcess.

Definition refreshToken (bearerToken : value) : M value :=
  clearTokenCache ;;;
  getValidToken bearerToken.

Definition getTokenStatus : M TokenStatus :=
  this_cachedToken <- (fun st => (Normal (cachedToken st), st)) ;;
  cachedToken <-
    (if truthy this_cachedToken then ret this_cachedToken
     else loadTokenFromCache) ;;
  if falsy cachedToken then ret NoToken
  else
    isValid <- isCachedTokenValid cachedToken ;;
    expiresAt <- lift (get cachedToken "expiresAt") ;;
    expirationDate <-
      (if truthy expiresAt then
         date <- lift (new_Date expiresAt) ;;
         ret (Some date)
       else ret None) ;;
    timeUntilExpiry <-
      (if truthy expiresAt then
         now <- Date_now ;;
         lift (sub expiresAt (Num now))
       else ret Null) ;;
    jwt <- lift (get cachedToken "jwt") ;;
    info <- getJWTInfo jwt ;;
    let username :=
      match info with Some i => info_username i | None => Undefined end in
    hasGroupAccess <- lift (get cachedToken "hasGroupAccess") ;;
    ret (FromCache isValid expirationDate timeUntilExpiry username hasGroupAccess).

Local Close Scope io_scope.

End LMSIntegration.

(* ================================================================== *)
(** * index.js                                                           *)
(* ================================================================== *)

(** ** The process supervisor's launch decision (function [main]) *)

Inductive platform : Type := darwin | win32 | other_platform.

Definition isMac (p : platform) : bool :=
  match p with darwin => true | _ => false end.

Definition isWin (p : platform) : bool :=
  match p with win32 => true | _ => false end.

(** [process.env]: a variable is a string or is not set. *)
Definition environment : Type := string -> option string.

(** [process.env[name] === "true"] *)
Definition env_is_true (env : environment) (name : string) : bool :=
  match env name with
  | Some s => String.eqb s "true"
  | None => false
  end.

Definition bgEnabled (env : environment) : bool :=
  env_is_true env "N8N_DESKTOP_BACKGROUND_PROCESS_ENABLED".

Definition offlineEnabled (env : environment) : bool :=
  env_is_true env "DESKTOP_ENABLE_OFFLINE_MODE".

Definition shouldInit (bgEnabled portInUse : bool) : bool :=
  negb bgEnabled || negb portInUse.

(** [args.pop()] *)
Definition pop {A} (args : list A) : list A := removelast args.

(** What [n8nProcess] is bound to. *)
Inductive child : Type :=
| ExecFile (file : string) (args : list string)       (* bound to the abort signal *)
| Fork (modulePath : string) (args : list string)     (* bound to the abort signal *)
| Respawn (command : list string) (maxRestarts : Z).  (* started with [start()] *)

Definition devCliArgs (offline : bool) : list string :=
  let args := ["start"; "--tunnel"]%string in
  if offline then pop args else args.

Definition isBinary (n8nScriptPath : string) : bool :=
  negb (endsWith n8nScriptPath ".js").

Definition spawnArgs (n8nScriptPath : string) (offline : bool) : list string :=
  let prodCliArgs :=
    if isBinary n8nScriptPath then []
    else [n8nScriptPath; "start"; "--tunnel"]%string in
  let prodCliArgs :=
    if negb (isBinary n8nScriptPath) && offline then pop prodCliArgs
    else prodCliArgs in
  if isBinary n8nScriptPath then [n8nScriptPath]
  else "node"%string :: prodCliArgs.

(** The two launch blocks of [main], in order; [isProd = !isDev]. *)
Definition launch (isDev : bool) (os : platform) (n8nScriptPath : string)
  (env : environment) (portInUse : bool) : option child :=
  let shouldInit := shouldInit (bgEnabled env) portInUse in
  let offline := offlineEnabled env in
  let n8nProcess : option child := None in
  let n8nProcess :=
    if isDev && shouldInit then
      let n8nProcess :=
        if isMac os then Some (ExecFile n8nScriptPath (devCliArgs offline))
        else n8nProcess in
      if isWin os then Some (Fork n8nScriptPath (devCliArgs offline))
      else n8nProcess
    else n8nProcess in
  if negb isDev && shouldInit then
    Some (Respawn (spawnArgs n8nScriptPath offline) 10)
  else n8nProcess.

(** ** The readiness gate (function [waitForUrls]) *)

(** What one [fetch] of a URL gives: a response with its status, or an
    exception (which the loop's handler swallows). *)
Inductive poll : Type :=
| Status (code : Z)
| Failed.

(** A site answers the requests it receives, the first, the second, ... *)
Definition site : Type := nat -> poll.

Record ready : Type := mkReady {
  polls : nat;       (* requests sent, the successful one included *)
  slept : Z          (* milliseconds the timers between them were set to *)
}.

(** [res.status === 200]; an exception is swallowed by the handler. *)
Definition is_ready (p : poll) : bool :=
  match p with
  | Status code => code =? 200
  | Failed => false
  end.

(** [setTimeout(f, delay)]: the delay the timer is set to.  Node sets a delay
    below 1 or above 2147483647 to 1. *)
Definition TIMEOUT_MAX : Z := 2147483647.

Definition timer_delay (delay : Z) : Z :=
  if (delay <? 1) || (TIMEOUT_MAX <? delay) then 1 else delay.

(** The loop of [check(url)]: [sent] requests were made before, the timers
    set so far add up to [waited] milliseconds.  [None]: still polling when
    the fuel ran out. *)
Fixpoint check_from (fuel : nat) (interval : Z) (s : site) (sent : nat)
  (waited : Z) : option ready :=
  match fuel with
  | O => None
  | S fuel' =>
      if is_ready (s sent) then Some (mkReady (S sent) waited)
      else check_from fuel' interval s (S sent) (waited + timer_delay interval)
  end.

Definition check (fuel : nat) (interval : Z) (s : site) : option ready :=
  check_from fuel interval s 0%nat 0.

(** [Promise.all] of promises that never reject: settled when all are. *)
Fixpoint all_ready (rs : list (option ready)) : option (list ready) :=
  match rs with
  | [] => Some []
  | None :: _ => None
  | Some r :: rest =>
      match all_ready rest with
      | Some rs' => Some (r :: rs')
      | None => None
      end
  end.

Record resolved : Type := mkResolved {
  result : list bool;    (* the array the promise resolves with *)
  per_url : list ready;
  resolved_after : Z     (* sleeping time of the slowest check *)
}.

(** The options object: [interval] defaults to 250. *)
Definition interval_of (interval : option Z) : Z :=
  match interval with Some i => i | None => 250 end.

Definition waitForUrls (fuel : nat) (web : string -> site) (urls : list string)
  (interval : option Z) : option resolved :=
  match all_ready (map (fun url => check fuel (interval_of interval) (web url)) urls) with
  | Some rs =>
      Some (mkResolved (map (fun _ => true) rs) rs
                       (fold_right Z.max 0 (map slept rs)))
  | None => None
  end.

(** ** The access gate at the head of [main] *)

Section Gate.
Context {rt : Runtime}.
Local Open Scope io_scope.

(** [new LMSIntegration()] *)
Definition new_LMSIntegration : M unit := fun st =>
  (Normal tt, mkState Null Undefined Undefined (cacheDir st) (cacheFile st)
                      (diskFull st) (unlinkDenied st) (clock st) (endpoint st) (traffic st)).

Definition env_value (env : environment) (name : string) : value :=
  match env name with Some s => Str s | None => Undefined end.

Definition initializeLMS (env : environment) : M bool :=
  new_LMSIntegration ;;;
  let bearerToken := env_value env "LMS_BEARER_TOKEN" in
  if falsy bearerToken then ret false
  else
    getTokenStatus ;;;
    success <- initialize bearerToken true ;;
    (if success then getTokenStatus ;;; ret tt else ret tt) ;;;
    ret success.

(** [main] up to the start of the child process: [env] is the environment
    [setEnvVars] leaves, the dialog only shows a message. *)
Definition main_gate (env : environment) : M unit :=
  try_catchM
    (n8nAccess <- initializeLMS env ;;
     if negb n8nAccess then process_exit 1 else ret tt)
    (fun _ => process_exit 1).

End Gate.

(* ================================================================== *)
(** * An executable runtime                                              *)
(* ================================================================== *)

(** [JSON.stringify(v, null, 2)], [JSON.parse], the base64 decoder of
    [Buffer] and the number coercions, on the values of this development.
    Numbers are printed and read as integers (a literal with a fraction or
    an exponent is refused), strings byte by byte. *)
Module Node.

Local Open Scope char_scope.

Definition chars : Type := list ascii.

Definition dquote : ascii := Eval cbv in ascii_of_nat 34.
Definition backslash : ascii := Eval cbv in ascii_of_nat 92.
Definition LF : ascii := Eval cbv in ascii_of_nat 10.
Definition CR : ascii := Eval cbv in ascii_of_nat 13.
Definition TAB : ascii := Eval cbv in ascii_of_nat 9.
Definition BS : ascii := Eval cbv in ascii_of_nat 8.
Definition FF : ascii := Eval cbv in ascii_of_nat 12.

(** ** Printing *)

Fixpoint digits_of_uint (u : Decimal.uint) : chars :=
  match u with
  | Decimal.Nil => []
  | Decimal.D0 u' => "0" :: digits_of_uint u'
  | Decimal.D1 u' => "1" :: digits_of_uint u'
  | Decimal.D2 u' => "2" :: digits_of_uint u'
  | Decimal.D3 u' => "3" :: digits_of_uint u'
  | Decimal.D4 u' => "4" :: digits_of_uint u'
  | Decimal.D5 u' => "5" :: digits_of_uint u'
  | Decimal.D6 u' => "6" :: digits_of_uint u'
  | Decimal.D7 u' => "7" :: digits_of_uint u'
  | Decimal.D8 u' => "8" :: digits_of_uint u'
  | Decimal.D9 u' => "9" :: digits_of_uint u'
  end.

Definition print_Z (n : Z) : chars :=
  match Z.to_int n with
  | Decimal.Pos u => digits_of_uint u
  | Decimal.Neg u => "-" :: digits_of_uint u
  end.

Definition hexdigit (n : nat) : ascii :=
  nth n ["0"; "1"; "2"; "3"; "4"; "5"; "6"; "7"; "8"; "9";
         "a"; "b"; "c"; "d"; "e"; "f"] "0".

(** QuoteJSONString, one character. *)
Definition quote_char (c : ascii) : chars :=
  let n := nat_of_ascii c in
  if Ascii.eqb c dquote then [backslash; dquote]
  else if Ascii.eqb c backslash then [backslash; backslash]
  else if Ascii.eqb c BS then [backslash; "b"]
  else if Ascii.eqb c FF then [backslash; "f"]
  else if Ascii.eqb c LF then [backslash; "n"]
  else if Ascii.eqb c CR then [backslash; "r"]
  else if Ascii.eqb c TAB then [backslash; "t"]
  else if (n <? 32)%nat then
    [backslash; "u"; "0"; "0"; hexdigit (n / 16); hexdigit (n mod 16)]
  else [c].

Definition quote (s : string) : chars :=
  dquote :: flat_map quote_char (list_ascii_of_string s) ++ [dquote].

Definition newline (indent : nat) : chars := LF :: repeat " " indent.

Fixpoint join (items : list chars) : chars :=
  match items with
  | [] => []
  | [x] => x
  | x :: rest => x ++ "," :: join rest
  end.

Definition lit (s : string) : chars := list_ascii_of_string s.

(** SerializeJSONProperty with a gap of two spaces; [undefined] is printed
    as [null] (its rendering inside an array), and a property whose value
    is [undefined] is left out. *)
Fixpoint serialize (indent : nat) (v : value) : chars :=
  match v with
  | Undefined | Null | NaN | Infinity _ => lit "null"
  | Bool true => lit "true"
  | Bool false => lit "false"
  | Num n => print_Z n
  | Str s => quote s
  | Arr vs =>
      match map (fun x => newline (2 + indent) ++ serialize (2 + indent) x) vs with
      | [] => lit "[]"
      | items => "[" :: join items ++ newline indent ++ ["]"]
      end
  | Obj ps =>
      match flat_map (fun p : string * value =>
                        let (k, x) := p in
                        match x with
                        | Undefined => []
                        | _ => [newline (2 + indent) ++ quote k ++ ":" :: " " ::
                                serialize (2 + indent) x]
                        end) ps with
      | [] => lit "{}"
      | items => "{" :: join items ++ newline indent ++ ["}"]
      end
  end.

Definition stringify (v : value) : option string :=
  match v with
  | Undefined => None
  | _ => Some (string_of_list_ascii (serialize 0 v))
  end.

(** ** Reading *)

Definition is_ws (c : ascii) : bool :=
  Ascii.eqb c " " || Ascii.eqb c LF || Ascii.eqb c CR || Ascii.eqb c TAB.

Fixpoint skip_ws (s : chars) : chars :=
  match s with
  | c :: rest => if is_ws c then skip_ws rest else s
  | [] => []
  end.

Fixpoint read_uint (s : chars) : Decimal.uint * chars :=
  match s with
  | [] => (Decimal.Nil, [])
  | c :: rest =>
      let digit (d : Decimal.uint -> Decimal.uint) :=
        let (u, rest') := read_uint rest in (d u, rest') in
      match c with
      | "0" => digit Decimal.D0
      | "1" => digit Decimal.D1
      | "2" => digit Decimal.D2
      | "3" => digit Decimal.D3
      | "4" => digit Decimal.D4
      | "5" => digit Decimal.D5
      | "6" => digit Decimal.D6
      | "7" => digit Decimal.D7
      | "8" => digit Decimal.D8
      | "9" => digit Decimal.D9
      | _ => (Decimal.Nil, s)
      end
  end.

(** No fraction and no exponent may follow. *)
Definition integer_ends (rest : chars) : bool :=
  match rest with
  | c :: _ => negb (Ascii.eqb c "." || Ascii.eqb c "e" || Ascii.eqb c "E")
  | [] => true
  end.

(** At least one digit, and no leading zero. *)
Definition canonical (u : Decimal.uint) : bool :=
  match u with
  | Decimal.Nil => false
  | Decimal.D0 Decimal.Nil => true
  | Decimal.D0 _ => false
  | _ => true
  end.

Definition read_number (s : chars) : option (value * chars) :=
  let (negative, s') :=
    match s with
    | "-" :: rest => (true, rest)
    | _ => (false, s)
    end in
  let (u, rest) := read_uint s' in
  if canonical u && integer_ends rest then
    Some (Num (Z.of_int (if negative then Decimal.Neg u else Decimal.Pos u)), rest)
  else None.

Definition hexval (c : ascii) : option nat :=
  let n := nat_of_ascii c in
  if ((48 <=? n) && (n <=? 57))%nat then Some (n - 48)%nat
  else if ((97 <=? n) && (n <=? 102))%nat then Some (n - 87)%nat
  else if ((65 <=? n) && (n <=? 70))%nat then Some (n - 55)%nat
  else None.

Definition hex4 (a b c d : ascii) : option nat :=
  match hexval a, hexval b, hexval c, hexval d with
  | Some x, Some y, Some z, Some w => Some (((x * 16 + y) * 16 + z) * 16 + w)%nat
  | _, _, _, _ => None
  end.

(** The bytes of a code unit read from a [\uXXXX] escape. *)
Definition utf8 (code : nat) : chars :=
  if (code <? 128)%nat then [ascii_of_nat code]
  else if (code <? 2048)%nat then
    [ascii_of_nat (192 + code / 64); ascii_of_nat (128 + code mod 64)]
  else
    [ascii_of_nat (224 + code / 4096); ascii_of_nat (128 + (code / 64) mod 64);
     ascii_of_nat (128 + code mod 64)].

Definition simple_escape (c : ascii) : option ascii :=
  if Ascii.eqb c dquote then Some dquote
  else if Ascii.eqb c backslash then Some backslash
  else if Ascii.eqb c "/" then Some "/"
  else if Ascii.eqb c "b" then Some BS
  else if Ascii.eqb c "f" then Some FF
  else if Ascii.eqb c "n" then Some LF
  else if Ascii.eqb c "r" then Some CR
  else if Ascii.eqb c "t" then Some TAB
  else None.

Definition prepend (p : chars) (r : option (chars * chars)) : option (chars * chars) :=
  match r with
  | Some (t, rest) => Some (p ++ t, rest)
  | None => None
  end.

(** The characters of a string literal after its opening quote. *)
Fixpoint read_string (s : chars) {struct s} : option (chars * chars) :=
  match s with
  | [] => None
  | c :: r =>
      if Ascii.eqb c dquote then Some ([], r)
      else if Ascii.eqb c backslash then
        match r with
        | [] => None
        | e :: r1 =>
            match simple_escape e with
            | Some d => prepend [d] (read_string r1)
            | None =>
                if Ascii.eqb e "u" then
                  match r1 with
                  | h1 :: h2 :: h3 :: h4 :: r2 =>
                      match hex4 h1 h2 h3 h4 with
                      | Some code => prepend (utf8 code) (read_string r2)
                      | None => None
                      end
                  | _ => None
                  end
                else None
            end
        end
      else if (nat_of_ascii c <? 32)%nat then None
      else prepend [c] (read_string r)
  end.

(** [s] starts with [word]: what follows it. *)
Fixpoint expect (word s : chars) : option chars :=
  match word, s with
  | [], _ => Some s
  | w :: word', c :: s' => if Ascii.eqb w c then expect word' s' else None
  | _ :: _, [] => None
  end.

(** A property read later replaces the value of an earlier one of the same
    name and keeps its place. *)
Fixpoint set_prop (ps : list (string * value)) (k : string) (v : value)
  : list (string * value) :=
  match ps with
  | [] => [(k, v)]
  | (k', v') :: rest =>
      if String.eqb k k' then (k, v) :: rest else (k', v') :: set_prop rest k v
  end.

Definition normalize (members : list (string * value)) : list (string * value) :=
  fold_left (fun acc p => set_prop acc (fst p) (snd p)) members [].

(** Past white space, the character [c]: what follows it. *)
Definition accept (c : ascii) (s : chars) : option chars :=
  match skip_ws s with
  | c' :: rest => if Ascii.eqb c' c then Some rest else None
  | [] => None
  end.

Fixpoint read_value (fuel : nat) (s : chars) {struct fuel} : option (value * chars) :=
  match fuel with
  | O => None
  | S fuel' =>
      match skip_ws s with
      | [] => None
      | c :: r =>
          if Ascii.eqb c "{" then
            match accept "}" r with
            | Some r' => Some (Obj [], r')
            | None =>
                match read_members fuel' r with
                | Some (ms, r') => Some (Obj (normalize ms), r')
                | None => None
                end
            end
          else if Ascii.eqb c "[" then
            match accept "]" r with
            | Some r' => Some (Arr [], r')
            | None =>
                match read_elements fuel' r with
                | Some (vs, r') => Some (Arr vs, r')
                | None => None
                end
            end
          else if Ascii.eqb c dquote then
            match read_string r with
            | Some (t, r') => Some (Str (string_of_list_ascii t), r')
            | None => None
            end
          else if Ascii.eqb c "t" then
            match expect (lit "rue") r with
            | Some r' => Some (Bool true, r')
            | None => None
            end
          else if Ascii.eqb c "f" then
            match expect (lit "alse") r with
            | Some r' => Some (Bool false, r')
            | None => None
            end
          else if Ascii.eqb c "n" then
            match expect (lit "ull") r with
            | Some r' => Some (Null, r')
            | None => None
            end
          else read_number (c :: r)
      end
  end

with read_members (fuel : nat) (s : chars) {struct fuel}
  : option (list (string * value) * chars) :=
  match fuel with
  | O => None
  | S fuel' =>
      match accept dquote s with
      | None => None
      | Some r =>
          match read_string r with
          | None => None
          | Some (k, r1) =>
              match accept ":" r1 with
              | None => None
              | Some r2 =>
                  match read_value fuel' r2 with
                  | None => None
                  | Some (v, r3) =>
                      let member := (string_of_list_ascii k, v) in
                      match accept "," r3 with
                      | Some r4 =>
                          match read_members fuel' r4 with
                          | Some (ms, r5) => Some (member :: ms, r5)
                          | None => None
                          end
                      | None =>
                          match accept "}" r3 with
                          | Some r4 => Some ([member], r4)
                          | None => None
                          end
                      end
                  end
              end
          end
      end
  end

with read_elements (fuel : nat) (s : chars) {struct fuel}
  : option (list value * chars) :=
  match fuel with
  | O => None
  | S fuel' =>
      match read_value fuel' s with
      | None => None
      | Some (v, r1) =>
          match accept "," r1 with
          | Some r2 =>
              match read_elements fuel' r2 with
              | Some (vs, r3) => Some (v :: vs, r3)
              | None => None
              end
          | None =>
              match accept "]" r1 with
              | Some r2 => Some ([v], r2)
              | None => None
              end
          end
      end
  end.

(** [read_value] reads a character before it calls itself again, and the
    two loops read one between two rounds: fuel beyond twice the length of
    the text is never used up ([NodeFacts.parse_fuel]). *)
Definition parse (text : string) : option value :=
  let s := list_ascii_of_string text in
  match read_value (2 * List.length s + 1) s with
  | Some (v, rest) =>
      match skip_ws rest with
      | [] => Some v
      | _ => None
      end
  | None => None
  end.

(** ** [Buffer.from(s, "base64").toString("utf8")] *)

(** Both alphabets are accepted. *)
Definition sextet (c : ascii) : option nat :=
  let n := nat_of_ascii c in
  if ((65 <=? n) && (n <=? 90))%nat then Some (n - 65)%nat
  else if ((97 <=? n) && (n <=? 122))%nat then Some (n - 71)%nat
  else if ((48 <=? n) && (n <=? 57))%nat then Some (n + 4)%nat
  else if Ascii.eqb c "+" || Ascii.eqb c "-" then Some 62%nat
  else if Ascii.eqb c "/" || Ascii.eqb c "_" then Some 63%nat
  else None.

(** Characters outside the alphabet carry no bits; the decoder stops at the
    first [=]. *)
Fixpoint sextets (s : chars) : list nat :=
  match s with
  | [] => []
  | c :: rest =>
      if Ascii.eqb c "=" then []
      else
        match sextet c with
        | Some n => n :: sextets rest
        | None => sextets rest
        end
  end.

Fixpoint bytes_of_sextets (l : list nat) : chars :=
  match l with
  | a :: b :: c :: d :: rest =>
      ascii_of_nat (a * 4 + b / 16)
      :: ascii_of_nat ((b mod 16) * 16 + c / 4)
      :: ascii_of_nat ((c mod 4) * 64 + d)
      :: bytes_of_sextets rest
  | [a; b; c] =>
      [ascii_of_nat (a * 4 + b / 16); ascii_of_nat ((b mod 16) * 16 + c / 4)]
  | [a; b] => [ascii_of_nat (a * 4 + b / 16)]
  | _ => []
  end.

Definition base64_utf8 (s : string) : string :=
  string_of_list_ascii (bytes_of_sextets (sextets (list_ascii_of_string s))).

(** ** Coercions *)

(** StringToNumber on the integers: white space around an optional sign and
    decimal digits or [Infinity]; the empty string is 0. *)
Definition string_to_number (s : string) : number :=
  let t := rev (skip_ws (rev (skip_ws (list_ascii_of_string s)))) in
  let digits (negative : bool) (d : chars) :=
    if String.eqb (string_of_list_ascii d) "Infinity" then Infinite (negb negative)
    else
      match read_uint d with
      | (Decimal.Nil, _) => NotANumber
      | (u, []) => Finite (Z.of_int (if negative then Decimal.Neg u else Decimal.Pos u))
      | (_, _ :: _) => NotANumber
      end in
  match t with
  | [] => Finite 0
  | "-" :: d => digits true d
  | "+" :: d => digits false d
  | d => digits false d
  end.

Fixpoint join_strings (items : list string) : string :=
  match items with
  | [] => EmptyString
  | [x] => x
  | x :: rest => (x ++ "," ++ join_strings rest)%string
  end.

(** ToString *)
Fixpoint to_string (v : value) : string :=
  match v with
  | Undefined => "undefined"
  | Null => "null"
  | Bool true => "true"
  | Bool false => "false"
  | Num n => string_of_list_ascii (print_Z n)
  | NaN => "NaN"
  | Infinity true => "Infinity"
  | Infinity false => "-Infinity"
  | Str s => s
  | Arr vs =>
      join_strings (map (fun x => match x with
                                  | Undefined | Null => EmptyString
                                  | _ => to_string x
                                  end) vs)
  | Obj _ => "[object Object]"
  end.

Definition runtime : Runtime := {|
  JSON_parse := parse;
  JSON_stringify := stringify;
  Buffer_base64_utf8 := base64_utf8;
  StringToNumber := string_to_number;
  Array_toString := fun vs => to_string (Arr vs)
|}.

(** ** Vocabulary of the round trip *)

(** What may follow a printed value: nothing, a comma, or a line break. *)
Definition tail_ok (rest : chars) : bool :=
  match rest with
  | [] => true
  | c :: _ => Ascii.eqb c "," || Ascii.eqb c LF
  end.

Definition starts_number (c : ascii) : bool :=
  Ascii.eqb c "-" ||
  ((48 <=? nat_of_ascii c)%nat && (nat_of_ascii c <=? 57)%nat).

Definition opens_value (c : ascii) : bool :=
  starts_number c || Ascii.eqb c dquote || Ascii.eqb c "[" || Ascii.eqb c "{"
  || Ascii.eqb c "n" || Ascii.eqb c "t" || Ascii.eqb c "f".

(** One line of a printed array, one line of a printed object. *)
Definition item (indent : nat) (x : value) : chars :=
  newline indent ++ serialize indent x.

Definition member (indent : nat) (p : string * value) : chars :=
  newline indent ++ quote (fst p) ++ ":" :: " " :: serialize indent (snd p).

(** [v] is read back from what [serialize] prints for it, whatever the
    indentation and whatever follows. *)
Definition reads_back (v : value) : Prop :=
  keyed v ->
  forall indent rest fuel,
    tail_ok rest = true ->
    (2 * List.length (serialize indent v ++ rest) + 1 <= fuel)%nat ->
    read_value fuel (serialize indent v ++ rest) = Some (stored v, rest).

End Node.

(* ================================================================== *)
(** * Vocabulary of the statements                                       *)
(* ================================================================== *)

Section Vocabulary.
Context {rt : Runtime}.

(** A token is structurally valid when it is a string that splits on [.]
    into exactly three segments whose first two, decoded, parse. *)
Definition decodes_to (token header payload : value) (signature : string) : Prop :=
  exists s p0 p1,
    token = Str s /\
    split_on dot s = [p0; p1; signature] /\
    JSON_parse (base64UrlDecode p0) = Some header /\
    JSON_parse (base64UrlDecode p1) = Some payload.

Definition decodes (token : value) : Prop :=
  exists header payload signature, decodes_to token header payload signature.

Definition decoded_object (header payload : value) (signature : string) : value :=
  Obj [("header", header); ("payload", payload); ("signature", Str signature)]%string.

(** The two expiry tests of [isCachedTokenValid] at the time [now], and the
    policy on a record that has a token, as one expression. *)
Definition expired_at (now : Z) (expiresAt : value) : completion bool :=
  if truthy expiresAt then ge (Num now) expiresAt else Normal false.

Definition expires_soon_at (now : Z) (expiresAt : value) : completion bool :=
  if truthy expiresAt then
    bindC (sub expiresAt (Num bufferTime)) (fun limit => ge (Num now) limit)
  else Normal false.

Definition policy (now : Z) (jwt expiresAt : value) : completion bool :=
  bindC (expired_at now expiresAt) (fun expired =>
  if expired then Normal false
  else
    bindC (expires_soon_at now expiresAt) (fun expiresSoon =>
    if expiresSoon then Normal false
    else Normal (match decodeJWT jwt with
                 | Normal d => truthy d
                 | _ => false
                 end))).

(** What [getTokenExpiration] returns for a truthy claim [exp]: the product
    [exp * 1000], or [null] from the handler when the product throws; and
    what [isJWTExpired] returns for it at the time [now]. *)
Definition expiration_of (exp : value) : value :=
  match mul exp (Num 1000) with
  | Normal milliseconds => milliseconds
  | _ => Null
  end.

Definition expired_claim (exp : value) (now : Z) : bool :=
  match lt exp (Num (now / 1000)) with
  | Normal expired => expired
  | _ => true
  end.

(** [claim ? new Date(claim * 1000) : null], and what [getJWTInfo] makes of
    a decoded token once [isExpired] is known. *)
Definition date_of_claim (claim : value) : completion (option date) :=
  if truthy claim then
    bindC (mul claim (Num 1000)) (fun milliseconds =>
    bindC (new_Date milliseconds) (fun date => Normal (Some date)))
  else Normal None.

Definition info_of (header payload : value) (isExpired : bool)
  : completion (option JWTInfo) :=
  bindC (get payload "exp") (fun exp =>
  bindC (date_of_claim exp) (fun expirationDate =>
  bindC (get payload "iat") (fun iat =>
  bindC (date_of_claim iat) (fun issuedDate =>
  bindC (get payload "username") (fun username =>
  bindC (if truthy username then Normal username
         else bindC (get payload "body") (fun body => get_opt body "username"))
        (fun username' =>
  bindC (get header "alg") (fun algorithm =>
  Normal (Some (mkJWTInfo header payload isExpired expirationDate issuedDate
                          username' algorithm))))))))).

Definition no_exit {A} (r : completion A) : Prop :=
  match r with Exit _ => False | _ => True end.

(** A computation that ends normally or by an exception, whatever the state. *)
Definition never_exits {A} (c : M A) : Prop :=
  forall st, no_exit (fst (c st)).

(** A computation that only reads: it leaves the state as it is, and ends
    normally or by an exception. *)
Definition reads {A} (c : M A) : Prop :=
  forall st, exists r, c st = (r, st) /\ no_exit r.

(** What the acquisition sends, whatever comes back. *)
Definition acquisition (bearerToken : value) : list net_event :=
  [FingerprintLookups; SsoLoginRequest bearerToken].

(** The same for any argument: a bearer token that cannot be converted to a
    string never reaches the endpoint. *)
Definition attempt (bearerToken : value) : list net_event :=
  if unconvertible bearerToken then [FingerprintLookups]
  else acquisition bearerToken.

(** The claims [exp] and [iat] of a payload can be multiplied. *)
Definition claims_convertible (payload : value) : bool :=
  match get payload "exp", get payload "iat" with
  | Normal exp, Normal iat => negb (unconvertible exp) && negb (unconvertible iat)
  | _, _ => false
  end.

(** [new Date(tokenData.expiresAt)] throws. *)
Definition expiry_date_fails (tokenData : value) : bool :=
  match get tokenData "expiresAt" with
  | Normal expiresAt => unconvertible expiresAt
  | _ => false
  end.

(** [null] or an integer: what a JSON text keeps as it is. *)
Definition null_or_integer (v : value) : Prop := v = Null \/ exists n, v = Num n.

Definition exitProcess_TypeError : error :=
  TypeError "this.exitProcess is not a function".

Definition authorized (tokenData : value) : bool :=
  match get tokenData "hasGroupAccess", get tokenData "isNIEUser",
        get tokenData "isLDAPEnabled" with
  | Normal g, Normal n, Normal l => truthy g || truthy n || truthy l
  | _, _, _ => false
  end.

(** A state with nothing cached, nothing on disk and a silent network. *)
Definition fresh (now : Z) : State :=
  mkState Null Undefined Undefined false None false false now [] [].

(** The same with a cache file. *)
Definition with_file (text : string) (now : Z) : State :=
  mkState Null Undefined Undefined true (Some text) false false now [] [].

(** The same with a cache file that cannot be removed. *)
Definition with_undeletable_file (text : string) (now : Z) : State :=
  mkState Null Undefined Undefined true (Some text) false true now [] [].

End Vocabulary.

(** The text [Node.stringify] gives for an object. *)
Definition cache_text (v : value) : string :=
  match Node.stringify v with
  | Some text => text
  | None => EmptyString
  end.

(** ** Scenarios *)

(** Header [{}], payload [{}]. *)
Definition token_without_expiry : value := Str "e30.e30.x".

(** Header [{"alg":"HS256"}], payload [{"exp":1000}]. *)
Definition token_expiring_at_1000 : value :=
  Str "eyJhbGciOiJIUzI1NiJ9.eyJleHAiOjEwMDB9.sig".

Definition cached_record (jwt expiresAt : value) : value :=
  Obj [("jwt", jwt); ("expiresAt", expiresAt)]%string.

(** What the endpoint returns for an authorized user. *)
Definition granted_response : value :=
  Obj [("jwt", token_expiring_at_1000); ("isNIEUser", Bool true);
       ("isLDAPEnabled", Bool false); ("hasGroupAccess", Bool true);
       ("key", Str "k1")]%string.

(** [/a] answers 200 at once, [/b] answers 500 and then 200. *)
Definition two_sites (url : string) : site :=
  if String.eqb url "http://x/a" then fun _ => Status 200
  else fun k => match k with O => Status 500 | S _ => Status 200 end.



(** What the endpoint returns for a user without any access. *)
Definition denied_response : value :=
  Obj [("jwt", token_expiring_at_1000); ("isNIEUser", Bool false);
       ("isLDAPEnabled", Bool false); ("hasGroupAccess", Bool false);
       ("key", Str "k2")]%string.

(** A fresh state whose endpoint answers 200 with [body]. *)
Definition answering (body : value) (now : Z) : State :=
  mkState Null Undefined Undefined false None false false now
          [Reply 200 (cache_text body)] [].

Definition background_enabled : environment :=
  fun name =>
    if String.eqb name "N8N_DESKTOP_BACKGROUND_PROCESS_ENABLED" then Some "true"%string
    else None.

Definition background_disabled : environment := fun _ => None.

(* ================================================================== *)
(** * lmsIntegration.js: the accessors and the description of the host   *)
(* ================================================================== *)

(** [getJWTToken()]: [this.jwtToken || null] *)
Definition getJWTToken : M value :=
  fun st => (Normal (or_else (jwtToken st) Null), st).

(** [hasGroupAccess()]: [this.lastResponse?.hasGroupAccess || false] *)
Definition hasGroupAccess : M value :=
  fun st =>
    (bindC (get_opt (lastResponse st) "hasGroupAccess")
           (fun access => Normal (or_else access (Bool false))), st).

(** [s.startsWith(prefix)] *)
Fixpoint startsWith (s prefix : string) {struct prefix} : bool :=
  match prefix with
  | EmptyString => true
  | String p prefix' =>
      match s with
      | EmptyString => false
      | String c s' => Ascii.eqb c p && startsWith s' prefix'
      end
  end.

(** [s.slice(n)] *)
Fixpoint slice (n : nat) (s : string) : string :=
  match n, s with
  | O, _ => s
  | S n', String _ s' => slice n' s'
  | S _, EmptyString => EmptyString
  end.

(** [s.replace(pattern, replacement)] with a string for a pattern: the first
    occurrence only (the replacements of the program hold no [$]). *)
Fixpoint replace_first (pattern replacement s : string) : string :=
  if startsWith s pattern then (replacement ++ slice (String.length pattern) s)%string
  else
    match s with
    | EmptyString => EmptyString
    | String c rest => String c (replace_first pattern replacement rest)
    end.

(** A string without a dot: a segment of a token, a host name without its
    domain. *)
Fixpoint dotless (s : string) : bool :=
  match s with
  | EmptyString => true
  | String c rest => negb (Ascii.eqb c ".") && dotless rest
  end.

(** [v === s] for a string [s] *)
Definition is_string (v : value) (s : string) : bool :=
  match v with
  | Str t => String.eqb t s
  | _ => false
  end.

(** ToString as a template literal applies it to a substitution: a string,
    or [None] for the [TypeError] of an object that cannot be converted. *)
Class Conversions : Type := {
  ToString : value -> option string
}.

(** The methods of the class that describe the machine and the user to the
    SSO endpoint (the body of the request). *)
Module SystemInfo.

(** One entry of [os.networkInterfaces()]. *)
Record network : Type := mkNetwork {
  internal : bool;
  family : string;
  address : string
}.

(** What the operating system and the three look-up services answer to the
    calls the class makes; [None] is a call that throws (for a service:
    [fetch] or [response.json()] does). *)
Record Host : Type := mkHost {
  userInfo_username : option string;       (* [os.userInfo().username] *)
  hostname : option string;                (* [os.hostname()] *)
  os_platform : option string;             (* [os.platform()] *)
  networkInterfaces : option (list (string * list network));
  timeZone : option string;   (* [Intl.DateTimeFormat().resolvedOptions().timeZone] *)
  ipify : option value;                    (* https://api.ipify.org?format=json *)
  ip_api : option value;                   (* http://ip-api.com/json/ *)
  ipapi_co : option value                  (* https://ipapi.co/json/ *)
}.

Definition call {A} (answer : option A) : completion A :=
  match answer with
  | Some a => Normal a
  | None => Throw (Error "the call failed")
  end.

Section Methods.
Context {cv : Conversions}.
Variable host : Host.

Local Open Scope js_scope.
Local Open Scope string_scope.

Definition to_string (v : value) : completion string :=
  match ToString v with
  | Some s => Normal s
  | None => Throw (TypeError "Cannot convert object to primitive value")
  end.

Definition getUserEmail : completion value :=
  try_catch
    (username <- call (userInfo_username host) ;;
     Normal (Str username))
    (fun _ => Normal Null).

Definition getMachineId : completion value :=
  try_catch
    (name <- call (hostname host) ;;
     Normal (Str (replace_first ".uhc.com." EmptyString name)))
    (fun _ => Normal (Str "UNKNOWN")).

(** The two look-up tables are read with names the operating system gives
    (a platform, a time zone), none of which names a member of
    [Object.prototype]: a name outside the table gives [undefined]. *)
Definition osMap : value :=
  Obj [("darwin", Str "Mac"); ("win32", Str "Windows"); ("linux", Str "Linux");
       ("freebsd", Str "FreeBSD"); ("openbsd", Str "OpenBSD");
       ("sunos", Str "SunOS"); ("aix", Str "AIX")].

Definition getOperatingSystem : completion value :=
  try_catch
    (platform <- call (os_platform host) ;;
     osName <- get osMap platform ;;
     Normal (or_else osName (Str platform)))
    (fun _ => Normal (Str "Unknown")).

(** The inner loop of [getIPAddress], over the entries of one interface. *)
Fixpoint first_external (networkInterface : list network) : option string :=
  match networkInterface with
  | [] => None
  | network :: rest =>
      if negb (internal network) && String.eqb (family network) "IPv4"
      then Some (address network)
      else first_external rest
  end.

(** The outer loop, over the interfaces in the order [for ... in] visits
    them. *)
Fixpoint scan (networkInterfaces : list (string * list network)) : option string :=
  match networkInterfaces with
  | [] => None
  | (interfaceName, networkInterface) :: rest =>
      match first_external networkInterface with
      | Some found => Some found
      | None => scan rest
      end
  end.

Definition getIPAddress : completion value :=
  try_catch
    (interfaces <- call (networkInterfaces host) ;;
     match scan interfaces with
     | Some found => Normal (Str found)
     | None => Normal (Str "127.0.0.1")
     end)
    (fun _ => Normal (Str "126.0.0.0")).

Definition getPublicIPAddress : completion value :=
  try_catch
    (data <- call (ipify host) ;;
     get data "ip")
    (fun _ => getIPAddress).

Definition timezoneToLocation : value :=
  Obj [("Asia/Kolkata", Str "India"); ("Asia/Mumbai", Str "India");
       ("Asia/Delhi", Str "India"); ("America/New_York", Str "United States");
       ("America/Los_Angeles", Str "United States");
       ("America/Chicago", Str "United States");
       ("Europe/London", Str "United Kingdom"); ("Europe/Paris", Str "France");
       ("Europe/Berlin", Str "Germany"); ("Asia/Tokyo", Str "Japan");
       ("Asia/Shanghai", Str "China"); ("Australia/Sydney", Str "Australia")].

Definition getLocationFromTimezone : completion value :=
  try_catch
    (timezone <- call (timeZone host) ;;
     location <- get timezoneToLocation timezone ;;
     Normal (or_else location (Str "Unknown")))
    (fun _ => Normal (Str "Unknown")).

(** In the next two methods the [try] block returns a location ([Some]) or
    is left, normally or through its handler, for the statement after it
    ([None]). *)
Definition getFallbackLocation : completion value :=
  found <- try_catch
             (data <- call (ipapi_co host) ;;
              city <- get data "city" ;;
              both <- (if truthy city then get data "country_name" else Normal city) ;;
              if truthy both then
                city <- get data "city" ;;
                city' <- to_string city ;;
                country_name <- get data "country_name" ;;
                country_name' <- to_string country_name ;;
                Normal (Some (Str (city' ++ ", " ++ country_name')))
              else
                country_name <- get data "country_name" ;;
                if truthy country_name then Normal (Some country_name)
                else Normal None)
             (fun _ => Normal None) ;;
  match found with
  | Some location => Normal location
  | None => getLocationFromTimezone
  end.

Definition getUserLocation : completion value :=
  found <- try_catch
             (locationData <- call (ip_api host) ;;
              status <- get locationData "status" ;;
              if is_string status "success" then
                city <- get locationData "city" ;;
                city' <- to_string city ;;
                country <- get locationData "country" ;;
                country' <- to_string country ;;
                Normal (Some (Str (city' ++ ", " ++ country')))
              else
                country <- get locationData "country" ;;
                if truthy country then Normal (Some country)
                else Normal None)
             (fun _ => Normal None) ;;
  match found with
  | Some location => Normal location
  | None => getFallbackLocation
  end.

(** The object literal both branches of [getSystemInfoWithPublicIP] build;
    [appName] is [this.config.appName]. *)
Definition systemInfo (username machineNumber userLocation operatingSystem
                       ipAddress : value) : value :=
  Obj [("username", username); ("machineNumber", machineNumber);
       ("userLocation", userLocation); ("operatingSystem", operatingSystem);
       ("ipAddress", ipAddress); ("appName", Str "N8N");
       ("enableLoginPage", Bool false)].

Definition getSystemInfoWithPublicIP : completion value :=
  try_catch
    (publicIP <- getPublicIPAddress ;;
     userLocation <- getUserLocation ;;
     operatingSystem <- getOperatingSystem ;;
     username <- getUserEmail ;;
     machineNumber <- getMachineId ;;
     Normal (systemInfo username machineNumber userLocation operatingSystem publicIP))
    (fun _ =>
       username <- getUserEmail ;;
       machineNumber <- getMachineId ;;
       ipAddress <- getIPAddress ;;
       Normal (systemInfo username machineNumber (Str "India") (Str "Mac") ipAddress)).

End Methods.

(** The entries of all interfaces, in the order the two loops visit them. *)
Definition entries (networkInterfaces : list (string * list network)) : list network :=
  flat_map snd networkInterfaces.

Definition external_IPv4 (n : network) : bool :=
  negb (internal n) && String.eqb (family n) "IPv4".

End SystemInfo.

(* ================================================================== *)
(** * envVars.js                                                         *)
(* ================================================================== *)

Module EnvVars.

(** The part of the file system [setEnvVars] works on: the directory
    [~/.n8n], the directory [n8n-desktop-logs] and the file
    [n8n-desktop.env] in it. *)
Record Files : Type := mkFiles {
  dotN8nDir : bool;
  logsDirPath : bool;
  desktopEnvPath : option string;
  readOnly : bool                    (* creating and writing fail *)
}.

Record Process : Type := mkProcess {
  files : Files;
  env : environment                  (* [process.env] *)
}.

Definition IO (A : Type) : Type := Process -> completion A * Process.

Definition ret {A} (a : A) : IO A := fun p => (Normal a, p).

Definition bind {A B} (c : IO A) (k : A -> IO B) : IO B :=
  fun p =>
    match c p with
    | (Normal a, p') => k a p'
    | (Throw e, p') => (Throw e, p')
    | (Exit n, p') => (Exit n, p')
    end.

Declare Scope proc_scope.
Delimit Scope proc_scope with proc.
Notation "x <- c ;; k" := (bind c (fun x => k))
  (at level 61, c at next level, right associativity) : proc_scope.
Notation "c ;;; k" := (bind c (fun _ => k))
  (at level 61, right associativity) : proc_scope.

(** [process.env[name]] and [process.env[name] = value] *)
Definition getenv (name : string) : IO value :=
  fun p => (Normal (env_value (env p) name), p).

Definition setenv (name value : string) : IO unit :=
  fun p => (Normal tt,
            mkProcess (files p)
                      (fun k => if String.eqb k name then Some value else env p k)).

Definition existsSync_dotN8nDir : IO bool :=
  fun p => (Normal (dotN8nDir (files p)), p).

Definition existsSync_logsDirPath : IO bool :=
  fun p => (Normal (logsDirPath (files p)), p).

Definition existsSync_desktopEnvPath : IO bool :=
  fun p => (Normal (match desktopEnvPath (files p) with
                    | Some _ => true
                    | None => false
                    end), p).

Definition mkdir_dotN8nDir : IO unit :=
  fun p =>
    let f := files p in
    if readOnly f then (Throw (Error "EACCES: mkdir"), p)
    else (Normal tt,
          mkProcess (mkFiles true (logsDirPath f) (desktopEnvPath f) (readOnly f))
                    (env p)).

Definition mkdir_logsDirPath : IO unit :=
  fun p =>
    let f := files p in
    if readOnly f then (Throw (Error "EACCES: mkdir"), p)
    else (Normal tt,
          mkProcess (mkFiles (dotN8nDir f) true (desktopEnvPath f) (readOnly f))
                    (env p)).

Definition writeFile_desktopEnvPath (data : string) : IO unit :=
  fun p =>
    let f := files p in
    if readOnly f then (Throw (Error "EACCES: open"), p)
    else (Normal tt,
          mkProcess (mkFiles (dotN8nDir f) (logsDirPath f) (Some data) (readOnly f))
                    (env p)).

Definition readFile_desktopEnvPath : IO string :=
  fun p =>
    match desktopEnvPath (files p) with
    | Some text => (Normal text, p)
    | None => (Throw (Error "ENOENT: open"), p)
    end.

Definition newline : string := String Node.LF EmptyString.

(** [[a, b].join("\n")] *)
Definition join_lines (a b : string) : string := (a ++ newline ++ b)%string.

Definition default_LMS_BEARER_TOKEN : string :=
  "9040e52c42917e691e32afadeb36fa3b8b77c7519e9749215ff672c9d94c2eadc21d95e5d8929bdde12f1412056a5fdf63e6b10953480f896cbe9884be2b46029c0610b04557e796a1d942c9460544c92048f5ac6d006b8eff0efc3f005fb966847c0861156424801ec1ad4496708d12080aceb83865c2a33504cc0c6092df4125f4ae43944c5980ae2195f869dd31129a34b4d7b16a0dd0611668fcbe85ca021705083b395658b48b70812ad1".

Definition default_LMS_API_URL : string :=
  "http://lms-dev.service.aide-0091473.ap.ctc.development.mesh.uhg.com/api/lms-ssoLogin".

Section SetEnvVars.

(** The template [defaultEnv], the zone [moment.tz.guess()] names,
    [path.join(logsDirPath, _)], and what [dotenv.config] makes of the
    environment given the contents of the file. *)
Variable defaultEnv : string.
Variable guess : string.
Variable join_logsDirPath : string -> string.
Variable dotenv_config : option string -> environment -> environment.

Local Open Scope proc_scope.

Definition getDotN8nDir : IO unit :=
  present <- existsSync_dotN8nDir ;;
  if present then ret tt else mkdir_dotN8nDir.

Definition handleLoggingEnvVars : IO unit :=
  output <- getenv "N8N_LOG_OUTPUT" ;;
  location <- getenv "N8N_LOG_FILE_LOCATION" ;;
  match location with
  | Str location' =>
      if is_string output "file" && truthy location then
        present <- existsSync_logsDirPath ;;
        (if present then ret tt else mkdir_logsDirPath) ;;;
        setenv "N8N_LOG_FILE_LOCATION" (join_logsDirPath location')
      else ret tt
  | _ => ret tt
  end.

Definition getDesktopEnvPath : IO unit :=
  present <- existsSync_desktopEnvPath ;;
  if present then ret tt else writeFile_desktopEnvPath defaultEnv.

Definition containsGenericTimezoneEnvVar (envFileContent : string) : bool :=
  existsb (fun line => startsWith line "GENERIC_TIMEZONE=")
          (split_on Node.LF envFileContent).

Definition addGenericTimezoneEnvVar : IO unit :=
  envFileContent <- readFile_desktopEnvPath ;;
  if containsGenericTimezoneEnvVar envFileContent then ret tt
  else
    writeFile_desktopEnvPath
      (join_lines envFileContent ("GENERIC_TIMEZONE='" ++ guess ++ "'")).

Definition setEnvVars : IO unit :=
  getDotN8nDir ;;;
  handleLoggingEnvVars ;;;
  getDesktopEnvPath ;;;
  addGenericTimezoneEnvVar ;;;
  (fun p => (Normal tt,
             mkProcess (files p)
                       (dotenv_config (desktopEnvPath (files p)) (env p)))) ;;;
  token <- getenv "LMS_BEARER_TOKEN" ;;
  (if falsy token then setenv "LMS_BEARER_TOKEN" default_LMS_BEARER_TOKEN
   else ret tt) ;;;
  url <- getenv "LMS_API_URL" ;;
  (if falsy url then setenv "LMS_API_URL" default_LMS_API_URL else ret tt).

End SetEnvVars.

End EnvVars.

(** ** More scenarios *)

(** The JSON value [{"toString": 1}]: an object no coercion can convert. *)
Definition unconvertible_object : value := Obj [("toString", Num 1)]%string.

(** A record with a token that decodes and an [expiresAt] that cannot be
    compared with the clock. *)
Definition wedged_record : value :=
  cached_record token_without_expiry unconvertible_object.

(** Header [{}], payload [{"exp":{"toString":1}}]. *)
Definition token_with_unconvertible_expiry : value :=
  Str "e30.eyJleHAiOnsidG9TdHJpbmciOjF9fQ.x".

(** Header [{}], payload [{"exp":2^1020}], a double: a thousand times it is
    beyond the doubles. *)
Definition token_expiring_beyond_doubles : value :=
  Str "e30.eyJleHAiOjExMjM1NTgyMDkyODg5NDc0NDIzMzA4MTU3NDQyNDMxNDA0NTg1MTEyMzU2MTE4Mzg5NDE2MDc5NTg5MzgwMDcyMzU4MjkyMjM3ODQzODEwMTk1Nzk0Mjc5ODMyNjUwNDcxMDAxMzIwMDA3MTE3NDkxOTYyMDg0ODUzNjc0MzYwNTUwOTAxMDM4OTA1ODAyOTY0NDE0OTY3MTMyNzczNjEwNDkzMzM5MDU0MDkyODI5NzY4ODg4NzI1MDc3ODgwODgyNDY1ODE3Njg0NTA1MzEyODYwNTUyMzg0NDE3NjQ2NDAzOTMwMDkyMTE5NTY5NDA4ODAxNzAyMzIyNzA5NDA2OTE3Nzg2NjQzNjM5OTk2NzAyODcxMTU0OTgyMjY5MDUyMjA5NzcwNjAxNTE0MDA4NTc2fQ.x".

Definition overflowing_response : value :=
  Obj [("jwt", token_expiring_beyond_doubles); ("isNIEUser", Bool true);
       ("isLDAPEnabled", Bool false); ("hasGroupAccess", Bool true);
       ("key", Str "k4")]%string.

(** An environment with a bearer token and nothing else. *)
Definition with_bearer : environment :=
  fun name =>
    if String.eqb name "LMS_BEARER_TOKEN" then Some "secret"%string else None.

(** A record, as anybody can write it into the cache file: a token that
    says nothing, no expiry, one flag. *)
Definition trusted_record : value :=
  Obj [("jwt", token_without_expiry); ("hasGroupAccess", Bool true)]%string.

(** Header [null], payload [{}]. *)
Definition token_with_null_header : value := Str "bnVsbA.e30.x".

(** A host that knows its name and nothing else. *)
Definition workstation : SystemInfo.Host :=
  SystemInfo.mkHost None (Some "mac01.uhc.com."%string) None None None None None None.

(** A home directory before the first start, and one with an environment
    file. *)
Definition first_start : EnvVars.Process :=
  EnvVars.mkProcess (EnvVars.mkFiles false false None false) (fun _ => None).

Definition configured : EnvVars.Process :=
  EnvVars.mkProcess
    (EnvVars.mkFiles true false (Some "N8N_PORT=5678"%string) false)
    (fun _ => None).

(* ================================================================== *)
(** * Properties of the coercions                                        *)
(* ================================================================== *)

Section CoercionFacts.
Context {rt : Runtime}.

Lemma ToPrimitive_convertible v :
  unconvertible v = false -> exists p, ToPrimitive v = Normal p.
Proof. unfold ToPrimitive. intros ->. destruct v; eauto. Qed.

Lemma ToPrimitive_unconvertible v :
  unconvertible v = true -> ToPrimitive v = Throw cannot_convert.
Proof. unfold ToPrimitive. now intros ->. Qed.

Lemma ToNumber_convertible v :
  unconvertible v = false -> exists n, ToNumber v = Normal n.
Proof.
  intros H. unfold ToNumber. destruct (ToPrimitive_convertible v H) as [p ->].
  simpl. eauto.
Qed.

Lemma ToNumber_unconvertible v :
  unconvertible v = true -> ToNumber v = Throw cannot_convert.
Proof. intros H. unfold ToNumber. now rewrite (ToPrimitive_unconvertible v H). Qed.

(** ToNumber returns a number or throws the [TypeError] of ToPrimitive. *)
Lemma ToNumber_cases v :
  (unconvertible v = false /\ exists n, ToNumber v = Normal n) \/
  (unconvertible v = true /\ ToNumber v = Throw cannot_convert).
Proof.
  destruct (unconvertible v) eqn:H.
  - right. split; [reflexivity|now apply ToNumber_unconvertible].
  - left. split; [reflexivity|now apply ToNumber_convertible].
Qed.

Lemma ToNumber_of_number n : ToNumber (of_number n) = Normal n.
Proof. destruct n; reflexivity. Qed.

Lemma unconvertible_of_number n : unconvertible (of_number n) = false.
Proof. destruct n; reflexivity. Qed.

(** A comparison with a number on the left, an operation with one on the
    right: only the other operand is converted. *)
Lemma ge_Num now x :
  ge (Num now) x = bindC (ToNumber x) (fun y => Normal (geb (Finite now) y)).
Proof. reflexivity. Qed.

Lemma lt_Num x now :
  lt x (Num now) = bindC (ToNumber x) (fun y => Normal (ltb y (Finite now))).
Proof. reflexivity. Qed.

Lemma sub_Num x n :
  sub x (Num n) =
  bindC (ToNumber x) (fun y => Normal (of_number (minus y (Finite n)))).
Proof. reflexivity. Qed.

Lemma mul_Num x n :
  mul x (Num n) =
  bindC (ToNumber x) (fun y => Normal (of_number (times y (Finite n)))).
Proof. reflexivity. Qed.

Lemma mul_unconvertible x n :
  unconvertible x = true -> mul x (Num n) = Throw cannot_convert.
Proof. intros H. now rewrite mul_Num, (ToNumber_unconvertible x H). Qed.

Lemma mul_convertible x n :
  unconvertible x = false ->
  exists m, mul x (Num n) = Normal (of_number m).
Proof.
  intros H. rewrite mul_Num. destruct (ToNumber_convertible x H) as [y ->].
  simpl. eauto.
Qed.

(** Below [2^53] in size, a product of integers is exact. *)
Lemma round_exact z : Z.abs z < 2 ^ 53 -> round z = Finite z.
Proof.
  intros H. unfold round. cbv zeta.
  destruct (Z.ltb_spec (Z.abs z) (2 ^ 53)) as [_|Hge]; [reflexivity|lia].
Qed.

Lemma mul_exact m n :
  Z.abs (m * n) < 2 ^ 53 -> mul (Num m) (Num n) = Normal (Num (m * n)).
Proof.
  intros H. unfold mul. simpl. now rewrite (round_exact _ H).
Qed.

Lemma new_Date_convertible v :
  unconvertible v = false -> new_Date v = Normal (Date v).
Proof.
  intros H. unfold new_Date. now destruct (ToPrimitive_convertible v H) as [p ->].
Qed.

Lemma new_Date_unconvertible v :
  unconvertible v = true -> new_Date v = Throw cannot_convert.
Proof. intros H. unfold new_Date. now rewrite (ToPrimitive_unconvertible v H). Qed.

Lemma new_Date_of_number n : new_Date (of_number n) = Normal (Date (of_number n)).
Proof. apply new_Date_convertible, unconvertible_of_number. Qed.

(** A value that cannot be converted is an object or an array: it is truthy. *)
Lemma unconvertible_truthy v : unconvertible v = true -> truthy v = true.
Proof. destruct v; simpl; intros H; try discriminate H; reflexivity. Qed.

End CoercionFacts.

(* ================================================================== *)
(** * Properties of the credential decoder                               *)
(* ================================================================== *)

Section DecoderFacts.
Context {rt : Runtime}.

Lemma decodes_truthy token h p sig : decodes_to token h p sig -> truthy token = true.
Proof.
  intros (s & p0 & p1 & -> & Hs & _).
  destruct s; [discriminate Hs | reflexivity].
Qed.

Lemma decodeJWT_valid token h p sig :
  decodes_to token h p sig -> decodeJWT token = Normal (decoded_object h p sig).
Proof.
  intros H. pose proof (decodes_truthy _ _ _ _ H) as Ht.
  destruct H as (s & p0 & p1 & -> & Hs & Hh & Hp).
  unfold decodeJWT, falsy. rewrite Ht. simpl.
  rewrite Hs. unfold parse_json. rewrite Hh. simpl. rewrite Hp. reflexivity.
Qed.

(** Whatever the argument, the call returns, and it returns [null] or the
    decoded object of a structurally valid token. *)
Lemma decodeJWT_cases token :
  decodeJWT token = Normal Null \/
  exists h p sig, decodes_to token h p sig /\
                  decodeJWT token = Normal (decoded_object h p sig).
Proof.
  unfold decodeJWT, falsy.
  destruct (truthy token) eqn:Ht; simpl; [|now left].
  destruct token as [| |b|n| |i|s|vs|ps]; simpl; try now left.
  destruct (split_on dot s) as [|p0 [|p1 [|p2 [|p3 rest]]]] eqn:Hs; simpl;
    try now left.
  unfold parse_json.
  destruct (JSON_parse (base64UrlDecode p0)) as [h|] eqn:Hh; simpl; [|now left].
  destruct (JSON_parse (base64UrlDecode p1)) as [p|] eqn:Hp; simpl; [|now left].
  right. exists h, p, p2. split; [|reflexivity].
  exists s, p0, p1. auto.
Qed.

Lemma decodeJWT_invalid token : ~ decodes token -> decodeJWT token = Normal Null.
Proof.
  intros Hn. destruct (decodeJWT_cases token) as [H|(h & p & sig & Hd & _)]; [exact H|].
  exfalso. apply Hn. exists h, p, sig. exact Hd.
Qed.

Lemma decodeJWT_truthy_iff token :
  decodes token <-> exists d, decodeJWT token = Normal d /\ truthy d = true.
Proof.
  split.
  - intros (h & p & sig & Hd). exists (decoded_object h p sig).
    split; [now apply decodeJWT_valid | reflexivity].
  - intros (d & Hd & Ht).
    destruct (decodeJWT_cases token) as [H|(h & p & sig & Hv & _)].
    + rewrite H in Hd. injection Hd as <-. discriminate Ht.
    + exists h, p, sig. exact Hv.
Qed.

(** C7. For every argument, a string or not, empty or absent, [decodeJWT]
    returns and never throws; it returns [null] whenever the argument is not a
    string that splits on [.] into exactly three segments, and whenever one
    of the first two segments, base64url-decoded, fails to parse; otherwise it
    returns the object of the parsed header, the parsed payload and the third
    segment. *)
Theorem decodeJWT_contract (token : value) :
  (exists v, decodeJWT token = Normal v) /\
  (falsy token = true -> decodeJWT token = Normal Null) /\
  ((forall s, token <> Str s) -> decodeJWT token = Normal Null) /\
  (forall s, token = Str s -> List.length (split_on dot s) <> 3%nat ->
             decodeJWT token = Normal Null) /\
  (forall s p0 p1 p2,
      token = Str s -> split_on dot s = [p0; p1; p2] ->
      JSON_parse (base64UrlDecode p0) = None \/
      JSON_parse (base64UrlDecode p1) = None ->
      decodeJWT token = Normal Null) /\
  (forall s p0 p1 p2 header payload,
      token = Str s -> split_on dot s = [p0; p1; p2] ->
      JSON_parse (base64UrlDecode p0) = Some header ->
      JSON_parse (base64UrlDecode p1) = Some payload ->
      decodeJWT token = Normal (decoded_object header payload p2)).
Proof.
  repeat split.
  - destruct (decodeJWT_cases token) as [H|(h & p & sig & _ & H)]; eauto.
  - intros Hf. apply decodeJWT_invalid. intros (h & p & sig & Hd).
    apply decodes_truthy in Hd. unfold falsy in Hf. rewrite Hd in Hf. discriminate.
  - intros Hns. apply decodeJWT_invalid.
    intros (h & p & sig & s & p0 & p1 & -> & _). now apply (Hns s).
  - intros s -> Hlen. apply decodeJWT_invalid.
    intros (h & p & sig & s' & p0 & p1 & Heq & Hs & _).
    injection Heq as <-. rewrite Hs in Hlen. now apply Hlen.
  - intros s p0 p1 p2 -> Hs Hfail. apply decodeJWT_invalid.
    intros (h & p & sig & s' & q0 & q1 & Heq & Hs' & Hh & Hp).
    injection Heq as <-. rewrite Hs in Hs'. injection Hs' as <- <- <-.
    destruct Hfail as [Hf|Hf]; congruence.
  - intros s p0 p1 p2 h p -> Hs Hh Hp. apply decodeJWT_valid.
    exists s, p0, p1. auto.
Qed.

End DecoderFacts.

(* ================================================================== *)
(** * Properties of the token validity policy                            *)
(* ================================================================== *)

Section ValidityFacts.
Context {rt : Runtime}.

Lemma get_cases o k :
  (exists v, get o k = Normal v) \/ (exists e, get o k = Throw e).
Proof. destruct o; simpl; eauto. Qed.

Lemma get_truthy_is_object o k v :
  get o k = Normal v -> truthy v = true -> truthy o = true.
Proof.
  destruct o; simpl; intros H Ht; try reflexivity;
    try discriminate H; injection H as <-; discriminate Ht.
Qed.

(** Each expiry test gives a boolean, or throws when [expiresAt] cannot be
    converted. *)
Lemma expired_at_cases now x :
  (exists b, expired_at now x = Normal b) \/
  (unconvertible x = true /\ expired_at now x = Throw cannot_convert).
Proof.
  unfold expired_at. destruct (truthy x); [|left; eauto].
  rewrite ge_Num. destruct (ToNumber_cases x) as [[_ [n ->]]|[Hu ->]]; simpl; eauto.
Qed.

Lemma expires_soon_at_cases now x :
  (exists b, expires_soon_at now x = Normal b) \/
  (unconvertible x = true /\ expires_soon_at now x = Throw cannot_convert).
Proof.
  unfold expires_soon_at. destruct (truthy x); [|left; eauto].
  rewrite sub_Num. destruct (ToNumber_cases x) as [[_ [n ->]]|[Hu ->]]; simpl.
  - rewrite ge_Num, ToNumber_of_number. simpl. eauto.
  - right. auto.
Qed.

Lemma expired_at_convertible now x :
  unconvertible x = false -> exists b, expired_at now x = Normal b.
Proof.
  intros H. destruct (expired_at_cases now x) as [Hb|[Hu _]]; [exact Hb|congruence].
Qed.

Lemma expires_soon_at_convertible now x :
  unconvertible x = false -> exists b, expires_soon_at now x = Normal b.
Proof.
  intros H. destruct (expires_soon_at_cases now x) as [Hb|[Hu _]];
    [exact Hb|congruence].
Qed.

Lemma expired_at_unconvertible now x :
  unconvertible x = true -> expired_at now x = Throw cannot_convert.
Proof.
  intros H. unfold expired_at. rewrite (unconvertible_truthy x H), ge_Num.
  now rewrite (ToNumber_unconvertible x H).
Qed.

Lemma policy_cases now jwt x :
  (exists b, policy now jwt x = Normal b) \/
  (unconvertible x = true /\ policy now jwt x = Throw cannot_convert).
Proof.
  unfold policy.
  destruct (expired_at_cases now x) as [[b ->]|[Hu ->]]; [|right; auto].
  simpl. destruct b; [left; eauto|].
  destruct (expires_soon_at_cases now x) as [[b ->]|[Hu ->]]; [|right; auto].
  simpl. destruct b; left; eauto.
Qed.

(** The policy on a record that has a token. *)
Lemma isCachedTokenValid_unfold cachedToken st jwt x :
  get cachedToken "jwt" = Normal jwt ->
  truthy jwt = true ->
  get cachedToken "expiresAt" = Normal x ->
  isCachedTokenValid cachedToken st = (policy (clock st) jwt x, st).
Proof.
  intros Hj Ht Hx.
  unfold isCachedTokenValid, falsy.
  rewrite (get_truthy_is_object _ _ _ Hj Ht). simpl.
  unfold bind, lift, ret, Date_now. rewrite Hj, Ht. simpl. rewrite Hx.
  unfold policy, expired_at, expires_soon_at.
  destruct (truthy x); simpl.
  - destruct (ge (Num (clock st)) x) as [[]|e|n]; simpl; try reflexivity.
    destruct (sub x (Num bufferTime)) as [limit|e|n]; simpl; try reflexivity.
    destruct (ge (Num (clock st)) limit) as [[]|e|n]; simpl; try reflexivity.
    destruct (decodeJWT_cases jwt) as [->|(h & p & sig & _ & ->)]; reflexivity.
  - destruct (decodeJWT_cases jwt) as [->|(h & p & sig & _ & ->)]; reflexivity.
Qed.

(** Without a token the policy says no, whatever [expiresAt] is. *)
Lemma isCachedTokenValid_no_token cachedToken st :
  (truthy cachedToken = false \/
   exists jwt, get cachedToken "jwt" = Normal jwt /\ truthy jwt = false) ->
  isCachedTokenValid cachedToken st = (Normal false, st).
Proof.
  unfold isCachedTokenValid, falsy. intros [Hc|(jwt & Hj & Ht)].
  - now rewrite Hc.
  - destruct (truthy cachedToken); [|reflexivity]. simpl.
    unfold bind, lift, ret. now rewrite Hj, Ht.
Qed.

(** The policy returns a boolean or throws the [TypeError] of an
    [expiresAt] that cannot be converted; it changes nothing. *)
Lemma isCachedTokenValid_outcome cachedToken st :
  (exists b, isCachedTokenValid cachedToken st = (Normal b, st)) \/
  (isCachedTokenValid cachedToken st = (Throw cannot_convert, st) /\
   exists jwt x,
     get cachedToken "jwt" = Normal jwt /\ truthy jwt = true /\
     get cachedToken "expiresAt" = Normal x /\ unconvertible x = true).
Proof.
  destruct (truthy cachedToken) eqn:Hc.
  - assert (Hg : forall k, exists v, get cachedToken k = Normal v).
    { intros k. destruct cachedToken; simpl in *; try discriminate Hc; eauto. }
    destruct (Hg "jwt"%string) as [jwt Hj]. destruct (Hg "expiresAt"%string) as [x Hx].
    destruct (truthy jwt) eqn:Ht.
    + rewrite (isCachedTokenValid_unfold _ st _ _ Hj Ht Hx).
      destruct (policy_cases (clock st) jwt x) as [[b ->]|[Hu ->]]; [left; eauto|].
      right. split; [reflexivity|]. exists jwt, x. auto.
    + left. exists false. apply isCachedTokenValid_no_token. right. eauto.
  - left. exists false. apply isCachedTokenValid_no_token. now left.
Qed.

Lemma isCachedTokenValid_reads cachedToken st :
  exists r, isCachedTokenValid cachedToken st = (r, st) /\ no_exit r.
Proof.
  destruct (isCachedTokenValid_outcome cachedToken st) as [[b ->]|[-> _]];
    eexists; split; try reflexivity; exact I.
Qed.

(** With an [expiresAt] that can be converted it returns. *)
Lemma isCachedTokenValid_returns cachedToken st x :
  get cachedToken "expiresAt" = Normal x -> unconvertible x = false ->
  exists b, isCachedTokenValid cachedToken st = (Normal b, st).
Proof.
  intros Hx Hu.
  destruct (isCachedTokenValid_outcome cachedToken st)
    as [Hb|[_ (jwt & x' & _ & _ & Hx' & Hu')]]; [exact Hb|].
  rewrite Hx in Hx'. injection Hx' as <-. congruence.
Qed.

Lemma decodes_decodeJWT_truthy jwt :
  decodes jwt ->
  match decodeJWT jwt with Normal d => truthy d | _ => false end = true.
Proof.
  intros (h & p & sig & Hd). now rewrite (decodeJWT_valid _ _ _ _ Hd).
Qed.

(** C2, as the code has it.  For every cached record with a token and a
    numeric [expiresAt] and every current time: when [expiresAt] is not 0
    and [now >= expiresAt - 300000], [isCachedTokenValid] returns false (the
    boundary included, the buffer being exactly 300000 ms); when
    [expiresAt] is more than 300000 ms after now and the token decodes
    structurally, it returns true.  An [expiresAt] of 0 counts as not set. *)
Theorem isCachedTokenValid_buffer (cachedToken jwt : value) (expiresAt : Z) (st : State) :
  get cachedToken "jwt" = Normal jwt ->
  truthy jwt = true ->
  get cachedToken "expiresAt" = Normal (Num expiresAt) ->
  bufferTime = 300000 /\
  (expiresAt <> 0 -> clock st >= expiresAt - 300000 ->
   isCachedTokenValid cachedToken st = (Normal false, st)) /\
  (clock st < expiresAt - 300000 -> decodes jwt ->
   isCachedTokenValid cachedToken st = (Normal true, st)).
Proof.
  intros Hj Ht Hx. split; [reflexivity|].
  rewrite (isCachedTokenValid_unfold _ st _ _ Hj Ht Hx).
  unfold policy, expired_at, expires_soon_at, ge, sub, bufferTime. simpl.
  split.
  - intros Hnz Hnow.
    destruct (Z.eqb_spec expiresAt 0) as [|_]; [contradiction|]. simpl.
    destruct (Z.leb_spec expiresAt (clock st)); simpl; [reflexivity|].
    destruct (Z.leb_spec (expiresAt - 300000) (clock st)); simpl; [reflexivity|lia].
  - intros Hnow Hd. rewrite (decodes_decodeJWT_truthy _ Hd).
    destruct (expiresAt =? 0); simpl; [reflexivity|].
    destruct (Z.leb_spec expiresAt (clock st)); [lia|]. simpl.
    destruct (Z.leb_spec (expiresAt - 300000) (clock st)); [lia|]. reflexivity.
Qed.

(** A record without a usable [expiresAt] and with a token that decodes
    is valid whatever the time. *)
Lemma isCachedTokenValid_unset_expiry cachedToken jwt x st :
  get cachedToken "jwt" = Normal jwt ->
  get cachedToken "expiresAt" = Normal x ->
  truthy x = false ->
  decodes jwt ->
  isCachedTokenValid cachedToken st = (Normal true, st).
Proof.
  intros Hj Hx Hf Hd.
  assert (Ht : truthy jwt = true).
  { destruct Hd as (h & p & sig & Hd). exact (decodes_truthy _ _ _ _ Hd). }
  rewrite (isCachedTokenValid_unfold _ st _ _ Hj Ht Hx).
  unfold policy, expired_at, expires_soon_at.
  rewrite Hf. simpl. now rewrite (decodes_decodeJWT_truthy _ Hd).
Qed.

(** [getTokenExpiration] never throws. *)
Lemma getTokenExpiration_returns jwt :
  exists v, getTokenExpiration jwt = Normal v.
Proof.
  unfold getTokenExpiration.
  destruct (decodeJWT_cases jwt) as [->|(h & p & sig & _ & ->)]; simpl; eauto.
  destruct (get_cases p "exp") as [[x ->]|[e ->]]; simpl; eauto.
  destruct (truthy x); simpl; eauto.
  rewrite mul_Num. destruct (ToNumber_cases x) as [[_ [n ->]]|[_ ->]]; simpl; eauto.
Qed.

Lemma getTokenExpiration_valid jwt h p sig :
  decodes_to jwt h p sig ->
  getTokenExpiration jwt =
  Normal (match get p "exp" with
          | Normal x => if truthy x then expiration_of x else Null
          | _ => Null
          end).
Proof.
  intros Hd. unfold getTokenExpiration. rewrite (decodeJWT_valid _ _ _ _ Hd). simpl.
  destruct (get_cases p "exp") as [[x ->]|[e ->]]; simpl; try reflexivity.
  destruct (truthy x); [|reflexivity].
  unfold expiration_of. rewrite mul_Num.
  destruct (ToNumber_cases x) as [[_ [n ->]]|[_ ->]]; reflexivity.
Qed.

Lemma getTokenExpiration_invalid jwt :
  ~ decodes jwt -> getTokenExpiration jwt = Normal Null.
Proof.
  intros Hn. unfold getTokenExpiration. now rewrite (decodeJWT_invalid _ Hn).
Qed.

(** The handler turns a claim that cannot be converted into [null]. *)
Lemma expiration_of_unconvertible x :
  unconvertible x = true -> expiration_of x = Null.
Proof. intros H. unfold expiration_of. now rewrite (mul_unconvertible x 1000 H). Qed.

Lemma expiration_of_convertible x :
  unconvertible x = false -> mul x (Num 1000) = Normal (expiration_of x).
Proof.
  intros H. unfold expiration_of.
  now destruct (mul_convertible x 1000 H) as [m ->].
Qed.

(** [isJWTExpired] never throws and changes nothing. *)
Lemma isJWTExpired_valid token h p sig st :
  decodes_to token h p sig ->
  isJWTExpired token st =
  (Normal (match get p "exp" with
           | Normal x => if truthy x then expired_claim x (clock st) else true
           | _ => true
           end), st).
Proof.
  intros Hd. unfold isJWTExpired, try_catchM, bind, lift, ret, Date_now, falsy.
  rewrite (decodeJWT_valid _ _ _ _ Hd). simpl.
  destruct (get_cases p "exp") as [[x ->]|[e ->]]; simpl; try reflexivity.
  destruct (truthy x); [|reflexivity]. simpl.
  unfold expired_claim. rewrite lt_Num.
  destruct (ToNumber_cases x) as [[_ [n ->]]|[_ ->]]; reflexivity.
Qed.

Lemma isJWTExpired_invalid token st :
  ~ decodes token -> isJWTExpired token st = (Normal true, st).
Proof.
  intros Hn. unfold isJWTExpired, try_catchM, bind, lift.
  now rewrite (decodeJWT_invalid _ Hn).
Qed.

Lemma isJWTExpired_returns token st :
  exists b, isJWTExpired token st = (Normal b, st).
Proof.
  destruct (decodeJWT_cases token) as [Hnull|(h & p & sig & Hd & _)].
  - exists true. unfold isJWTExpired, try_catchM, bind, lift. now rewrite Hnull.
  - rewrite (isJWTExpired_valid _ _ _ _ st Hd). eauto.
Qed.

Lemma expired_claim_unconvertible x now :
  unconvertible x = true -> expired_claim x now = true.
Proof.
  intros H. unfold expired_claim. now rewrite lt_Num, (ToNumber_unconvertible x H).
Qed.

(** The parts of the expiry check that hold: a token that does not decode,
    a payload without an expiry claim, and an expiry before the current
    second, are all reported expired. *)
Lemma isJWTExpired_true token st :
  (~ decodes token -> isJWTExpired token st = (Normal true, st)) /\
  (forall h p sig x,
      decodes_to token h p sig -> get p "exp" = Normal x -> truthy x = false ->
      isJWTExpired token st = (Normal true, st)) /\
  (forall h p sig e,
      decodes_to token h p sig -> get p "exp" = Normal (Num e) ->
      e < clock st / 1000 ->
      isJWTExpired token st = (Normal true, st)).
Proof.
  split; [apply isJWTExpired_invalid|]. split.
  - intros h p sig x Hd Hx Hf. rewrite (isJWTExpired_valid _ _ _ _ st Hd), Hx, Hf.
    reflexivity.
  - intros h p sig e Hd Hx He. rewrite (isJWTExpired_valid _ _ _ _ st Hd), Hx.
    simpl. destruct (e =? 0); simpl; [reflexivity|].
    unfold expired_claim, lt. simpl.
    destruct (Z.ltb_spec e (clock st / 1000)); [reflexivity|lia].
Qed.

(** At the second of expiry the comparison [exp < currentTime] is false. *)
Lemma isJWTExpired_at_expiry token h p sig e st :
  decodes_to token h p sig -> get p "exp" = Normal (Num e) -> e <> 0 ->
  clock st / 1000 = e ->
  isJWTExpired token st = (Normal false, st).
Proof.
  intros Hd Hx Hnz He. rewrite (isJWTExpired_valid _ _ _ _ st Hd), Hx. simpl.
  destruct (Z.eqb_spec e 0); [contradiction|]. simpl.
  unfold expired_claim, lt. simpl. rewrite He, Z.ltb_irrefl. reflexivity.
Qed.

(** C10. For every cached record whose [expiresAt] is [null] or absent and
    whose token decodes structurally, [isCachedTokenValid] returns true at
    every current time; such a record is what [getTokenExpiration] yields for
    a token whose payload has no expiry claim, and [isJWTExpired] reports that
    same token as expired. *)
Theorem unset_expiry_never_expires (cachedToken jwt expiresAt : value) :
  get cachedToken "jwt" = Normal jwt ->
  get cachedToken "expiresAt" = Normal expiresAt ->
  expiresAt = Null \/ expiresAt = Undefined ->
  decodes jwt ->
  (forall st, isCachedTokenValid cachedToken st = (Normal true, st)) /\
  (forall header payload signature,
      decodes_to jwt header payload signature ->
      get payload "exp" = Normal Undefined ->
      getTokenExpiration jwt = Normal Null /\
      forall st, isJWTExpired jwt st = (Normal true, st)).
Proof.
  intros Hj Hx Hnull Hd. split.
  - intros st. apply (isCachedTokenValid_unset_expiry _ _ _ st Hj Hx); [|exact Hd].
    destruct Hnull as [->| ->]; reflexivity.
  - intros h p sig Hdt Hexp. split.
    + now rewrite (getTokenExpiration_valid _ _ _ _ Hdt), Hexp.
    + intros st. now rewrite (isJWTExpired_valid _ _ _ _ st Hdt), Hexp.
Qed.

End ValidityFacts.

(* ================================================================== *)
(** * Properties of the token cache store                                *)
(* ================================================================== *)

Section StoreFacts.
Context {rt : Runtime}.

(** [clear()] never fails its caller: when the file cannot be removed its
    handler leaves everything as it was. *)
Lemma clearTokenCache_run st :
  clearTokenCache st =
  (Normal tt,
   match cacheFile st with
   | Some _ =>
       if unlinkDenied st then st
       else with_cachedToken Null (with_disk (cacheDir st) None st)
   | None => with_cachedToken Null st
   end).
Proof.
  unfold clearTokenCache, try_catchM, bind, existsSync_cacheFile,
    unlinkSync_cacheFile, set_cachedToken, ret.
  destruct (cacheFile st) eqn:Hf; simpl; rewrite ?Hf; [|reflexivity].
  destruct (unlinkDenied st); reflexivity.
Qed.

Lemma clearTokenCache_removes st :
  unlinkDenied st = false \/ cacheFile st = None ->
  exists st', clearTokenCache st = (Normal tt, st') /\
              cacheFile st' = None /\ cachedToken st' = Null /\
              traffic st' = traffic st /\ endpoint st' = endpoint st /\
              clock st' = clock st /\ diskFull st' = diskFull st /\
              unlinkDenied st' = unlinkDenied st.
Proof.
  intros H. rewrite clearTokenCache_run.
  destruct (cacheFile st) as [text|] eqn:Hf.
  - destruct H as [H|H]; [|discriminate H]. rewrite H.
    eexists. split; [reflexivity|]. simpl. auto 10.
  - eexists. split; [reflexivity|]. simpl. auto 10.
Qed.

(** What [load()] does, by the state of the cache file. *)
Lemma loadTokenFromCache_run st :
  match cacheFile st with
  | None => loadTokenFromCache st = (Normal Null, st)
  | Some text =>
      match JSON_parse text with
      | Some cacheData =>
          loadTokenFromCache st = (Normal cacheData, with_cachedToken cacheData st)
      | None =>
          loadTokenFromCache st =
          (Normal Null,
           if unlinkDenied st then st
           else with_cachedToken Null (with_disk (cacheDir st) None st))
      end
  end.
Proof.
  unfold loadTokenFromCache, try_catchM, bind, existsSync_cacheFile,
    readFileSync_cacheFile, lift, parse_json, set_cachedToken, ret.
  destruct (cacheFile st) as [text|] eqn:Hf; simpl; rewrite ?Hf; [|reflexivity].
  destruct (JSON_parse text) as [v|] eqn:Hp; simpl; rewrite ?Hp; [reflexivity|].
  fold (bind (A := unit) (B := value) clearTokenCache (fun _ => ret Null)).
  unfold bind. rewrite clearTokenCache_run, Hf. reflexivity.
Qed.

(** [load()] returns whatever the file holds, and leaves the network alone. *)
Lemma loadTokenFromCache_returns st :
  exists v st', loadTokenFromCache st = (Normal v, st') /\
                traffic st' = traffic st /\ endpoint st' = endpoint st /\
                clock st' = clock st /\ diskFull st' = diskFull st.
Proof.
  pose proof (loadTokenFromCache_run st) as H.
  destruct (cacheFile st) as [text|]; [destruct (JSON_parse text)|];
    rewrite H; do 2 eexists; (split; [reflexivity|]);
    try destruct (unlinkDenied st); simpl; auto.
Qed.

(** C4, as the code has it.  For every state of the cache file: when the
    file exists and its contents fail to parse, one call of
    [loadTokenFromCache] returns [null] and removes the file, unless the
    file system refuses the removal: then [clearTokenCache] catches the
    exception of [unlinkSync], and the file and the record in memory stay as
    they were.  Whatever the file holds the call returns: no exception
    reaches the caller. *)
Theorem loadTokenFromCache_self_heals (st : State) :
  (forall text,
      cacheFile st = Some text -> JSON_parse text = None ->
      exists st', loadTokenFromCache st = (Normal Null, st') /\
                  cacheFile st' = (if unlinkDenied st then Some text else None) /\
                  cachedToken st' = (if unlinkDenied st then cachedToken st else Null)) /\
  (exists v st', loadTokenFromCache st = (Normal v, st')).
Proof.
  split.
  - intros text Hf Hp. pose proof (loadTokenFromCache_run st) as H.
    rewrite Hf, Hp in H. rewrite H. eexists. split; [reflexivity|].
    destruct (unlinkDenied st); simpl; auto.
  - destruct (loadTokenFromCache_returns st) as (v & st' & H & _). eauto.
Qed.

End StoreFacts.

(* ================================================================== *)
(** * Properties of the access gate                                      *)
(* ================================================================== *)

Section GateFacts.
Context {rt : Runtime}.

Ltac unfold_io :=
  unfold bind, ret, lift, throw, try_catchM, Date_now, set_cachedToken,
    set_jwtToken, set_lastResponse.

Ltac case_get o k :=
  let v := fresh "v" in
  let e := fresh "e" in
  destruct (get_cases o k) as [[v ->]|[e ->]]; simpl.

Lemma get_opt_total o k : exists v, get_opt o k = Normal v.
Proof. destruct o; simpl; eauto. Qed.

(** The date of a claim is built, or the product throws. *)
Lemma date_of_claim_cases x :
  (unconvertible x = false /\ exists d, date_of_claim x = Normal d) \/
  (unconvertible x = true /\ date_of_claim x = Throw cannot_convert).
Proof.
  unfold date_of_claim. destruct (truthy x) eqn:Ht.
  - rewrite mul_Num. destruct (ToNumber_cases x) as [[Hu [n ->]]|[Hu ->]]; simpl.
    + rewrite new_Date_of_number. simpl. left. eauto.
    + right. auto.
  - left. split; [|eauto]. destruct (unconvertible x) eqn:Hu; [|reflexivity].
    rewrite (unconvertible_truthy x Hu) in Ht. discriminate.
Qed.

Lemma info_of_no_exit h p b : no_exit (info_of h p b).
Proof.
  unfold info_of.
  case_get p "exp"%string; [|exact I].
  destruct (date_of_claim_cases v) as [[_ [d ->]]|[_ ->]]; simpl; [|exact I].
  case_get p "iat"%string; [|exact I].
  destruct (date_of_claim_cases v0) as [[_ [d' ->]]|[_ ->]]; simpl; [|exact I].
  case_get p "username"%string; [|exact I].
  destruct (truthy v1); simpl.
  - case_get h "alg"%string; exact I.
  - case_get p "body"%string; [|exact I].
    destruct (get_opt_total v2 "username") as [u ->]. simpl.
    case_get h "alg"%string; exact I.
Qed.

(** [getJWTInfo] on the token it works on, [token || this.jwtToken], when
    that decodes. *)
Lemma getJWTInfo_effective token st h p sig :
  decodes_to (or_else (match token with Undefined => Null | t => t end)
                      (jwtToken st)) h p sig ->
  getJWTInfo token st =
  (match isJWTExpired (or_else (match token with Undefined => Null | t => t end)
                               (jwtToken st)) st with
   | (Normal isExpired, _) => info_of h p isExpired
   | (_, _) => Normal None
   end, st).
Proof.
  set (t := or_else (match token with Undefined => Null | t => t end) (jwtToken st)).
  intros Hd. pose proof (decodes_truthy _ _ _ _ Hd) as Ht.
  unfold getJWTInfo. unfold_io. fold t. unfold falsy. rewrite Ht. simpl.
  rewrite (decodeJWT_valid _ _ _ _ Hd). simpl.
  destruct (isJWTExpired_returns t st) as [b ->].
  unfold info_of, date_of_claim.
  case_get p "exp"%string; [|reflexivity].
  destruct (truthy v); simpl.
  - destruct (mul v (Num 1000)) as [m|e|n]; simpl; try reflexivity.
    destruct (new_Date m) as [d|e|n]; simpl; try reflexivity.
    case_get p "iat"%string; [|reflexivity].
    destruct (truthy v0); simpl.
    + destruct (mul v0 (Num 1000)) as [m'|e|n]; simpl; try reflexivity.
      destruct (new_Date m') as [d'|e|n]; simpl; try reflexivity.
      case_get p "username"%string; [|reflexivity].
      destruct (truthy v1); simpl.
      * case_get h "alg"%string; reflexivity.
      * case_get p "body"%string; [|reflexivity].
        destruct (get_opt_total v2 "username") as [u ->]. simpl.
        case_get h "alg"%string; reflexivity.
    + case_get p "username"%string; [|reflexivity].
      destruct (truthy v1); simpl.
      * case_get h "alg"%string; reflexivity.
      * case_get p "body"%string; [|reflexivity].
        destruct (get_opt_total v2 "username") as [u ->]. simpl.
        case_get h "alg"%string; reflexivity.
  - case_get p "iat"%string; [|reflexivity].
    destruct (truthy v0); simpl.
    + destruct (mul v0 (Num 1000)) as [m'|e|n]; simpl; try reflexivity.
      destruct (new_Date m') as [d'|e|n]; simpl; try reflexivity.
      case_get p "username"%string; [|reflexivity].
      destruct (truthy v1); simpl.
      * case_get h "alg"%string; reflexivity.
      * case_get p "body"%string; [|reflexivity].
        destruct (get_opt_total v2 "username") as [u ->]. simpl.
        case_get h "alg"%string; reflexivity.
    + case_get p "username"%string; [|reflexivity].
      destruct (truthy v1); simpl.
      * case_get h "alg"%string; reflexivity.
      * case_get p "body"%string; [|reflexivity].
        destruct (get_opt_total v2 "username") as [u ->]. simpl.
        case_get h "alg"%string; reflexivity.
Qed.

(** [getJWTInfo] only reads. *)
Lemma getJWTInfo_reads token st :
  exists r, getJWTInfo token st = (r, st) /\ no_exit r.
Proof.
  set (t := or_else (match token with Undefined => Null | t => t end) (jwtToken st)).
  destruct (decodeJWT_cases t) as [Hnull|(h & p & sig & Hd & _)].
  - unfold getJWTInfo. unfold_io. fold t.
    destruct (falsy t); [eexists; split; [reflexivity|exact I]|].
    rewrite Hnull. simpl. eexists; split; [reflexivity|exact I].
  - rewrite (getJWTInfo_effective token st h p sig Hd). fold t.
    destruct (isJWTExpired_returns t st) as [b ->].
    eexists. split; [reflexivity|apply info_of_no_exit].
Qed.

Lemma displayJWTInfo_reads token st :
  exists r, displayJWTInfo token st = (r, st) /\ no_exit r.
Proof.
  unfold displayJWTInfo. unfold_io.
  destruct (getJWTInfo_reads token st) as (r & -> & Hr).
  destruct r; simpl in *; [eexists; split; [reflexivity|exact I] ..|contradiction].
Qed.

(** [performSSOLogin] returns (its handler turns every failure into [null]),
    sends at most one request to the endpoint, exactly one unless the bearer
    token cannot be converted to a string, and leaves disk and clock
    alone. *)
Lemma performSSOLogin_returns bearerToken st :
  exists data st',
    performSSOLogin bearerToken st = (Normal data, st') /\
    traffic st' = traffic st ++ attempt bearerToken /\
    (data <> Null -> unconvertible bearerToken = false) /\
    cacheFile st' = cacheFile st /\ cacheDir st' = cacheDir st /\
    diskFull st' = diskFull st /\ unlinkDenied st' = unlinkDenied st /\
    clock st' = clock st /\
    cachedToken st' = cachedToken st /\ lastResponse st' = lastResponse st.
Proof.
  unfold performSSOLogin, getSystemInfoWithPublicIP, fetch_apiUrl, attempt,
    acquisition.
  unfold_io. simpl.
  destruct (unconvertible bearerToken) eqn:Hu.
  { rewrite (ToPrimitive_unconvertible _ Hu).
    do 2 eexists. split; [reflexivity|]. simpl.
    repeat split; try reflexivity. intros H. now contradiction H. }
  destruct (ToPrimitive_convertible _ Hu) as [prim ->].
  assert (Happ : forall l : list net_event,
             (l ++ [FingerprintLookups]) ++ [SsoLoginRequest bearerToken] =
             l ++ [FingerprintLookups; SsoLoginRequest bearerToken]).
  { intros l. now rewrite <- app_assoc. }
  simpl.
  destruct (endpoint st) as [|[|status body] rest] eqn:He; simpl;
    try (do 2 eexists; split; [reflexivity|]; simpl; rewrite Happ; tauto).
  destruct (response_ok status); simpl;
    try (do 2 eexists; split; [reflexivity|]; simpl; rewrite Happ; tauto).
  unfold parse_json.
  destruct (JSON_parse body) as [data|]; simpl;
    try (do 2 eexists; split; [reflexivity|]; simpl; rewrite Happ; tauto).
  case_get data "jwt"%string;
    try (do 2 eexists; split; [reflexivity|]; simpl; rewrite Happ; tauto).
  destruct (truthy v); simpl;
    try (do 2 eexists; split; [reflexivity|]; simpl; rewrite Happ; tauto).
  match goal with
  | |- context [displayJWTInfo ?t ?s] =>
      destruct (displayJWTInfo_reads t s) as (r & -> & Hr)
  end.
  destruct r; simpl in *; try contradiction;
    do 2 eexists; (split; [reflexivity|]); simpl; rewrite Happ; tauto.
Qed.

(** [save()] returns, and touches nothing but the disk and [cachedToken]. *)
Lemma saveTokenToCache_returns tokenData st :
  exists b st',
    saveTokenToCache tokenData st = (Normal b, st') /\
    traffic st' = traffic st /\ endpoint st' = endpoint st /\
    clock st' = clock st /\ jwtToken st' = jwtToken st /\
    lastResponse st' = lastResponse st.
Proof.
  unfold saveTokenToCache, ensureCacheDirectory, existsSync_cacheDir,
    mkdirSync_cacheDir, writeFileSync_cacheFile.
  unfold_io.
  assert (Hget : (forall k, exists v, get tokenData k = Normal v) \/
                 (forall k, exists e, get tokenData k = Throw e))
    by (destruct tokenData; simpl; eauto).
  destruct (cacheDir st) eqn:Hd; destruct (diskFull st) eqn:Hfull; simpl;
    rewrite ?Hd, ?Hfull; simpl;
    try (do 2 eexists; split; [reflexivity|]; simpl; tauto);
    (destruct Hget as [Hall|Hnone];
     [|destruct (Hnone "jwt"%string) as [e ->]; simpl;
       do 2 eexists; (split; [reflexivity|]); simpl; tauto]);
    destruct (Hall "jwt"%string) as [jwt ->]; simpl;
    destruct (Hall "isNIEUser"%string) as [n ->]; simpl;
    destruct (Hall "isLDAPEnabled"%string) as [l ->]; simpl;
    destruct (Hall "hasGroupAccess"%string) as [g ->]; simpl;
    destruct (Hall "key"%string) as [key ->]; simpl;
    destruct (getTokenExpiration_returns jwt) as [x ->]; simpl;
    destruct (JSON_stringify (cacheData_literal jwt n l g key (clock st) x));
    simpl; rewrite ?Hd, ?Hfull; simpl;
    do 2 eexists; (split; [reflexivity|]); simpl; tauto.
Qed.

(** A successful [save()]: the record it built is in [cachedToken], its
    text is in the file. *)
Lemma saveTokenToCache_true tokenData st st1 :
  saveTokenToCache tokenData st = (Normal true, st1) ->
  exists jwt isNIEUser isLDAPEnabled hasGroupAccess key expiresAt text,
    get tokenData "jwt" = Normal jwt /\
    get tokenData "isNIEUser" = Normal isNIEUser /\
    get tokenData "isLDAPEnabled" = Normal isLDAPEnabled /\
    get tokenData "hasGroupAccess" = Normal hasGroupAccess /\
    get tokenData "key" = Normal key /\
    getTokenExpiration jwt = Normal expiresAt /\
    let cacheData :=
      cacheData_literal jwt isNIEUser isLDAPEnabled hasGroupAccess key
                        (clock st) expiresAt in
    JSON_stringify cacheData = Some text /\
    cachedToken st1 = cacheData /\
    cacheFile st1 = Some text /\
    diskFull st = false.
Proof.
  unfold saveTokenToCache, ensureCacheDirectory, existsSync_cacheDir,
    mkdirSync_cacheDir, writeFileSync_cacheFile.
  unfold_io.
  destruct (cacheDir st) eqn:Hd; destruct (diskFull st) eqn:Hfull; simpl;
    rewrite ?Hd, ?Hfull; simpl; try discriminate;
    (destruct (get_cases tokenData "jwt") as [[jwt Hj]|[e Hj]];
     [|destruct tokenData; simpl in *; discriminate]);
    (assert (Hall : forall k, exists v, get tokenData k = Normal v)
      by (intros k; destruct tokenData; simpl in *; try discriminate Hj; eauto));
    rewrite Hj; simpl;
    destruct (Hall "isNIEUser"%string) as [n Hn]; rewrite Hn; simpl;
    destruct (Hall "isLDAPEnabled"%string) as [l Hl]; rewrite Hl; simpl;
    destruct (Hall "hasGroupAccess"%string) as [g Hg]; rewrite Hg; simpl;
    destruct (Hall "key"%string) as [key Hk]; rewrite Hk; simpl;
    destruct (getTokenExpiration_returns jwt) as [x Hx]; rewrite Hx; simpl;
    (destruct (JSON_stringify (cacheData_literal jwt n l g key (clock st) x))
       as [text|] eqn:Hs; simpl; rewrite ?Hd, ?Hfull; simpl; try discriminate);
    intros H; injection H as <-;
    exists jwt, n, l, g, key, x, text; simpl; tauto.
Qed.

(** With room on the disk, [save()] of a record (anything but [null] and
    [undefined]) succeeds, and says what it wrote. *)
Lemma saveTokenToCache_writes tokenData st :
  (forall ps, JSON_stringify (Obj ps) <> None) ->
  diskFull st = false ->
  tokenData <> Null -> tokenData <> Undefined ->
  exists st' jwt isNIEUser isLDAPEnabled hasGroupAccess key expiresAt text,
    saveTokenToCache tokenData st = (Normal true, st') /\
    get tokenData "jwt" = Normal jwt /\
    get tokenData "isNIEUser" = Normal isNIEUser /\
    get tokenData "isLDAPEnabled" = Normal isLDAPEnabled /\
    get tokenData "hasGroupAccess" = Normal hasGroupAccess /\
    get tokenData "key" = Normal key /\
    getTokenExpiration jwt = Normal expiresAt /\
    cachedToken st' =
      cacheData_literal jwt isNIEUser isLDAPEnabled hasGroupAccess key
                        (clock st) expiresAt /\
    JSON_stringify (cachedToken st') = Some text /\
    cacheFile st' = Some text /\ cacheDir st' = true.
Proof.
  intros Hjson Hfull Hn Hu.
  assert (Hall : forall k, exists v, get tokenData k = Normal v)
    by (intros k; destruct tokenData; simpl; eauto; contradiction).
  destruct (Hall "jwt"%string) as [jwt Hj].
  destruct (Hall "isNIEUser"%string) as [n Hni].
  destruct (Hall "isLDAPEnabled"%string) as [l Hl].
  destruct (Hall "hasGroupAccess"%string) as [g Hg].
  destruct (Hall "key"%string) as [key Hk].
  destruct (getTokenExpiration_returns jwt) as [x Hx].
  destruct (JSON_stringify (cacheData_literal jwt n l g key (clock st) x))
    as [text|] eqn:Hs; [|now apply Hjson in Hs].
  unfold saveTokenToCache, ensureCacheDirectory, existsSync_cacheDir,
    mkdirSync_cacheDir, writeFileSync_cacheFile.
  unfold_io.
  destruct (cacheDir st) eqn:Hd; rewrite ?Hfull; simpl;
    rewrite Hj; simpl; rewrite Hni; simpl; rewrite Hl; simpl; rewrite Hg; simpl;
    rewrite Hk; simpl; rewrite Hx; simpl; rewrite Hs; simpl;
    rewrite ?Hd, ?Hfull; simpl;
    (eexists; exists jwt, n, l, g, key, x, text; split; [reflexivity|];
     simpl; auto 12).
Qed.

Lemma isCachedTokenValid_true_has_token cachedToken st :
  isCachedTokenValid cachedToken st = (Normal true, st) ->
  exists jwt, get cachedToken "jwt" = Normal jwt /\ truthy jwt = true /\
              truthy cachedToken = true.
Proof.
  intros H.
  destruct (truthy cachedToken) eqn:Hc.
  - assert (Hg : exists v, get cachedToken "jwt" = Normal v)
      by (destruct cachedToken; simpl in *; try discriminate Hc; eauto).
    destruct Hg as [jwt Hj]. exists jwt. split; [exact Hj|]. split; [|reflexivity].
    destruct (truthy jwt) eqn:Ht; [reflexivity|].
    rewrite isCachedTokenValid_no_token in H by (right; eauto). discriminate H.
  - rewrite isCachedTokenValid_no_token in H by now left. discriminate H.
Qed.

(** What [getValidToken] does, step by step. *)
Lemma getValidToken_run (bearerToken : value) (st : State) :
  exists cached st1,
    loadTokenFromCache st = (Normal cached, st1) /\
    traffic st1 = traffic st /\
    (exists verdict,
        isCachedTokenValid cached st1 = (verdict, st1) /\ no_exit verdict) /\
    (isCachedTokenValid cached st1 = (Normal true, st1) ->
     exists jwt st',
       get cached "jwt" = Normal jwt /\
       getValidToken bearerToken st = (Normal cached, st') /\
       st' = with_lastResponse cached (with_jwtToken jwt st1) /\
       traffic st' = traffic st /\ endpoint st' = endpoint st) /\
    (forall e,
        isCachedTokenValid cached st1 = (Throw e, st1) ->
        getValidToken bearerToken st = (Throw e, st1)) /\
    (isCachedTokenValid cached st1 = (Normal false, st1) ->
     exists data st2,
       performSSOLogin bearerToken st1 = (Normal data, st2) /\
       traffic st2 = traffic st ++ attempt bearerToken /\
       (truthy data = false ->
        getValidToken bearerToken st = (Normal Null, st2)) /\
       (truthy data = true ->
        exists saved st3,
          saveTokenToCache data st2 = (Normal saved, st3) /\
          getValidToken bearerToken st = (Normal data, st3) /\
          traffic st3 = traffic st ++ acquisition bearerToken /\
          (diskFull st = false ->
           (forall ps, JSON_stringify (Obj ps) <> None) ->
           exists jwt isNIEUser isLDAPEnabled hasGroupAccess key expiresAt text,
             saved = true /\
             get data "jwt" = Normal jwt /\
             get data "isNIEUser" = Normal isNIEUser /\
             get data "isLDAPEnabled" = Normal isLDAPEnabled /\
             get data "hasGroupAccess" = Normal hasGroupAccess /\
             get data "key" = Normal key /\
             getTokenExpiration jwt = Normal expiresAt /\
             cachedToken st3 =
               cacheData_literal jwt isNIEUser isLDAPEnabled hasGroupAccess key
                                 (clock st) expiresAt /\
             JSON_stringify (cachedToken st3) = Some text /\
             cacheFile st3 = Some text))).
Proof.
  destruct (loadTokenFromCache_returns st)
    as (cached & st1 & Hload & Ht1 & He1 & Hc1 & Hf1).
  exists cached, st1. split; [exact Hload|]. split; [exact Ht1|].
  split; [apply isCachedTokenValid_reads|].
  unfold getValidToken. unfold_io. rewrite Hload.
  split; [|split].
  - intros Hvalid. rewrite Hvalid.
    destruct (isCachedTokenValid_true_has_token _ _ Hvalid) as (jwt & Hj & _).
    rewrite Hj. exists jwt. eexists. split; [reflexivity|].
    split; [reflexivity|]. split; [reflexivity|]. simpl. auto.
  - intros e Hthrow. now rewrite Hthrow.
  - intros Hvalid. rewrite Hvalid.
    destruct (performSSOLogin_returns bearerToken st1)
      as (data & st2 & Hsso & Ht2 & Hconv & _ & _ & Hfull2 & _ & Hclock2 & _).
    exists data, st2. split; [exact Hsso|].
    split; [now rewrite Ht2, Ht1|].
    rewrite Hsso. split.
    + intros Htr. now rewrite Htr.
    + intros Htr. rewrite Htr.
      assert (Hnn : data <> Null) by (intros ->; discriminate Htr).
      assert (Hnu : data <> Undefined) by (intros ->; discriminate Htr).
      destruct (saveTokenToCache_returns data st2) as (b & st3 & Hsave & Ht3 & _).
      exists b, st3. rewrite Hsave. split; [reflexivity|]. split; [reflexivity|].
      split.
      { rewrite Ht3, Ht2, Ht1. unfold attempt. now rewrite (Hconv Hnn). }
      intros Hfull Hjson.
      destruct (saveTokenToCache_writes data st2 Hjson) as
        (st3' & jwt & n & l & g & key & x & text & Hsave' & Hj & Hn & Hl & Hg & Hk
         & Hx & Hcached & Htext & Hfile & _); try assumption.
      { now rewrite Hfull2, Hf1. }
      rewrite Hsave in Hsave'. injection Hsave' as -> <-.
      exists jwt, n, l, g, key, x, text.
      rewrite Hclock2, Hc1 in Hcached. auto 12.
Qed.


(** [getValidToken] returns a record (a truthy value) or [null], or throws
    what [isCachedTokenValid] throws; it never ends the process. *)
Lemma getValidToken_outcome bearerToken st :
  (exists data st',
      getValidToken bearerToken st = (Normal data, st') /\
      (truthy data = false -> data = Null)) \/
  (exists st', getValidToken bearerToken st = (Throw cannot_convert, st')).
Proof.
  destruct (getValidToken_run bearerToken st)
    as (cached & st1 & _ & _ & _ & Hyes & Hthrow & Hno).
  destruct (isCachedTokenValid_outcome cached st1) as [[[] Hb]|[Hb _]].
  - destruct (Hyes Hb) as (jwt & st' & _ & Hg & _).
    destruct (isCachedTokenValid_true_has_token _ _ Hb) as (_ & _ & _ & Hc).
    left. exists cached, st'. split; [exact Hg|]. congruence.
  - destruct (Hno Hb) as (data & st2 & _ & _ & Hnull & Hsaved).
    destruct (truthy data) eqn:Ht.
    + destruct (Hsaved eq_refl) as (saved & st3 & _ & Hg & _).
      left. exists data, st3. split; [exact Hg|]. congruence.
    + left. exists Null, st2. split; [now apply Hnull|reflexivity].
  - right. exists st1. now apply Hthrow.
Qed.

(** The paths of [initialize], with [this.exitProcess] as the class has it
    and as [process.exit]. *)
Lemma initialize_no_token bearerToken st :
  falsy bearerToken = true ->
  initialize bearerToken true st = (Throw exitProcess_TypeError, st) /\
  initialize_via process_exit bearerToken true st = (Exit 1, st) /\
  initialize bearerToken false st = (Normal false, st).
Proof.
  intros Hf. unfold initialize, initialize_via. rewrite Hf. auto.
Qed.

Lemma initialize_nothing_acquired bearerToken st data st' :
  falsy bearerToken = false ->
  getValidToken bearerToken st = (Normal data, st') ->
  truthy data = false ->
  initialize bearerToken true st = (Throw exitProcess_TypeError, st') /\
  initialize_via process_exit bearerToken true st = (Exit 3, st') /\
  initialize bearerToken false st = (Normal false, st').
Proof.
  intros Hf Hg Ht. unfold initialize, initialize_via. rewrite Hf.
  unfold_io. rewrite Hg, Ht. auto.
Qed.

Lemma initialize_acquired bearerToken st data st' :
  falsy bearerToken = false ->
  getValidToken bearerToken st = (Normal data, st') ->
  truthy data = true ->
  expiry_date_fails data = false ->
  if authorized data then
    initialize bearerToken true st = (Normal true, with_lastResponse data st') /\
    initialize_via process_exit bearerToken true st =
    (Normal true, with_lastResponse data st') /\
    initialize bearerToken false st = (Normal true, with_lastResponse data st')
  else
    initialize bearerToken true st =
    (Throw exitProcess_TypeError, with_lastResponse data st') /\
    initialize_via process_exit bearerToken true st =
    (Exit 2, with_lastResponse data st') /\
    initialize bearerToken false st = (Normal true, with_lastResponse data st').
Proof.
  intros Hf Hg Ht Hdate. unfold initialize, initialize_via, authorized.
  unfold expiry_date_fails in Hdate. rewrite Hf.
  unfold_io. rewrite Hg, Ht.
  assert (Hall : forall k, exists v, get data k = Normal v)
    by (intros k; destruct data; simpl in *; try discriminate Ht; eauto).
  destruct (Hall "isNIEUser"%string) as [n ->].
  destruct (Hall "isLDAPEnabled"%string) as [l ->].
  destruct (Hall "hasGroupAccess"%string) as [g ->].
  destruct (Hall "expiresAt"%string) as [x Hx]. rewrite Hx in *.
  rewrite (new_Date_convertible x Hdate).
  destruct (truthy x); destruct (truthy g || truthy n || truthy l); simpl; auto.
Qed.

(** The date of [expiresAt] cannot be built: the handler written for code 4
    takes over. *)
Lemma initialize_date_fails bearerToken st data st' :
  falsy bearerToken = false ->
  getValidToken bearerToken st = (Normal data, st') ->
  truthy data = true ->
  expiry_date_fails data = true ->
  initialize bearerToken true st =
  (Throw exitProcess_TypeError, with_lastResponse data st') /\
  initialize_via process_exit bearerToken true st =
  (Exit 4, with_lastResponse data st') /\
  initialize bearerToken false st = (Normal false, with_lastResponse data st').
Proof.
  intros Hf Hg Ht Hdate. unfold initialize, initialize_via.
  unfold expiry_date_fails in Hdate. rewrite Hf.
  unfold_io. rewrite Hg, Ht.
  assert (Hall : forall k, exists v, get data k = Normal v)
    by (intros k; destruct data; simpl in *; try discriminate Ht; eauto).
  destruct (Hall "isNIEUser"%string) as [n ->].
  destruct (Hall "isLDAPEnabled"%string) as [l ->].
  destruct (Hall "hasGroupAccess"%string) as [g ->].
  destruct (Hall "expiresAt"%string) as [x Hx]. rewrite Hx in *.
  rewrite (unconvertible_truthy x Hdate), (new_Date_unconvertible x Hdate).
  auto.
Qed.

(** [getValidToken] throws: the same handler. *)
Lemma initialize_token_throws bearerToken st e st' :
  falsy bearerToken = false ->
  getValidToken bearerToken st = (Throw e, st') ->
  initialize bearerToken true st = (Throw exitProcess_TypeError, st') /\
  initialize_via process_exit bearerToken true st = (Exit 4, st') /\
  initialize bearerToken false st = (Normal false, st').
Proof.
  intros Hf Hg. unfold initialize, initialize_via. rewrite Hf.
  unfold_io. rewrite Hg. auto.
Qed.

(** Whatever happens, [initialize] as the class has it never ends the
    process itself. *)
Lemma initialize_never_exits bearerToken exitOnFailure st :
  no_exit (fst (initialize bearerToken exitOnFailure st)).
Proof.
  destruct (falsy bearerToken) eqn:Hf.
  - destruct (initialize_no_token bearerToken st Hf) as (H1 & _ & H2).
    destruct exitOnFailure; [rewrite H1|rewrite H2]; exact I.
  - destruct (getValidToken_outcome bearerToken st)
      as [(data & st' & Hg & _)|(st' & Hg)].
    + destruct (truthy data) eqn:Ht.
      * destruct (expiry_date_fails data) eqn:Hdate.
        -- destruct (initialize_date_fails _ _ _ _ Hf Hg Ht Hdate) as (H1 & _ & H2).
           destruct exitOnFailure; [rewrite H1|rewrite H2]; exact I.
        -- pose proof (initialize_acquired _ _ _ _ Hf Hg Ht Hdate) as H.
           destruct (authorized data).
           ++ destruct H as (H1 & _ & H2).
              destruct exitOnFailure; [rewrite H1|rewrite H2]; exact I.
           ++ destruct H as (H1 & _ & H2).
              destruct exitOnFailure; [rewrite H1|rewrite H2]; exact I.
      * destruct (initialize_nothing_acquired _ _ _ _ Hf Hg Ht) as (H1 & _ & H2).
        destruct exitOnFailure; [rewrite H1|rewrite H2]; exact I.
    + destruct (initialize_token_throws _ _ _ _ Hf Hg) as (H1 & _ & H2).
      destruct exitOnFailure; [rewrite H1|rewrite H2]; exact I.
Qed.

(** ** What the caller sees: [initializeLMS] and the head of [main] *)

Lemma never_exits_ret {A} (a : A) : never_exits (ret a).
Proof. intros st. exact I. Qed.

Lemma never_exits_get o k : never_exits (lift (get o k)).
Proof. intros st. unfold lift. destruct (get_cases o k) as [[v ->]|[e ->]]; exact I. Qed.

Lemma never_exits_bind {A B} (c : M A) (k : A -> M B) :
  never_exits c -> (forall a, never_exits (k a)) -> never_exits (bind c k).
Proof.
  intros Hc Hk st. unfold bind. specialize (Hc st).
  destruct (c st) as [[a|e|n] st']; simpl in *; [apply Hk|exact I|contradiction].
Qed.

Lemma never_exits_isCachedTokenValid c : never_exits (isCachedTokenValid c).
Proof. intros st. destruct (isCachedTokenValid_reads c st) as (r & -> & Hr). exact Hr. Qed.

Lemma never_exits_loadTokenFromCache : never_exits loadTokenFromCache.
Proof.
  intros st. destruct (loadTokenFromCache_returns st) as (v & st' & -> & _). exact I.
Qed.

Lemma never_exits_getJWTInfo token : never_exits (getJWTInfo token).
Proof. intros st. destruct (getJWTInfo_reads token st) as (r & -> & Hr). exact Hr. Qed.

Lemma never_exits_initialize bearerToken exitOnFailure :
  never_exits (initialize bearerToken exitOnFailure).
Proof. intros st. apply initialize_never_exits. Qed.

Lemma never_exits_new_Date x : never_exits (lift (new_Date x)).
Proof.
  intros st. unfold lift, new_Date. simpl.
  destruct (unconvertible x) eqn:Hu.
  - now rewrite (ToPrimitive_unconvertible x Hu).
  - now destruct (ToPrimitive_convertible x Hu) as [p ->].
Qed.

Lemma never_exits_sub x n : never_exits (lift (sub x (Num n))).
Proof.
  intros st. unfold lift. simpl. rewrite sub_Num.
  destruct (ToNumber_cases x) as [[_ [y ->]]|[_ ->]]; exact I.
Qed.

Lemma never_exits_getTokenStatus : never_exits getTokenStatus.
Proof.
  unfold getTokenStatus.
  apply never_exits_bind; [intros st; exact I|intros this_cachedToken].
  apply never_exits_bind.
  - destruct (truthy this_cachedToken);
      [apply never_exits_ret|apply never_exits_loadTokenFromCache].
  - intros c. destruct (falsy c); [apply never_exits_ret|].
    apply never_exits_bind; [apply never_exits_isCachedTokenValid|intros isValid].
    apply never_exits_bind; [apply never_exits_get|intros expiresAt].
    apply never_exits_bind.
    { destruct (truthy expiresAt); [|apply never_exits_ret].
      apply never_exits_bind; [apply never_exits_new_Date|intros d].
      apply never_exits_ret. }
    intros expirationDate.
    apply never_exits_bind.
    { destruct (truthy expiresAt); [|apply never_exits_ret].
      apply never_exits_bind; [intros st; exact I|intros now].
      apply never_exits_sub. }
    intros timeUntilExpiry.
    apply never_exits_bind; [apply never_exits_get|intros jwt].
    apply never_exits_bind; [apply never_exits_getJWTInfo|intros info].
    apply never_exits_bind; [apply never_exits_get|intros g].
    apply never_exits_ret.
Qed.

Lemma never_exits_initializeLMS env : never_exits (initializeLMS env).
Proof.
  unfold initializeLMS.
  apply never_exits_bind; [intros st; exact I|intros _].
  destruct (falsy (env_value env "LMS_BEARER_TOKEN")); [apply never_exits_ret|].
  apply never_exits_bind; [apply never_exits_getTokenStatus|intros _].
  apply never_exits_bind; [apply never_exits_initialize|intros success].
  apply never_exits_bind; [|intros _; apply never_exits_ret].
  destruct success; [|apply never_exits_ret].
  apply never_exits_bind; [apply never_exits_getTokenStatus|intros _].
  apply never_exits_ret.
Qed.

(** ** Computations that only read *)

Lemma reads_ret {A} (a : A) : reads (ret a).
Proof. intros st. exists (Normal a). split; [reflexivity|exact I]. Qed.

Lemma reads_lift {A} (c : completion A) : no_exit c -> reads (lift c).
Proof. intros H st. exists c. split; [reflexivity|exact H]. Qed.

Lemma reads_bind {A B} (c : M A) (k : A -> M B) :
  reads c -> (forall a, reads (k a)) -> reads (bind c k).
Proof.
  intros Hc Hk st. unfold bind. destruct (Hc st) as (r & -> & Hr).
  destruct r as [a|e|n]; simpl in Hr; [apply Hk| |contradiction].
  exists (Throw e). split; [reflexivity|exact I].
Qed.

Lemma reads_Date_now : reads Date_now.
Proof. intros st. exists (Normal (clock st)). split; [reflexivity|exact I]. Qed.

Lemma reads_get o k : reads (lift (get o k)).
Proof. apply reads_lift. destruct (get_cases o k) as [[v ->]|[e ->]]; exact I. Qed.

Lemma reads_new_Date x : reads (lift (new_Date x)).
Proof.
  apply reads_lift. unfold new_Date. destruct (unconvertible x) eqn:Hu.
  - now rewrite (ToPrimitive_unconvertible x Hu).
  - now destruct (ToPrimitive_convertible x Hu) as [p ->].
Qed.

Lemma reads_sub x n : reads (lift (sub x (Num n))).
Proof.
  apply reads_lift. rewrite sub_Num.
  destruct (ToNumber_cases x) as [[_ [y ->]]|[_ ->]]; exact I.
Qed.

Lemma reads_isCachedTokenValid c : reads (isCachedTokenValid c).
Proof. intros st. apply isCachedTokenValid_reads. Qed.

Lemma reads_getJWTInfo token : reads (getJWTInfo token).
Proof. intros st. apply getJWTInfo_reads. Qed.

(** Seen from outside, every failure of the gate is exit code 1: the codes
    2, 3 and 4 of [initialize] never leave the process. *)
Lemma main_gate_exit_code env st :
  fst (main_gate env st) = Normal tt \/ fst (main_gate env st) = Exit 1.
Proof.
  unfold main_gate, try_catchM, bind, process_exit, ret.
  pose proof (never_exits_initializeLMS env st) as Hne.
  destruct (initializeLMS env st) as [[[|]|e|n] st']; simpl in *; auto.
  contradiction.
Qed.

End GateFacts.

(* ================================================================== *)
(** * Properties of the process supervisor's launch decision             *)
(* ================================================================== *)

Lemma shouldInit_false_iff bg port :
  shouldInit bg port = false <-> (port = true /\ bg = true).
Proof. destruct bg, port; simpl; intuition discriminate. Qed.

Lemma launch_none_iff isDev os path env port :
  launch isDev os path env port = None <->
  (shouldInit (bgEnabled env) port = false \/ (isDev = true /\ os = other_platform)).
Proof.
  unfold launch.
  destruct isDev, os, (shouldInit (bgEnabled env) port); simpl;
    intuition discriminate.
Qed.

(** C6, as the code has it.  For every result of the port check and every
    value of the background-process flag, [shouldInit] is false exactly when
    the port is in use and background-process mode is enabled; nothing else
    makes it false.  No child is started when it is false; when it is true
    one is started in production mode, and in development mode on macOS and
    on Windows. *)
Theorem shouldInit_exactly (isDev : bool) (os : platform) (path : string)
  (env : environment) (portInUse : bool) :
  (shouldInit (bgEnabled env) portInUse = false <->
   (portInUse = true /\ bgEnabled env = true)) /\
  (shouldInit (bgEnabled env) portInUse = false ->
   launch isDev os path env portInUse = None) /\
  (shouldInit (bgEnabled env) portInUse = true ->
   isDev = false \/ os = darwin \/ os = win32 ->
   launch isDev os path env portInUse <> None).
Proof.
  split; [apply shouldInit_false_iff|]. split.
  - intros H. apply launch_none_iff. now left.
  - intros H Hos Hn. apply launch_none_iff in Hn.
    destruct Hn as [Hn|[Hd Ho]]; [congruence|].
    destruct Hos as [Hp|[Hm|Hw]]; congruence.
Qed.

(* ================================================================== *)
(** * Properties of the readiness gate                                   *)
(* ================================================================== *)

Lemma is_ready_iff p : is_ready p = true <-> p = Status 200.
Proof.
  destruct p as [code|]; simpl; [|split; discriminate].
  split.
  - intros H. apply Z.eqb_eq in H. now subst.
  - intros H. injection H as ->. reflexivity.
Qed.

Lemma check_from_ready fuel interval s sent waited r :
  check_from fuel interval s sent waited = Some r ->
  (sent < polls r <= sent + fuel)%nat /\
  s (pred (polls r)) = Status 200 /\
  (forall j, (sent <= j < pred (polls r))%nat -> s j <> Status 200) /\
  slept r = waited + timer_delay interval * Z.of_nat (pred (polls r) - sent).
Proof.
  revert sent waited. induction fuel as [|fuel IH]; intros sent waited; simpl.
  - discriminate.
  - destruct (is_ready (s sent)) eqn:Hr.
    + intros H. injection H as <-. simpl.
      split; [lia|]. split; [now apply is_ready_iff|].
      split; [intros j Hj; lia|].
      rewrite Nat.sub_diag. simpl. lia.
    + intros H. destruct (IH _ _ H) as (Hp & H200 & Hbefore & Hs).
      split; [lia|]. split; [exact H200|]. split.
      * intros j Hj. destruct (Nat.eq_dec j sent) as [->|Hne].
        -- intros Heq. apply is_ready_iff in Heq. congruence.
        -- apply Hbefore. lia.
      * rewrite Hs. replace (pred (polls r) - sent)%nat
          with (S (pred (polls r) - S sent))%nat by lia.
        rewrite Nat2Z.inj_succ. lia.
Qed.

Lemma check_from_enough fuel interval s sent waited n :
  s (sent + n)%nat = Status 200 -> (n < fuel)%nat ->
  exists r, check_from fuel interval s sent waited = Some r.
Proof.
  revert sent waited n. induction fuel as [|fuel IH]; intros sent waited n H200 Hn.
  - lia.
  - simpl. destruct (is_ready (s sent)) eqn:Hr; [eauto|].
    destruct n as [|n].
    + rewrite Nat.add_0_r in H200. apply is_ready_iff in H200. congruence.
    + apply (IH (S sent) _ n); [|lia].
      now replace (sent + S n)%nat with (S sent + n)%nat in H200 by lia.
Qed.

Lemma all_ready_Forall2 {A} (f : A -> option ready) xs rs :
  all_ready (map f xs) = Some rs -> Forall2 (fun x r => f x = Some r) xs rs.
Proof.
  revert rs. induction xs as [|x xs IH]; intros rs; simpl.
  - intros H. injection H as <-. constructor.
  - destruct (f x) as [r|] eqn:Hx; [|discriminate].
    destruct (all_ready (map f xs)) as [rs'|]; [|discriminate].
    intros H. injection H as <-. constructor; auto.
Qed.

Lemma Forall2_all_ready {A} (f : A -> option ready) xs :
  (forall x, In x xs -> exists r, f x = Some r) ->
  exists rs, all_ready (map f xs) = Some rs.
Proof.
  induction xs as [|x xs IH]; intros H; simpl; [eauto|].
  destruct (H x (or_introl eq_refl)) as [r ->].
  destruct IH as [rs ->]; [intros y Hy; apply H; now right|]. eauto.
Qed.

Lemma fold_max_bound (zs : list Z) z :
  In z zs -> z <= fold_right Z.max 0 zs.
Proof.
  induction zs as [|a zs IH]; simpl; [contradiction|].
  intros [->|Hin]; [lia|]. specialize (IH Hin). lia.
Qed.

(** A URL that eventually answers 200 is reported ready, given fuel for
    that many requests. *)
Lemma urls_eventually_ready (web : string -> site) (urls : list string) :
  (forall url, In url urls -> exists k, web url k = Status 200) ->
  exists fuel, forall url, In url urls ->
    exists k, web url k = Status 200 /\ (k < fuel)%nat.
Proof.
  induction urls as [|u urls IH]; intros H.
  - exists 0%nat. intros url [].
  - destruct IH as [fuel Hfuel]; [intros url Hin; apply H; now right|].
    destruct (H u (or_introl eq_refl)) as [k Hk].
    exists (S (Nat.max k fuel)). intros url [<-|Hin].
    + exists k. split; [exact Hk|lia].
    + destruct (Hfuel url Hin) as (k' & Hk' & Hlt). exists k'. split; [exact Hk'|lia].
Qed.

(** What the timer makes of a delay. *)
Lemma timer_delay_cases (delay : Z) :
  (1 <= delay <= 2147483647 -> timer_delay delay = delay) /\
  (delay < 1 \/ 2147483647 < delay -> timer_delay delay = 1).
Proof.
  unfold timer_delay, TIMEOUT_MAX.
  destruct (Z.ltb_spec delay 1); destruct (Z.ltb_spec 2147483647 delay); simpl;
    split; intros; try reflexivity; lia.
Qed.

(** C9, as the code has it.  For every set of URLs passed to [waitForUrls]
    and every [interval] (250 when the option is absent, the caller's value
    otherwise): the wait resolves only with every URL observed at status
    200, each by the requests to that URL alone; every earlier answer of a
    URL (an exception or another status) was followed by a timer set with
    [interval] and another request.  The timer waits [interval]
    milliseconds when that is from 1 to 2147483647, and 1 millisecond for
    every other value.  When every URL eventually answers 200 the wait does
    resolve. *)
Theorem waitForUrls_all_ready (web : string -> site) (urls : list string)
  (interval : option Z) :
  interval_of None = 250 /\
  (forall i, interval_of (Some i) = i) /\
  (forall delay, 1 <= delay <= 2147483647 -> timer_delay delay = delay) /\
  (forall delay, delay < 1 \/ 2147483647 < delay -> timer_delay delay = 1) /\
  (forall fuel r,
      waitForUrls fuel web urls interval = Some r ->
      result r = map (fun _ => true) urls /\
      resolved_after r = fold_right Z.max 0 (map slept (per_url r)) /\
      Forall2 (fun url rd =>
                 check fuel (interval_of interval) (web url) = Some rd /\
                 (polls rd <= fuel)%nat /\
                 web url (pred (polls rd)) = Status 200 /\
                 (forall j, (j < pred (polls rd))%nat -> web url j <> Status 200) /\
                 slept rd =
                   timer_delay (interval_of interval) * Z.of_nat (pred (polls rd)) /\
                 slept rd <= resolved_after r)
              urls (per_url r)) /\
  (forall fuel url,
      In url urls ->
      (forall j, (j < fuel)%nat -> web url j <> Status 200) ->
      waitForUrls fuel web urls interval = None) /\
  ((forall url, In url urls -> exists k, web url k = Status 200) ->
   exists fuel r, waitForUrls fuel web urls interval = Some r).
Proof.
  assert (Hres : forall fuel r,
      waitForUrls fuel web urls interval = Some r ->
      result r = map (fun _ => true) urls /\
      resolved_after r = fold_right Z.max 0 (map slept (per_url r)) /\
      Forall2 (fun url rd =>
                 check fuel (interval_of interval) (web url) = Some rd /\
                 (polls rd <= fuel)%nat /\
                 web url (pred (polls rd)) = Status 200 /\
                 (forall j, (j < pred (polls rd))%nat -> web url j <> Status 200) /\
                 slept rd =
                   timer_delay (interval_of interval) * Z.of_nat (pred (polls rd)) /\
                 slept rd <= resolved_after r)
              urls (per_url r)).
  { intros fuel r. unfold waitForUrls.
    destruct (all_ready _) as [rs|] eqn:Hall; [|discriminate].
    intros H. injection H as <-. simpl.
    apply all_ready_Forall2 in Hall.
    split; [|split; [reflexivity|]].
    - clear -Hall. induction Hall; simpl; congruence.
    - assert (Hb : forall rd, In rd rs -> slept rd <= fold_right Z.max 0 (map slept rs))
        by (intros rd Hin; apply fold_max_bound, in_map, Hin).
      revert Hb. generalize (fold_right Z.max 0 (map slept rs)) as m.
      induction Hall as [|url rd urls' rs' Hc Hall IH]; intros m Hb; constructor.
      + unfold check in Hc.
        destruct (check_from_ready _ _ _ _ _ _ Hc) as (Hp & H200 & Hbefore & Hs).
        split; [exact Hc|]. split; [lia|]. split; [exact H200|].
        split; [intros j Hj; apply Hbefore; lia|].
        split; [rewrite Hs, Nat.sub_0_r; lia|].
        apply Hb. now left.
      + apply IH. intros rd' Hin. apply Hb. now right. }
  split; [reflexivity|]. split; [reflexivity|].
  split; [intros delay; apply timer_delay_cases|].
  split; [intros delay; apply timer_delay_cases|].
  split; [exact Hres|]. split.
  - intros fuel url Hin Hnever.
    destruct (waitForUrls fuel web urls interval) as [r|] eqn:Hw; [|reflexivity].
    exfalso. destruct (Hres _ _ Hw) as (_ & _ & HF).
    clear Hw Hres. induction HF as [|u rd us rs (Hc & Hle & H200 & _) HF IH].
    + contradiction.
    + destruct Hin as [<-|Hin]; [|now apply IH].
      apply (Hnever (pred (polls rd))); [|exact H200].
      unfold check in Hc. apply check_from_ready in Hc. lia.
  - intros Hev. destruct (urls_eventually_ready web urls Hev) as [fuel Hfuel].
    exists fuel. unfold waitForUrls.
    destruct (Forall2_all_ready
                (fun url => check fuel (interval_of interval) (web url)) urls)
      as [rs ->]; [|eauto].
    intros url Hin. destruct (Hfuel url Hin) as (k & Hk & Hlt).
    unfold check. apply (check_from_enough fuel _ _ 0%nat 0 k); assumption.
Qed.

(* ================================================================== *)
(** * The executable runtime reads back what it prints                   *)
(* ================================================================== *)

Module NodeFacts.
Import Node.
Local Open Scope char_scope.

(** ** White space *)

Lemma skip_ws_newline indent s : skip_ws (newline indent ++ s) = skip_ws s.
Proof.
  unfold newline. simpl. induction indent as [|n IH]; simpl; auto.
Qed.

Lemma read_value_skip_ws fuel s s' :
  skip_ws s = skip_ws s' -> read_value fuel s = read_value fuel s'.
Proof. intros H. destruct fuel; simpl; [reflexivity|]. now rewrite H. Qed.

(** ** Strings *)

Lemma read_quote_char c t :
  read_string (quote_char c ++ t) = prepend [c] (read_string t).
Proof.
  destruct c as [[] [] [] [] [] [] [] []]; reflexivity.
Qed.

Lemma read_string_quoted s rest :
  read_string (flat_map quote_char s ++ dquote :: rest) = Some (s, rest).
Proof.
  induction s as [|c s IH]; [reflexivity|].
  simpl flat_map. rewrite <- List.app_assoc, read_quote_char, IH. reflexivity.
Qed.

Lemma read_quote k rest :
  exists body, quote k ++ rest = dquote :: body /\
               read_string body = Some (list_ascii_of_string k, rest) /\
               List.length body = (List.length (quote k ++ rest) - 1)%nat.
Proof.
  exists (flat_map quote_char (list_ascii_of_string k) ++ dquote :: rest).
  assert (Heq : quote k ++ rest =
                dquote :: flat_map quote_char (list_ascii_of_string k) ++ dquote :: rest).
  { unfold quote. simpl. now rewrite <- List.app_assoc. }
  split; [exact Heq|]. split; [apply read_string_quoted|].
  rewrite Heq. simpl. lia.
Qed.


(** ** Numbers *)

Lemma tail_ok_cases rest :
  tail_ok rest = true ->
  rest = [] \/ (exists r, rest = "," :: r) \/ (exists r, rest = LF :: r).
Proof.
  destruct rest as [|c r]; simpl; [auto|].
  intros H. apply orb_true_iff in H. destruct H as [H|H];
    apply Ascii.eqb_eq in H; subst; eauto.
Qed.

Lemma read_uint_stops rest : tail_ok rest = true -> read_uint rest = (Decimal.Nil, rest).
Proof.
  intros H. destruct (tail_ok_cases _ H) as [->|[[r ->]|[r ->]]]; reflexivity.
Qed.

Lemma read_uint_digits u rest :
  tail_ok rest = true -> read_uint (digits_of_uint u ++ rest) = (u, rest).
Proof.
  intros H. induction u; simpl; rewrite ?IHu; auto using read_uint_stops.
Qed.

Lemma integer_ends_tail rest : tail_ok rest = true -> integer_ends rest = true.
Proof.
  intros H. destruct (tail_ok_cases _ H) as [->|[[r ->]|[r ->]]]; reflexivity.
Qed.

Lemma nzhead_no_zero u :
  match Decimal.nzhead u with Decimal.D0 _ => False | _ => True end.
Proof. induction u; simpl; auto. Qed.

Lemma canonical_unorm u : canonical (Decimal.unorm u) = true.
Proof.
  unfold Decimal.unorm. pose proof (nzhead_no_zero u) as H.
  destruct (Decimal.nzhead u); simpl; auto; contradiction.
Qed.

Lemma canonical_to_uint p : canonical (Pos.to_uint p) = true.
Proof.
  rewrite <- (canonical_unorm (Pos.to_uint p)).
  f_equal. rewrite <- DecimalPos.Unsigned.to_of, DecimalPos.Unsigned.of_to.
  reflexivity.
Qed.

Lemma read_number_digits (negative : bool) u rest :
  tail_ok rest = true -> canonical u = true ->
  read_number ((if negative then ["-"] else []) ++ digits_of_uint u ++ rest) =
  Some (Num (Z.of_int (if negative then Decimal.Neg u else Decimal.Pos u)), rest).
Proof.
  intros Ht Hc. pose proof (read_uint_digits u rest Ht) as Hu.
  pose proof (integer_ends_tail rest Ht) as He.
  unfold read_number.
  destruct negative; destruct u; try discriminate Hc;
    cbn [app digits_of_uint]; cbn [app digits_of_uint] in Hu;
    rewrite Hu, Hc, He; reflexivity.
Qed.

Lemma read_number_print n rest :
  tail_ok rest = true -> read_number (print_Z n ++ rest) = Some (Num n, rest).
Proof.
  intros Ht. unfold print_Z.
  rewrite <- (DecimalZ.of_to n) at 2.
  destruct n as [|p|p]; cbn [Z.to_int].
  - apply (read_number_digits false Decimal.zero rest Ht eq_refl).
  - apply (read_number_digits false _ rest Ht (canonical_to_uint p)).
  - apply (read_number_digits true _ rest Ht (canonical_to_uint p)).
Qed.

Lemma read_value_number fuel c r :
  starts_number c = true -> read_value (S fuel) (c :: r) = read_number (c :: r).
Proof.
  destruct c as [[] [] [] [] [] [] [] []]; intros H; try discriminate H; reflexivity.
Qed.

Lemma print_Z_head n : exists c t, print_Z n = c :: t /\ starts_number c = true.
Proof.
  unfold print_Z. destruct n as [|p|p]; cbn [Z.to_int].
  - do 2 eexists. split; reflexivity.
  - pose proof (canonical_to_uint p) as Hc.
    destruct (Pos.to_uint p); try discriminate Hc; simpl; do 2 eexists;
      split; reflexivity.
  - do 2 eexists. split; reflexivity.
Qed.

Lemma read_value_print_Z fuel n rest :
  tail_ok rest = true ->
  read_value (S fuel) (print_Z n ++ rest) = Some (Num n, rest).
Proof.
  intros Ht. destruct (print_Z_head n) as (c & t & Hp & Hc).
  rewrite <- (read_number_print n rest Ht). rewrite Hp. simpl app.
  apply read_value_number, Hc.
Qed.


(** ** Values *)

Lemma value_induction (P : value -> Prop) :
  P Undefined -> P Null -> (forall b, P (Bool b)) -> (forall n, P (Num n)) ->
  P NaN -> (forall i, P (Infinity i)) -> (forall s, P (Str s)) ->
  (forall vs, Forall P vs -> P (Arr vs)) ->
  (forall ps, Forall (fun p => P (snd p)) ps -> P (Obj ps)) ->
  forall v, P v.
Proof.
  intros Hu Hn Hb Hz Hnan Hinf Hs Ha Ho.
  fix IH 1. intros v.
  destruct v as [| |b|n| |i|s|vs|ps];
    [exact Hu|exact Hn|apply Hb|apply Hz|exact Hnan|apply Hinf|apply Hs| |].
  - apply Ha. induction vs as [|x vs IHvs]; constructor; [apply IH|exact IHvs].
  - apply Ho. induction ps as [|[k x] ps IHps]; constructor; [apply IH|exact IHps].
Qed.

Lemma serialize_Arr indent vs :
  serialize indent (Arr vs) =
  match vs with
  | [] => lit "[]"
  | _ => "[" :: join (map (item (2 + indent)) vs) ++ newline indent ++ ["]"]
  end.
Proof. destruct vs; reflexivity. Qed.

Lemma members_defined (f : string -> value -> chars) ps :
  flat_map (fun p : string * value =>
              let (k, x) := p in
              match x with Undefined => [] | _ => [f k x] end) ps =
  map (fun p => f (fst p) (snd p)) (defined_props ps).
Proof.
  induction ps as [|[k x] ps IH]; [reflexivity|].
  simpl. rewrite IH. destruct x; reflexivity.
Qed.

Lemma stored_defined ps :
  stored (Obj ps) = Obj (map (fun p => (fst p, stored (snd p))) (defined_props ps)).
Proof.
  simpl. f_equal.
  induction ps as [|[k x] ps IH]; [reflexivity|].
  simpl. rewrite IH. destruct x; reflexivity.
Qed.

Lemma serialize_Obj indent ps :
  serialize indent (Obj ps) =
  match defined_props ps with
  | [] => lit "{}"
  | ms => "{" :: join (map (member (2 + indent)) ms) ++ newline indent ++ ["}"]
  end.
Proof.
  cbn [serialize].
  rewrite (members_defined
             (fun k x => newline (2 + indent) ++ quote k ++ ":" :: " " ::
                         serialize (2 + indent) x)).
  destruct (defined_props ps); reflexivity.
Qed.

Lemma opens_value_facts c :
  opens_value c = true ->
  is_ws c = false /\ Ascii.eqb c "]" = false /\ Ascii.eqb c "}" = false /\
  Ascii.eqb c "," = false.
Proof.
  destruct c as [[] [] [] [] [] [] [] []]; intros H; try discriminate H;
    repeat split.
Qed.

Lemma serialize_head indent v :
  exists c t, serialize indent v = c :: t /\ opens_value c = true.
Proof.
  destruct v as [| |[]|n| |i|s|vs|ps]; try (do 2 eexists; split; reflexivity).
  - destruct (print_Z_head n) as (c & t & Hp & Hc). exists c, t. split; [exact Hp|].
    unfold opens_value. now rewrite Hc.
  - rewrite serialize_Arr. destruct vs; do 2 eexists; split; reflexivity.
  - rewrite serialize_Obj. destruct (defined_props ps); do 2 eexists; split; reflexivity.
Qed.

Lemma accept_here c indent rest : is_ws c = false ->
  accept c (newline indent ++ c :: rest) = Some rest.
Proof.
  intros Hc. unfold accept. rewrite skip_ws_newline. simpl.
  now rewrite Hc, Ascii.eqb_refl.
Qed.

Lemma accept_now c rest : is_ws c = false -> accept c (c :: rest) = Some rest.
Proof. intros Hc. unfold accept. simpl. now rewrite Hc, Ascii.eqb_refl. Qed.

Lemma accept_other c c' rest :
  is_ws c' = false -> Ascii.eqb c' c = false -> accept c (c' :: rest) = None.
Proof. intros Hw Hc. unfold accept. simpl. now rewrite Hw, Hc. Qed.

Lemma accept_skip c indent s : accept c (newline indent ++ s) = accept c s.
Proof. unfold accept. now rewrite skip_ws_newline. Qed.

Lemma normalize_distinct ms : NoDup (map fst ms) -> normalize ms = ms.
Proof.
  unfold normalize.
  assert (H : forall acc,
             NoDup (map fst (acc ++ ms)) ->
             fold_left (fun a p => set_prop a (fst p) (snd p)) ms acc = acc ++ ms).
  { induction ms as [|[k v] ms IH]; intros acc Hnd; simpl.
    - now rewrite List.app_nil_r.
    - assert (Hset : set_prop acc k v = acc ++ [(k, v)]).
      { assert (Hk : ~ In k (map fst acc)).
        { rewrite map_app in Hnd. simpl in Hnd.
          apply NoDup_remove_2 in Hnd. intros Hin. apply Hnd.
          apply in_or_app. now left. }
        clear -Hk. induction acc as [|[k' v'] acc IHacc]; simpl; [reflexivity|].
        destruct (String.eqb_spec k k') as [->|Hne].
        - exfalso. apply Hk. now left.
        - rewrite IHacc; [reflexivity|]. intros Hin. apply Hk. now right. }
      rewrite Hset, IH; rewrite <- List.app_assoc; [reflexivity|exact Hnd]. }
  intros Hnd. apply (H []). exact Hnd.
Qed.


Lemma read_elements_S fuel s :
  read_elements (S fuel) s =
  match read_value fuel s with
  | None => None
  | Some (v, r1) =>
      match accept "," r1 with
      | Some r2 =>
          match read_elements fuel r2 with
          | Some (vs, r3) => Some (v :: vs, r3)
          | None => None
          end
      | None =>
          match accept "]" r1 with
          | Some r2 => Some ([v], r2)
          | None => None
          end
      end
  end.
Proof. reflexivity. Qed.

Lemma read_members_S fuel s :
  read_members (S fuel) s =
  match accept dquote s with
  | None => None
  | Some r =>
      match read_string r with
      | None => None
      | Some (k, r1) =>
          match accept ":" r1 with
          | None => None
          | Some r2 =>
              match read_value fuel r2 with
              | None => None
              | Some (v, r3) =>
                  let member := (string_of_list_ascii k, v) in
                  match accept "," r3 with
                  | Some r4 =>
                      match read_members fuel r4 with
                      | Some (ms, r5) => Some (member :: ms, r5)
                      | None => None
                      end
                  | None =>
                      match accept "}" r3 with
                      | Some r4 => Some ([member], r4)
                      | None => None
                      end
                  end
              end
          end
      end
  end.
Proof. reflexivity. Qed.

Lemma join_one (x t : chars) : join [x] ++ t = x ++ t.
Proof. reflexivity. Qed.

Lemma join_more (x y : chars) l t :
  join (x :: y :: l) ++ t = x ++ "," :: (join (y :: l) ++ t).
Proof. cbn [join]. now rewrite <- List.app_assoc. Qed.

Lemma newline_length indent : List.length (newline indent) = S indent.
Proof. unfold newline. simpl. now rewrite repeat_length. Qed.

Lemma read_item v indent tail fuel :
  reads_back v -> keyed v -> tail_ok tail = true ->
  (2 * List.length (serialize indent v ++ tail) + 1 <= fuel)%nat ->
  read_value fuel (item indent v ++ tail) = Some (stored v, tail).
Proof.
  intros Hv Hk Ht Hlen. unfold item. rewrite <- List.app_assoc.
  rewrite (read_value_skip_ws _ _ (serialize indent v ++ tail))
    by apply skip_ws_newline.
  now apply Hv.
Qed.

Lemma read_elements_join indent' indent rest vs :
  forall v fuel,
    Forall reads_back (v :: vs) -> Forall keyed (v :: vs) ->
    (2 * List.length (join (map (item indent') (v :: vs))
                      ++ newline indent ++ "]" :: rest) + 2 <= fuel)%nat ->
    read_elements fuel (join (map (item indent') (v :: vs))
                        ++ newline indent ++ "]" :: rest) =
    Some (map stored (v :: vs), rest).
Proof.
  induction vs as [|v2 vs IH]; intros v fuel Hrb Hk Hlen.
  - destruct fuel as [|fuel]; [lia|].
    cbn [map] in *. rewrite join_one in *.
    rewrite read_elements_S.
    rewrite (read_item v indent' _ fuel).
    + rewrite accept_skip, (accept_other "," "]") by reflexivity.
      rewrite accept_here by reflexivity. reflexivity.
    + now inversion Hrb.
    + now inversion Hk.
    + reflexivity.
    + unfold item in Hlen. rewrite <- List.app_assoc in Hlen.
      rewrite (length_app (newline indent')) in Hlen.
      rewrite newline_length in Hlen. lia.
  - destruct fuel as [|fuel]; [lia|].
    cbn [map] in *. rewrite join_more in *.
    rewrite read_elements_S.
    unfold item in Hlen at 1. rewrite <- List.app_assoc in Hlen.
    rewrite (length_app (newline indent')), newline_length in Hlen.
    rewrite (length_app (serialize indent' v)) in Hlen.
    cbn [List.length] in Hlen.
    rewrite (read_item v indent' _ fuel).
    + rewrite accept_now by reflexivity.
      rewrite (IH v2 fuel).
      * reflexivity.
      * now inversion Hrb.
      * now inversion Hk.
      * lia.
    + now inversion Hrb.
    + now inversion Hk.
    + reflexivity.
    + rewrite length_app. cbn [List.length]. lia.
Qed.


Lemma member_app indent p t :
  member indent p ++ t =
  newline indent ++ quote (fst p) ++ ":" :: " " :: serialize indent (snd p) ++ t.
Proof.
  unfold member. rewrite <- !List.app_assoc. reflexivity.
Qed.

Lemma quote_length k : (2 <= List.length (quote k))%nat.
Proof. unfold quote. simpl. rewrite length_app. simpl. lia. Qed.

Lemma read_member p indent tail fuel :
  reads_back (snd p) -> keyed (snd p) -> tail_ok tail = true ->
  (2 * List.length (serialize indent (snd p) ++ tail) + 1 <= fuel)%nat ->
  exists body,
    accept dquote (member indent p ++ tail) = Some body /\
    read_string body =
      Some (list_ascii_of_string (fst p),
            ":" :: " " :: serialize indent (snd p) ++ tail) /\
    read_value fuel (" " :: serialize indent (snd p) ++ tail) =
      Some (stored (snd p), tail).
Proof.
  intros Hv Hk Ht Hlen. rewrite member_app.
  destruct (read_quote (fst p) (":" :: " " :: serialize indent (snd p) ++ tail))
    as (body & Heq & Hread & _).
  exists body. rewrite accept_skip, Heq. split; [now apply accept_now|].
  split; [exact Hread|].
  rewrite (read_value_skip_ws _ _ (serialize indent (snd p) ++ tail)) by reflexivity.
  now apply Hv.
Qed.

Lemma read_members_join indent' indent rest ms :
  forall m fuel,
    Forall (fun p => reads_back (snd p)) (m :: ms) ->
    Forall (fun p => keyed (snd p)) (m :: ms) ->
    (2 * List.length (join (map (member indent') (m :: ms))
                      ++ newline indent ++ "}" :: rest) + 2 <= fuel)%nat ->
    read_members fuel (join (map (member indent') (m :: ms))
                       ++ newline indent ++ "}" :: rest) =
    Some (map (fun p => (fst p, stored (snd p))) (m :: ms), rest).
Proof.
  induction ms as [|m2 ms IH]; intros m fuel Hrb Hk Hlen.
  - destruct fuel as [|fuel]; [lia|].
    cbn [map] in *. rewrite join_one in *.
    rewrite read_members_S.
    destruct (read_member m indent' (newline indent ++ "}" :: rest) fuel)
      as (body & -> & -> & Hval).
    + now inversion Hrb.
    + now inversion Hk.
    + reflexivity.
    + rewrite member_app in Hlen.
      rewrite (length_app (newline indent')), newline_length in Hlen.
      rewrite (length_app (quote (fst m))) in Hlen.
      pose proof (quote_length (fst m)). cbn [List.length] in Hlen. lia.
    + rewrite accept_now by reflexivity. rewrite Hval.
      rewrite accept_skip, (accept_other "," "}") by reflexivity.
      rewrite accept_here by reflexivity.
      cbn [map]. now rewrite string_of_list_ascii_of_string.
  - destruct fuel as [|fuel]; [lia|].
    cbn [map] in *. rewrite join_more in *.
    rewrite read_members_S.
    rewrite member_app in Hlen.
    rewrite (length_app (newline indent')), newline_length in Hlen.
    rewrite (length_app (quote (fst m))) in Hlen.
    pose proof (quote_length (fst m)) as Hq. cbn [List.length] in Hlen.
    rewrite (length_app (serialize indent' (snd m))) in Hlen.
    cbn [List.length] in Hlen.
    destruct (read_member m indent'
                ("," :: join (member indent' m2 :: map (member indent') ms)
                     ++ newline indent ++ "}" :: rest) fuel)
      as (body & -> & -> & Hval).
    + now inversion Hrb.
    + now inversion Hk.
    + reflexivity.
    + rewrite length_app. cbn [List.length]. cbn [map]. lia.
    + rewrite accept_now by reflexivity. rewrite Hval.
      rewrite accept_now by reflexivity.
      rewrite (IH m2 fuel).
      * cbn [map]. now rewrite string_of_list_ascii_of_string.
      * now inversion Hrb.
      * now inversion Hk.
      * cbn [map]. lia.
Qed.

Lemma defined_props_keys ps :
  NoDup (map fst ps) ->
  NoDup (map fst (map (fun p : string * value => (fst p, stored (snd p)))
                      (defined_props ps))).
Proof.
  rewrite map_map. cbn [fst].
  unfold defined_props. induction ps as [|[k x] ps IH]; intros Hnd; simpl.
  - constructor.
  - inversion Hnd as [|? ? Hnotin Hnd']; subst.
    destruct (defined x); simpl; [|now apply IH].
    constructor; [|now apply IH].
    intros Hin. apply Hnotin. apply in_map_iff in Hin.
    destruct Hin as (p & Hp & Hin). apply filter_In in Hin.
    apply in_map_iff. exists p. tauto.
Qed.

Lemma Forall_defined_props (P : string * value -> Prop) ps :
  Forall P ps -> Forall P (defined_props ps).
Proof.
  intros H. apply Forall_forall. intros p Hin. apply filter_In in Hin.
  rewrite Forall_forall in H. now apply H.
Qed.

Lemma read_value_string fuel body :
  read_value (S fuel) (dquote :: body) =
  match read_string body with
  | Some (t, r') => Some (Str (string_of_list_ascii t), r')
  | None => None
  end.
Proof. reflexivity. Qed.

Lemma read_value_array fuel r :
  read_value (S fuel) ("[" :: r) =
  match accept "]" r with
  | Some r' => Some (Arr [], r')
  | None =>
      match read_elements fuel r with
      | Some (vs, r') => Some (Arr vs, r')
      | None => None
      end
  end.
Proof. reflexivity. Qed.

Lemma read_value_object fuel r :
  read_value (S fuel) ("{" :: r) =
  match accept "}" r with
  | Some r' => Some (Obj [], r')
  | None =>
      match read_members fuel r with
      | Some (ms, r') => Some (Obj (normalize ms), r')
      | None => None
      end
  end.
Proof. reflexivity. Qed.

Theorem read_serialize v : reads_back v.
Proof.
  induction v as [| |b|n| |i|s|vs IH|ps IH] using value_induction;
    intros Hk indent rest fuel Ht Hlen;
    (destruct fuel as [|fuel]; [lia|]).
  - reflexivity.
  - reflexivity.
  - destruct b; reflexivity.
  - now apply read_value_print_Z.
  - reflexivity.
  - reflexivity.
  - cbn [serialize stored].
    destruct (read_quote s rest) as (body & Heq & Hread & _).
    rewrite Heq, read_value_string, Hread.
    now rewrite string_of_list_ascii_of_string.
  - rewrite serialize_Arr in *. destruct vs as [|v vs]; [reflexivity|].
    assert (Hks : Forall keyed (v :: vs)) by now inversion Hk.
    cbn [app] in *. rewrite <- !List.app_assoc in *. cbn [app] in *.
    cbn [List.length] in Hlen.
    rewrite read_value_array.
    assert (Hno : accept "]" (join (map (item (2 + indent)) (v :: vs))
                              ++ newline indent ++ "]" :: rest) = None).
    { destruct (serialize_head (2 + indent) v) as (c & t & Hc & Ho).
      destruct (opens_value_facts c Ho) as (Hw & Hb & _).
      destruct vs as [|v2 vs]; cbn [map].
      - rewrite join_one. unfold item. rewrite <- List.app_assoc, accept_skip, Hc.
        now apply accept_other.
      - rewrite join_more. unfold item at 1.
        rewrite <- List.app_assoc, accept_skip, Hc.
        now apply accept_other. }
    rewrite Hno, (read_elements_join _ _ _ vs v fuel IH Hks) by lia.
    reflexivity.
  - rewrite serialize_Obj in *. rewrite stored_defined.
    assert (Hnd : NoDup (map fst ps)) by now inversion Hk.
    assert (Hks : Forall (fun p => keyed (snd p)) ps) by now inversion Hk.
    apply defined_props_keys in Hnd.
    apply Forall_defined_props in Hks. apply Forall_defined_props in IH.
    destruct (defined_props ps) as [|m ms]; [reflexivity|].
    cbn [app] in *. rewrite <- !List.app_assoc in *. cbn [app] in *.
    cbn [List.length] in Hlen.
    rewrite read_value_object.
    assert (Hno : accept "}" (join (map (member (2 + indent)) (m :: ms))
                              ++ newline indent ++ "}" :: rest) = None).
    { destruct (read_quote (fst m) []) as (body & Heq & _).
      assert (Hq : forall t, exists body', quote (fst m) ++ t = dquote :: body').
      { intros t. destruct (read_quote (fst m) t) as (b' & Hb' & _). eauto. }
      destruct ms as [|m2 ms]; cbn [map].
      - rewrite join_one, member_app, accept_skip.
        destruct (Hq (":" :: " " :: serialize (2 + indent) (snd m)
                      ++ newline indent ++ "}" :: rest)) as [b' ->].
        now apply accept_other.
      - rewrite join_more, member_app, accept_skip.
        match goal with
        | |- accept _ (quote _ ++ ?t) = _ => destruct (Hq t) as [b' ->]
        end.
        now apply accept_other. }
    rewrite Hno, (read_members_join _ _ _ ms m fuel IH Hks) by lia.
    now rewrite (normalize_distinct _ Hnd).
Qed.

(** ** Fuel *)

Lemma read_value_S fuel s :
  read_value (S fuel) s =
  match skip_ws s with
  | [] => None
  | c :: r =>
      if Ascii.eqb c "{" then
        match accept "}" r with
        | Some r' => Some (Obj [], r')
        | None =>
            match read_members fuel r with
            | Some (ms, r') => Some (Obj (normalize ms), r')
            | None => None
            end
        end
      else if Ascii.eqb c "[" then
        match accept "]" r with
        | Some r' => Some (Arr [], r')
        | None =>
            match read_elements fuel r with
            | Some (vs, r') => Some (Arr vs, r')
            | None => None
            end
        end
      else if Ascii.eqb c dquote then
        match read_string r with
        | Some (t, r') => Some (Str (string_of_list_ascii t), r')
        | None => None
        end
      else if Ascii.eqb c "t" then
        match expect (lit "rue") r with
        | Some r' => Some (Bool true, r')
        | None => None
        end
      else if Ascii.eqb c "f" then
        match expect (lit "alse") r with
        | Some r' => Some (Bool false, r')
        | None => None
        end
      else if Ascii.eqb c "n" then
        match expect (lit "ull") r with
        | Some r' => Some (Null, r')
        | None => None
        end
      else read_number (c :: r)
  end.
Proof. reflexivity. Qed.

Lemma skip_ws_length s : (List.length (skip_ws s) <= List.length s)%nat.
Proof.
  induction s as [|c s IH]; simpl; [lia|].
  destruct (is_ws c); simpl; lia.
Qed.

Lemma accept_length c s r :
  accept c s = Some r -> (List.length r < List.length s)%nat.
Proof.
  unfold accept. pose proof (skip_ws_length s) as Hs.
  destruct (skip_ws s) as [|c' rest]; [discriminate|].
  destruct (Ascii.eqb c' c); [|discriminate].
  intros H. injection H as <-. simpl in Hs. lia.
Qed.

Lemma prepend_length p x t r :
  prepend p x = Some (t, r) -> exists t', x = Some (t', r).
Proof.
  unfold prepend. destruct x as [[t' r']|]; [|discriminate].
  intros H. injection H as _ <-. eauto.
Qed.

Lemma read_string_length_upto n :
  forall s t r, (List.length s <= n)%nat -> read_string s = Some (t, r) ->
                (List.length r < List.length s)%nat.
Proof.
  induction n as [|n IH]; intros s t r Hn.
  - destruct s; [discriminate|simpl in Hn; lia].
  - destruct s as [|c s1]; [discriminate|]. cbn [read_string].
    simpl in Hn.
    destruct (Ascii.eqb c dquote).
    { intros H. injection H as _ <-. simpl. lia. }
    destruct (Ascii.eqb c backslash).
    + destruct s1 as [|e s2]; [discriminate|]. simpl in Hn.
      destruct (simple_escape e).
      * intros H. apply prepend_length in H. destruct H as [t' H].
        apply IH in H; simpl in *; lia.
      * destruct (Ascii.eqb e "u"); [|discriminate].
        destruct s2 as [|h1 [|h2 [|h3 [|h4 s3]]]]; try discriminate.
        destruct (hex4 h1 h2 h3 h4); [|discriminate].
        intros H. apply prepend_length in H. destruct H as [t' H].
        apply IH in H; simpl in *; lia.
    + destruct (nat_of_ascii c <? 32)%nat; [discriminate|].
      intros H. apply prepend_length in H. destruct H as [t' H].
      apply IH in H; simpl in *; lia.
Qed.

Lemma read_string_length s t r :
  read_string s = Some (t, r) -> (List.length r < List.length s)%nat.
Proof. apply (read_string_length_upto (List.length s)). lia. Qed.

Lemma expect_length w : forall s r,
  expect w s = Some r -> (List.length r <= List.length s)%nat.
Proof.
  induction w as [|c w IH]; intros s r; simpl.
  - intros H. injection H as <-. lia.
  - destruct s as [|c' s]; [discriminate|].
    destruct (Ascii.eqb c c'); [|discriminate].
    intros H. apply IH in H. simpl. lia.
Qed.

Lemma read_uint_length s :
  (List.length (snd (read_uint s)) <= List.length s)%nat.
Proof.
  induction s as [|c s IH]; simpl; [lia|].
  destruct (read_uint s) as [u r]. simpl in IH.
  destruct c as [[] [] [] [] [] [] [] []]; simpl; lia.
Qed.

Lemma read_number_length s v r :
  read_number s = Some (v, r) -> (List.length r <= List.length s)%nat.
Proof.
  unfold read_number.
  assert (H : forall (s' : chars) (negative : bool),
             (List.length s' <= List.length s)%nat ->
             (let (u, rest) := read_uint s' in
              if canonical u && integer_ends rest
              then Some (Num (Z.of_int (if negative then Decimal.Neg u
                                        else Decimal.Pos u)), rest)
              else None) = Some (v, r) ->
             (List.length r <= List.length s)%nat).
  { intros s' negative Hle. pose proof (read_uint_length s') as Hu.
    destruct (read_uint s') as [u rest]. simpl in Hu.
    destruct (canonical u && integer_ends rest); [|discriminate].
    intros H. injection H as _ <-. lia. }
  destruct s as [|c s1]; [apply (H [] false); simpl; lia|].
  destruct (Ascii.eqb_spec c "-") as [->|Hne].
  - apply (H s1 true). simpl. lia.
  - intros Hr. apply (H (c :: s1) false); [lia|].
    destruct c as [[] [] [] [] [] [] [] []]; try exact Hr. now contradiction Hne.
Qed.

(** What is left after a value, a list of members or a list of elements is
    no longer than the text. *)
Lemma read_length fuel :
  (forall s v r, read_value fuel s = Some (v, r) ->
                 (List.length r <= List.length s)%nat) /\
  (forall s ms r, read_members fuel s = Some (ms, r) ->
                  (List.length r <= List.length s)%nat) /\
  (forall s vs r, read_elements fuel s = Some (vs, r) ->
                  (List.length r <= List.length s)%nat).
Proof.
  induction fuel as [|fuel (IHv & IHm & IHe)];
    [repeat split; intros; discriminate|].
  split; [|split].
  - intros s v r. rewrite read_value_S.
    pose proof (skip_ws_length s) as Hs.
    destruct (skip_ws s) as [|c rest]; [discriminate|]. simpl in Hs.
    destruct (Ascii.eqb c "{").
    { destruct (accept "}" rest) as [r'|] eqn:Ha.
      - intros H. injection H as _ <-. apply accept_length in Ha. lia.
      - destruct (read_members fuel rest) as [[ms r']|] eqn:Hm; [|discriminate].
        intros H. injection H as _ <-. apply IHm in Hm. lia. }
    destruct (Ascii.eqb c "[").
    { destruct (accept "]" rest) as [r'|] eqn:Ha.
      - intros H. injection H as _ <-. apply accept_length in Ha. lia.
      - destruct (read_elements fuel rest) as [[vs r']|] eqn:He; [|discriminate].
        intros H. injection H as _ <-. apply IHe in He. lia. }
    destruct (Ascii.eqb c dquote).
    { destruct (read_string rest) as [[t r']|] eqn:Hr; [|discriminate].
      intros H. injection H as _ <-. apply read_string_length in Hr. lia. }
    destruct (Ascii.eqb c "t").
    { destruct (expect (lit "rue") rest) as [r'|] eqn:Hx; [|discriminate].
      intros H. injection H as _ <-. apply expect_length in Hx. lia. }
    destruct (Ascii.eqb c "f").
    { destruct (expect (lit "alse") rest) as [r'|] eqn:Hx; [|discriminate].
      intros H. injection H as _ <-. apply expect_length in Hx. lia. }
    destruct (Ascii.eqb c "n").
    { destruct (expect (lit "ull") rest) as [r'|] eqn:Hx; [|discriminate].
      intros H. injection H as _ <-. apply expect_length in Hx. lia. }
    intros H. apply read_number_length in H. simpl in H. lia.
  - intros s ms r. rewrite read_members_S.
    destruct (accept dquote s) as [r0|] eqn:Ha; [|discriminate].
    destruct (read_string r0) as [[k r1]|] eqn:Hk; [|discriminate].
    destruct (accept ":" r1) as [r2|] eqn:Hc; [|discriminate].
    destruct (read_value fuel r2) as [[v r3]|] eqn:Hv; [|discriminate].
    apply accept_length in Ha, Hc. apply read_string_length in Hk. apply IHv in Hv.
    destruct (accept "," r3) as [r4|] eqn:Hcomma.
    + destruct (read_members fuel r4) as [[ms' r5]|] eqn:Hm; [|discriminate].
      intros H. injection H as _ <-. apply accept_length in Hcomma. apply IHm in Hm. lia.
    + destruct (accept "}" r3) as [r4|] eqn:Hclose; [|discriminate].
      intros H. injection H as _ <-. apply accept_length in Hclose. lia.
  - intros s vs r. rewrite read_elements_S.
    destruct (read_value fuel s) as [[v r1]|] eqn:Hv; [|discriminate].
    apply IHv in Hv.
    destruct (accept "," r1) as [r2|] eqn:Hcomma.
    + destruct (read_elements fuel r2) as [[vs' r3]|] eqn:He; [|discriminate].
      intros H. injection H as _ <-. apply accept_length in Hcomma. apply IHe in He. lia.
    + destruct (accept "]" r1) as [r2|] eqn:Hclose; [|discriminate].
      intros H. injection H as _ <-. apply accept_length in Hclose. lia.
Qed.

(** Above twice the length of the text, more fuel changes nothing. *)
Lemma fuel_step fuel :
  (forall s, (2 * List.length s + 1 <= fuel)%nat ->
             read_value (S fuel) s = read_value fuel s) /\
  (forall s, (2 * List.length s + 2 <= fuel)%nat ->
             read_members (S fuel) s = read_members fuel s) /\
  (forall s, (2 * List.length s + 2 <= fuel)%nat ->
             read_elements (S fuel) s = read_elements fuel s).
Proof.
  induction fuel as [|fuel (IHv & IHm & IHe)];
    [repeat split; intros; lia|].
  split; [|split].
  - intros s Hlen. rewrite (read_value_S (S fuel)), (read_value_S fuel).
    pose proof (skip_ws_length s) as Hs.
    destruct (skip_ws s) as [|c rest]; [reflexivity|]. simpl in Hs.
    destruct (Ascii.eqb c "{").
    { destruct (accept "}" rest); [reflexivity|]. rewrite IHm by lia. reflexivity. }
    destruct (Ascii.eqb c "[").
    { destruct (accept "]" rest); [reflexivity|]. rewrite IHe by lia. reflexivity. }
    reflexivity.
  - intros s Hlen. rewrite (read_members_S (S fuel)), (read_members_S fuel).
    destruct (accept dquote s) as [r0|] eqn:Ha; [|reflexivity].
    destruct (read_string r0) as [[k r1]|] eqn:Hk; [|reflexivity].
    destruct (accept ":" r1) as [r2|] eqn:Hc; [|reflexivity].
    apply accept_length in Ha, Hc. apply read_string_length in Hk.
    rewrite IHv by lia.
    destruct (read_value fuel r2) as [[v r3]|] eqn:Hv; [|reflexivity].
    apply (proj1 (read_length fuel)) in Hv.
    destruct (accept "," r3) as [r4|] eqn:Hcomma; [|reflexivity].
    apply accept_length in Hcomma. rewrite IHm by lia. reflexivity.
  - intros s Hlen. rewrite (read_elements_S (S fuel)), (read_elements_S fuel).
    rewrite IHv by lia.
    destruct (read_value fuel s) as [[v r1]|] eqn:Hv; [|reflexivity].
    apply (proj1 (read_length fuel)) in Hv.
    destruct (accept "," r1) as [r2|] eqn:Hcomma; [|reflexivity].
    apply accept_length in Hcomma. rewrite IHe by lia. reflexivity.
Qed.

(** The fuel [parse] gives is enough: a failure is a syntax error. *)
Theorem parse_fuel s fuel :
  (2 * List.length s + 1 <= fuel)%nat ->
  read_value fuel s = read_value (2 * List.length s + 1) s.
Proof.
  intros H. induction H as [|fuel Hle IH]; [reflexivity|].
  rewrite <- IH. apply (proj1 (fuel_step fuel)). exact Hle.
Qed.

(** The executable runtime meets the contract of the two JSON functions. *)
Theorem runtime_faithful : faithful_JSON Node.runtime.
Proof.
  intros v Hk Hdef. exists (string_of_list_ascii (serialize 0 v)). split.
  - destruct v; try reflexivity. now contradiction Hdef.
  - cbn [JSON_parse runtime]. unfold parse.
    rewrite list_ascii_of_string_of_list_ascii.
    pose proof (read_serialize v Hk 0%nat [] (2 * List.length (serialize 0 v) + 1)%nat
                  eq_refl) as H.
    rewrite List.app_nil_r in H. rewrite H; [reflexivity|lia].
Qed.

End NodeFacts.

(* ================================================================== *)
(** * Saving and loading                                                 *)
(* ================================================================== *)

Section RoundTrip.
Context {rt : Runtime}.

Lemma data_keyed v : data v -> keyed v.
Proof.
  induction v as [| |b|n| |i|s|vs IH|ps IH] using NodeFacts.value_induction;
    intros Hd; inversion Hd as [| | | |? Hvs|? Hnd Hps]; subst;
    try constructor; try assumption.
  - rewrite Forall_forall in *. intros x Hin. apply IH; auto.
  - rewrite Forall_forall in *. intros p Hin. apply IH; auto.
Qed.

Lemma data_stored v : data v -> stored v = v.
Proof.
  induction v as [| |b|n| |i|s|vs IH|ps IH] using NodeFacts.value_induction;
    intros Hd; inversion Hd as [| | | |? Hvs|? Hnd Hps]; subst; try reflexivity.
  - simpl. f_equal. clear Hd.
    induction vs as [|x vs IHvs]; [reflexivity|].
    inversion IH; inversion Hvs; subst. simpl. f_equal; auto.
  - simpl. f_equal. clear Hnd Hd.
    induction ps as [|[k x] ps IHps]; [reflexivity|].
    inversion IH as [|? ? Hx IH']; inversion Hps as [|? ? Hdx Hps']; subst.
    simpl in *. rewrite (IHps IH' Hps'), (Hx Hdx).
    destruct x; try reflexivity. inversion Hdx.
Qed.

(** A property of JSON data is JSON data, or is absent. *)
Lemma data_get tokenData k v :
  data tokenData -> get tokenData k = Normal v -> v = Undefined \/ data v.
Proof.
  intros Hd. destruct tokenData as [| |b|n| |i|s|vs|ps]; simpl; intros H;
    try discriminate H; try (injection H as <-; now left).
  injection H as <-. inversion Hd as [| | | | |? _ Hps]; subst.
  clear Hd. induction ps as [|[k' x] ps IH]; simpl; [now left|].
  inversion Hps as [|? ? Hx Hps']; subst. simpl in Hx.
  destruct (String.eqb k k'); [now right|now apply IH].
Qed.

Lemma lookup_absent k ps : ~ In k (map fst ps) -> lookup k (stored_props ps) = None.
Proof.
  induction ps as [|[k' x] ps IH]; simpl; [reflexivity|].
  intros Hn.
  assert (Hne : String.eqb k k' = false).
  { apply String.eqb_neq. intros ->. apply Hn. now left. }
  assert (Hrest : lookup k (stored_props ps) = None) by (apply IH; tauto).
  destruct x; simpl; rewrite ?Hne; exact Hrest.
Qed.

(** Reading a property of a record before and after it went through JSON. *)
Lemma get_stored_record ps k :
  NoDup (map fst ps) ->
  Forall (fun p => snd p = Undefined \/ data (snd p)) ps ->
  get (stored (Obj ps)) k = get (Obj ps) k.
Proof.
  intros Hnd Hps. simpl. f_equal. fold (stored_props ps).
  induction ps as [|[k' x] ps IH]; [reflexivity|].
  inversion Hnd as [|? ? Hnotin Hnd']; inversion Hps as [|? ? Hx Hps']; subst.
  simpl in Hx. simpl lookup at 2.
  destruct (String.eqb_spec k k') as [->|Hne].
  - destruct Hx as [->|Hx].
    + simpl. now rewrite (lookup_absent _ _ Hnotin).
    + rewrite <- (data_stored _ Hx) at 2.
      destruct x; simpl; rewrite ?String.eqb_refl; try reflexivity.
      inversion Hx.
  - rewrite <- (IH Hnd' Hps').
    apply String.eqb_neq in Hne.
    destruct x; simpl; rewrite ?Hne; reflexivity.
Qed.

(** The file a successful [save()] leaves parses to a record with the
    fields of the one it built. *)
Lemma saved_file_parses tokenData st st1 :
  faithful_JSON rt -> data tokenData ->
  (forall jwt x, get tokenData "jwt" = Normal jwt ->
                 getTokenExpiration jwt = Normal x -> null_or_integer x) ->
  saveTokenToCache tokenData st = (Normal true, st1) ->
  exists text record,
    cacheFile st1 = Some text /\ JSON_parse text = Some record /\
    forall k, get record k = get (cachedToken st1) k.
Proof.
  intros Hrt Hdata Hexp Hsave.
  destruct (saveTokenToCache_true _ _ _ Hsave)
    as (jwt & n & l & g & key & x & text & Hj & Hn & Hl & Hg & Hk & Hx
        & Hstr & Hcached & Hfile & _).
  set (cacheData := cacheData_literal jwt n l g key (clock st) x) in *.
  assert (Hkinds : x = Undefined \/ data x).
  { destruct (Hexp jwt x Hj Hx) as [->|[z ->]]; right; constructor. }
  assert (Hfields :
            Forall (fun p : string * value => snd p = Undefined \/ data (snd p))
                   [("jwt", jwt); ("isNIEUser", n); ("isLDAPEnabled", l);
                    ("hasGroupAccess", g); ("key", key);
                    ("cachedAt", Num (clock st)); ("expiresAt", x)]%string).
  { assert (Hdg : forall k v, get tokenData k = Normal v -> v = Undefined \/ data v)
      by (intros k v Hv; exact (data_get _ _ _ Hdata Hv)).
    repeat (apply Forall_cons;
            [simpl; first [exact Hkinds | now eapply Hdg; eauto | right; constructor]|]).
    apply Forall_nil. }
  assert (Hnd : NoDup (map fst
                   [("jwt", jwt); ("isNIEUser", n); ("isLDAPEnabled", l);
                    ("hasGroupAccess", g); ("key", key);
                    ("cachedAt", Num (clock st)); ("expiresAt", x)]%string)).
  { simpl. repeat constructor; simpl; intuition discriminate. }
  assert (Hkeyed : keyed cacheData).
  { constructor; [exact Hnd|].
    eapply Forall_impl; [|exact Hfields]. intros p [->|Hd];
      [constructor|now apply data_keyed]. }
  destruct (Hrt cacheData Hkeyed) as (text' & Hstr' & Hparse); [discriminate|].
  rewrite Hstr in Hstr'. injection Hstr' as <-.
  exists text, (stored cacheData). split; [exact Hfile|]. split; [exact Hparse|].
  intros k. rewrite Hcached. now apply get_stored_record.
Qed.


End RoundTrip.

(* ================================================================== *)
(** * Scenarios on the executable runtime                                *)
(* ================================================================== *)

Lemma token_without_expiry_decodes :
  decodes_to (rt := Node.runtime) token_without_expiry (Obj []) (Obj []) "x".
Proof.
  exists "e30.e30.x"%string, "e30"%string, "e30"%string.
  repeat split; vm_compute; reflexivity.
Qed.

Lemma decodeJWT_contract_witness :
  decodeJWT (rt := Node.runtime) token_without_expiry =
    Normal (decoded_object (Obj []) (Obj []) "x") /\
  decodeJWT (rt := Node.runtime) (Str "e30.e30") = Normal Null /\
  decodeJWT (rt := Node.runtime) (Str "e30.bm90.x") = Normal Null.
Proof.
  split; [|split].
  - destruct (decodeJWT_contract (rt := Node.runtime) token_without_expiry)
      as (_ & _ & _ & _ & _ & H).
    apply (H "e30.e30.x"%string "e30"%string "e30"%string "x"%string);
      vm_compute; reflexivity.
  - destruct (decodeJWT_contract (rt := Node.runtime) (Str "e30.e30"))
      as (_ & _ & _ & H & _).
    apply (H "e30.e30"%string); [reflexivity|]. vm_compute. discriminate.
  - destruct (decodeJWT_contract (rt := Node.runtime) (Str "e30.bm90.x"))
      as (_ & _ & _ & _ & H & _).
    apply (H "e30.bm90.x"%string "e30"%string "bm90"%string "x"%string);
      [reflexivity|reflexivity|]. right. vm_compute. reflexivity.
Defined.

Lemma isCachedTokenValid_buffer_witness :
  isCachedTokenValid (rt := Node.runtime)
    (cached_record token_without_expiry (Num 1000000)) (fresh 700000) =
    (Normal false, fresh 700000) /\
  isCachedTokenValid (rt := Node.runtime)
    (cached_record token_without_expiry (Num 1000000)) (fresh 699999) =
    (Normal true, fresh 699999).
Proof.
  split.
  - destruct (isCachedTokenValid_buffer (rt := Node.runtime)
                (cached_record token_without_expiry (Num 1000000))
                token_without_expiry 1000000 (fresh 700000)
                eq_refl eq_refl eq_refl)
      as (_ & H & _).
    apply H; [discriminate|]. simpl. lia.
  - destruct (isCachedTokenValid_buffer (rt := Node.runtime)
                (cached_record token_without_expiry (Num 1000000))
                token_without_expiry 1000000 (fresh 699999)
                eq_refl eq_refl eq_refl)
      as (_ & _ & H).
    apply H; [simpl; lia|].
    exists (Obj []), (Obj []), "x"%string. exact token_without_expiry_decodes.
Defined.

(** C2 as stated fails at [expiresAt = 0]: the record has a token and a
    non-null [expiresAt], the current time is past [expiresAt - 300000], and
    the record is reported valid. *)
Lemma isCachedTokenValid_epoch_expiresAt :
  get (cached_record token_without_expiry (Num 0)) "jwt" = Normal token_without_expiry /\
  truthy token_without_expiry = true /\
  get (cached_record token_without_expiry (Num 0)) "expiresAt" = Normal (Num 0) /\
  clock (fresh 1000) >= 0 - 300000 /\
  isCachedTokenValid (rt := Node.runtime)
    (cached_record token_without_expiry (Num 0)) (fresh 1000) =
    (Normal true, fresh 1000).
Proof.
  repeat split. simpl. lia.
Qed.

Lemma unset_expiry_never_expires_witness :
  (forall st, isCachedTokenValid (rt := Node.runtime)
                (cached_record token_without_expiry Null) st = (Normal true, st)) /\
  getTokenExpiration (rt := Node.runtime) token_without_expiry = Normal Null /\
  (forall st, isJWTExpired (rt := Node.runtime) token_without_expiry st =
              (Normal true, st)).
Proof.
  assert (Hd : decodes (rt := Node.runtime) token_without_expiry).
  { exists (Obj []), (Obj []), "x"%string. exact token_without_expiry_decodes. }
  destruct (unset_expiry_never_expires (rt := Node.runtime)
              (cached_record token_without_expiry Null) token_without_expiry Null
              eq_refl eq_refl (or_introl eq_refl) Hd)
    as (Hvalid & Hexpired).
  destruct (Hexpired (Obj []) (Obj []) "x"%string token_without_expiry_decodes eq_refl)
      as (Hexp & Hjwt).
  split; [exact Hvalid|]. split; [exact Hexp|exact Hjwt].
Defined.

Lemma loadTokenFromCache_self_heals_witness :
  (exists st',
     loadTokenFromCache (rt := Node.runtime) (with_file "{ not json" 0) =
       (Normal Null, st') /\
     cacheFile st' = None /\ cachedToken st' = Null) /\
  (exists st',
     loadTokenFromCache (rt := Node.runtime) (with_undeletable_file "{ not json" 0) =
       (Normal Null, st') /\
     cacheFile st' = Some "{ not json"%string).
Proof.
  split.
  - destruct (loadTokenFromCache_self_heals (rt := Node.runtime)
                (with_file "{ not json" 0)) as (H & _).
    apply (H "{ not json"%string); [reflexivity|]. vm_compute. reflexivity.
  - destruct (loadTokenFromCache_self_heals (rt := Node.runtime)
                (with_undeletable_file "{ not json" 0)) as (H & _).
    destruct (H "{ not json"%string) as (st' & Hl & Hf & _);
      [reflexivity|vm_compute; reflexivity|].
    exists st'. split; [exact Hl|exact Hf].
Defined.

(** C4 as stated fails when the file system refuses the removal: the file
    exists, its contents do not parse, and after the call it is still
    there (the call returns [null] all the same). *)
Lemma loadTokenFromCache_undeletable_file :
  cacheFile (with_undeletable_file "{ not json" 0) = Some "{ not json"%string /\
  JSON_parse (Runtime := Node.runtime) "{ not json" = None /\
  loadTokenFromCache (rt := Node.runtime) (with_undeletable_file "{ not json" 0) =
    (Normal Null, with_undeletable_file "{ not json" 0) /\
  cacheFile (snd (loadTokenFromCache (rt := Node.runtime)
                    (with_undeletable_file "{ not json" 0))) =
    Some "{ not json"%string.
Proof. repeat split; vm_compute; reflexivity. Qed.



Lemma granted_response_data : data granted_response.
Proof.
  constructor.
  - simpl. repeat constructor; simpl; intuition discriminate.
  - repeat constructor.
Qed.



(** The same for a token whose expiry claim is a number so large that a
    thousand times it is beyond the doubles: the saved record has
    [expiresAt = Infinity], the loaded one has [expiresAt = null]. *)
Lemma save_then_load_overflowing_expiry :
  fst (saveTokenToCache (rt := Node.runtime) overflowing_response (fresh 5000)) =
    Normal true /\
  get (cachedToken (snd (saveTokenToCache (rt := Node.runtime) overflowing_response
                           (fresh 5000))))
      "expiresAt" = Normal (Infinity true) /\
  exists loaded st2,
    loadTokenFromCache (rt := Node.runtime)
      (snd (saveTokenToCache (rt := Node.runtime) overflowing_response (fresh 5000))) =
      (Normal loaded, st2) /\
    get loaded "expiresAt" = Normal Null.
Proof.
  split; [vm_compute; reflexivity|]. split; [vm_compute; reflexivity|].
  eexists. eexists. split; [vm_compute; reflexivity|]. reflexivity.
Qed.

Lemma waitForUrls_all_ready_witness :
  exists r,
    waitForUrls 2 two_sites ["http://x/a"; "http://x/b"]%string (Some 1000) = Some r /\
    result r = [true; true] /\
    map slept (per_url r) = [0; 1000] /\
    waitForUrls 1 two_sites ["http://x/a"; "http://x/b"]%string (Some 1000) = None.
Proof.
  destruct (waitForUrls_all_ready two_sites ["http://x/a"; "http://x/b"]%string
              (Some 1000))
    as (_ & _ & _ & _ & Hres & Hnever & _).
  destruct (waitForUrls 2 two_sites ["http://x/a"; "http://x/b"]%string (Some 1000))
    as [r|] eqn:Hw; [|vm_compute in Hw; discriminate Hw].
  destruct (Hres _ _ Hw) as (Hresult & _ & _).
  exists r. split; [reflexivity|]. split; [exact Hresult|].
  vm_compute in Hw. injection Hw as <-. split; [reflexivity|].
  apply (Hnever 1%nat "http://x/b"%string); [simpl; tauto|].
  intros j Hj. assert (j = 0%nat) as -> by lia. vm_compute. discriminate.
Defined.

(** C9 as stated fails for an interval beyond what a timer takes: with
    [interval = 2147483648] the second request to [/b] follows the first
    after a timer of 1 millisecond. *)
Lemma waitForUrls_interval_beyond_timer :
  exists r,
    waitForUrls 2 two_sites ["http://x/a"; "http://x/b"]%string (Some 2147483648) =
      Some r /\
    map polls (per_url r) = [1%nat; 2%nat] /\
    map slept (per_url r) = [0; 1] /\
    resolved_after r = 1.
Proof. eexists. split; [vm_compute; reflexivity|]. repeat split. Qed.

Lemma shouldInit_exactly_witness :
  launch false darwin "n8n" background_enabled true = None /\
  launch false darwin "n8n" background_enabled false <> None /\
  launch true win32 "n8n" background_disabled true <> None.
Proof.
  split; [|split].
  - destruct (shouldInit_exactly false darwin "n8n" background_enabled true)
      as (_ & H & _). apply H. reflexivity.
  - destruct (shouldInit_exactly false darwin "n8n" background_enabled false)
      as (_ & _ & H). apply H; [reflexivity|now left].
  - destruct (shouldInit_exactly true win32 "n8n" background_disabled true)
      as (_ & _ & H). apply H; [reflexivity|now right; right].
Defined.

(** C6 as stated fails with the port in use and background-process mode
    disabled: [shouldInit] is true and the child is started. *)
Lemma shouldInit_port_in_use_background_off :
  bgEnabled background_disabled = false /\
  shouldInit (bgEnabled background_disabled) true = true /\
  launch false darwin "n8n" background_disabled true =
    Some (Respawn ["n8n"%string] 10).
Proof. repeat split. Qed.

(** C1, on the code.  [initialize] with an empty or absent bearer token and
    [exitOnFailure = true] sends nothing over the network and, the class
    having no member [exitProcess], ends in a [TypeError] instead of ending
    the process with exit code 1; so do the paths written for the codes 3
    (nothing acquired) and 2 (a credential without any access), through the
    handler written for code 4.  With [process.exit] in the place of the
    missing member the codes 1, 3 and 2 come out. *)
Theorem initialize_exit_codes :
  (forall (rt : Runtime) (st : State),
      initialize (Str EmptyString) true st = (Throw exitProcess_TypeError, st) /\
      initialize Undefined true st = (Throw exitProcess_TypeError, st) /\
      initialize_via process_exit (Str EmptyString) true st = (Exit 1, st)) /\
  fst (initialize (rt := Node.runtime) (Str "bearer") true (fresh 0)) =
    Throw exitProcess_TypeError /\
  fst (initialize_via (rt := Node.runtime) process_exit (Str "bearer") true (fresh 0)) =
    Exit 3 /\
  fst (initialize (rt := Node.runtime) (Str "bearer") true
         (answering denied_response 0)) =
    Throw exitProcess_TypeError /\
  fst (initialize_via (rt := Node.runtime) process_exit (Str "bearer") true
         (answering denied_response 0)) =
    Exit 2 /\
  fst (initialize (rt := Node.runtime) (Str "bearer") true
         (answering granted_response 0)) =
    Normal true.
Proof.
  split; [intros rt st; repeat split|].
  repeat split; vm_compute; reflexivity.
Qed.

(** C5, on the code.  With the expiry claim equal to the current second
    ([exp = 1000], [Date.now() = 1000000], and up to [1000999]),
    [isJWTExpired] reports the token as not expired, its test being
    [exp < currentTime]; [isCachedTokenValid], on the record saved for the
    same token at the same instants, reports it expired. *)
Theorem isJWTExpired_at_expiry_second :
  isJWTExpired (rt := Node.runtime) token_expiring_at_1000 (fresh 1000000) =
    (Normal false, fresh 1000000) /\
  isJWTExpired (rt := Node.runtime) token_expiring_at_1000 (fresh 1000999) =
    (Normal false, fresh 1000999) /\
  isJWTExpired (rt := Node.runtime) token_expiring_at_1000 (fresh 1001000) =
    (Normal true, fresh 1001000) /\
  getTokenExpiration (rt := Node.runtime) token_expiring_at_1000 =
    Normal (Num 1000000) /\
  isCachedTokenValid (rt := Node.runtime)
    (cached_record token_expiring_at_1000 (Num 1000000)) (fresh 1000000) =
    (Normal false, fresh 1000000).
Proof. repeat split. Qed.

(* ================================================================== *)
(** * Strings                                                            *)
(* ================================================================== *)

Lemma length_append (a b : string) :
  String.length (a ++ b) = (String.length a + String.length b)%nat.
Proof. induction a as [|c a IH]; simpl; [reflexivity|now rewrite IH]. Qed.

Lemma append_assoc (a b c : string) : ((a ++ b) ++ c = a ++ (b ++ c))%string.
Proof. induction a as [|x a IH]; simpl; [reflexivity|now rewrite IH]. Qed.

Lemma substring_suffix (a b : string) :
  substring (String.length a) (String.length b) (a ++ b) = b.
Proof.
  induction a as [|c a IH]; simpl; [|exact IH].
  induction b as [|c b IH]; simpl; [reflexivity|now rewrite IH].
Qed.

Lemma endsWith_suffix (a b suffix : string) :
  String.length suffix = String.length b ->
  endsWith (a ++ b) suffix = String.eqb b suffix.
Proof.
  intros Hlen. unfold endsWith. rewrite length_append, Hlen.
  replace (String.length a + String.length b - String.length b)%nat
    with (String.length a) by lia.
  rewrite substring_suffix.
  replace (String.length b <=? String.length a + String.length b)%nat with true
    by (symmetry; apply Nat.leb_le; lia).
  reflexivity.
Qed.

Lemma split_on_nonempty sep s : split_on sep s <> [].
Proof.
  induction s as [|c s IH]; simpl; [discriminate|].
  destruct (Ascii.eqb c sep); [discriminate|].
  destruct (split_on sep s); [contradiction|discriminate].
Qed.

Lemma split_on_append sep a b :
  split_on sep (a ++ String sep b) = split_on sep a ++ split_on sep b.
Proof.
  induction a as [|c a IH]; simpl.
  - now rewrite Ascii.eqb_refl.
  - rewrite IH. destruct (Ascii.eqb c sep); [reflexivity|].
    pose proof (split_on_nonempty sep a) as Hne.
    destruct (split_on sep a); [contradiction|reflexivity].
Qed.

Lemma split_on_dotless s : dotless s = true -> split_on dot s = [s].
Proof.
  induction s as [|c s IH]; [reflexivity|]. cbn [dotless split_on]. intros H.
  apply andb_true_iff in H. destruct H as [Hc Hs]. apply negb_true_iff in Hc.
  rewrite (IH Hs). unfold dot. now rewrite Hc.
Qed.

(* ================================================================== *)
(** * More properties of the access gate and of the session             *)
(* ================================================================== *)

Section SessionFacts.
Context {rt : Runtime}.

Ltac unfold_io :=
  unfold bind, ret, lift, throw, try_catchM, Date_now, set_cachedToken,
    set_jwtToken, set_lastResponse.

Ltac case_get o k :=
  let v := fresh "v" in
  let e := fresh "e" in
  destruct (get_cases o k) as [[v ->]|[e ->]]; simpl.

Lemma get_defined o k v : get o k = Normal v -> forall k', exists v', get o k' = Normal v'.
Proof. intros H k'. destruct o; simpl in *; try discriminate H; eauto. Qed.

Lemma truthy_get o : truthy o = true -> forall k, exists v, get o k = Normal v.
Proof. intros H k. destruct o; simpl in *; try discriminate H; eauto. Qed.

(** ** What [initialize] returns *)

(** What [initialize] does with [exitOnFailure = true]. *)
Lemma initialize_outcome bearerToken st :
  (exists st', initialize bearerToken true st = (Normal true, st') /\
               falsy bearerToken = false /\
               truthy (lastResponse st') = true /\
               authorized (lastResponse st') = true) \/
  (exists st', initialize bearerToken true st = (Throw exitProcess_TypeError, st')).
Proof.
  destruct (falsy bearerToken) eqn:Hf.
  - right. exists st. now apply initialize_no_token.
  - destruct (getValidToken_outcome bearerToken st)
      as [(data & st' & Hg & _)|(st' & Hg)].
    + destruct (truthy data) eqn:Ht.
      * destruct (expiry_date_fails data) eqn:Hdate.
        -- right. destruct (initialize_date_fails _ _ _ _ Hf Hg Ht Hdate) as [H _].
           eauto.
        -- pose proof (initialize_acquired _ _ _ _ Hf Hg Ht Hdate) as H.
           destruct (authorized data) eqn:Ha.
           ++ left. exists (with_lastResponse data st'). destruct H as [H _].
              split; [exact H|]. simpl. auto.
           ++ right. destruct H as [H _]. eauto.
      * right. destruct (initialize_nothing_acquired _ _ _ _ Hf Hg Ht) as [H _]. eauto.
    + right. destruct (initialize_token_throws _ _ _ _ Hf Hg) as [H _]. eauto.
Qed.

(** [hasGroupAccess()] with a record in [lastResponse]. *)
Lemma hasGroupAccess_reads st :
  truthy (lastResponse st) = true ->
  exists flag,
    get (lastResponse st) "hasGroupAccess" = Normal flag /\
    hasGroupAccess st = (Normal (or_else flag (Bool false)), st).
Proof.
  intros Ht. destruct (truthy_get _ Ht "hasGroupAccess"%string) as [flag Hf].
  exists flag. split; [exact Hf|]. unfold hasGroupAccess.
  assert (Ho : get_opt (lastResponse st) "hasGroupAccess" = Normal flag)
    by (destruct (lastResponse st); simpl in *; try discriminate Ht; exact Hf).
  now rewrite Ho.
Qed.

(** X1. With [exitOnFailure = true], [initialize] never returns false and
    never ends the process: it returns true, with a record in
    [lastResponse] that has one of the three access flags (and
    [hasGroupAccess()] then answers with that record's flag, or false), or it
    throws the [TypeError] of the missing member [exitProcess]. *)
Theorem initialize_true_or_TypeError (bearerToken : value) (st : State) :
  (exists st', initialize bearerToken true st = (Normal true, st') /\
               falsy bearerToken = false /\
               truthy (lastResponse st') = true /\
               authorized (lastResponse st') = true /\
               exists flag,
                 get (lastResponse st') "hasGroupAccess" = Normal flag /\
                 hasGroupAccess st' = (Normal (or_else flag (Bool false)), st')) \/
  (exists st', initialize bearerToken true st = (Throw exitProcess_TypeError, st')).
Proof.
  destruct (initialize_outcome bearerToken st) as [(st' & Hi & Hb & Ht & Ha)|Hthrow];
    [left|right; exact Hthrow].
  exists st'. repeat (split; [assumption|]). now apply hasGroupAccess_reads.
Qed.

(** X2. With [exitOnFailure = false], [initialize] never throws, never ends
    the process and checks no access flag.  It returns false for an empty
    token, without a look at the cache or the network.  Otherwise it returns
    false when [getValidToken] throws or gives [null]; and when
    [getValidToken] gives a record it stores the record in [lastResponse],
    whatever its flags, and returns true, unless the date of the record's
    [expiresAt] cannot be built: then it returns false. *)
Theorem initialize_lenient (bearerToken : value) (st : State) :
  exists result st',
    initialize bearerToken false st = (Normal result, st') /\
    (falsy bearerToken = true -> result = false /\ st' = st) /\
    (falsy bearerToken = false ->
     (forall data st1,
         getValidToken bearerToken st = (Normal data, st1) ->
         if truthy data then
           result = negb (expiry_date_fails data) /\
           st' = with_lastResponse data st1
         else result = false /\ st' = st1) /\
     (forall e st1,
         getValidToken bearerToken st = (Throw e, st1) ->
         result = false /\ st' = st1) /\
     exists r st1, getValidToken bearerToken st = (r, st1) /\ no_exit r).
Proof.
  destruct (falsy bearerToken) eqn:Hf.
  - destruct (initialize_no_token bearerToken st Hf) as (_ & _ & H).
    exists false, st. split; [exact H|]. split; [auto|discriminate].
  - destruct (getValidToken_outcome bearerToken st)
      as [(data & st1 & Hg & _)|(st1 & Hg)].
    + destruct (truthy data) eqn:Ht.
      * destruct (expiry_date_fails data) eqn:Hdate.
        -- destruct (initialize_date_fails _ _ _ _ Hf Hg Ht Hdate) as (_ & _ & H).
           exists false, (with_lastResponse data st1). split; [exact H|].
           split; [discriminate|]. intros _. split; [|split].
           ++ intros d s Hd. rewrite Hg in Hd. injection Hd as <- <-.
              rewrite Ht, Hdate. auto.
           ++ intros e s He. rewrite Hg in He. discriminate He.
           ++ exists (Normal data), st1. split; [exact Hg|exact I].
        -- pose proof (initialize_acquired _ _ _ _ Hf Hg Ht Hdate) as H.
           assert (Hi : initialize bearerToken false st =
                        (Normal true, with_lastResponse data st1))
             by (destruct (authorized data); destruct H as (_ & _ & H); exact H).
           exists true, (with_lastResponse data st1). split; [exact Hi|].
           split; [discriminate|]. intros _. split; [|split].
           ++ intros d s Hd. rewrite Hg in Hd. injection Hd as <- <-.
              rewrite Ht, Hdate. auto.
           ++ intros e s He. rewrite Hg in He. discriminate He.
           ++ exists (Normal data), st1. split; [exact Hg|exact I].
      * destruct (initialize_nothing_acquired _ _ _ _ Hf Hg Ht) as (_ & _ & H).
        exists false, st1. split; [exact H|].
        split; [discriminate|]. intros _. split; [|split].
        -- intros d s Hd. rewrite Hg in Hd. injection Hd as <- <-.
           rewrite Ht. auto.
        -- intros e s He. rewrite Hg in He. discriminate He.
        -- exists (Normal data), st1. split; [exact Hg|exact I].
    + destruct (initialize_token_throws _ _ _ _ Hf Hg) as (_ & _ & H).
      exists false, st1. split; [exact H|].
      split; [discriminate|]. intros _. split; [|split].
      * intros d s Hd. rewrite Hg in Hd. discriminate Hd.
      * intros e s He. rewrite Hg in He. injection He as _ <-. auto.
      * exists (Throw cannot_convert), st1. split; [exact Hg|exact I].
Qed.

(** ** What [getJWTInfo] reports *)

Lemma or_else_own token other : truthy token = true -> or_else token other = token.
Proof. unfold or_else. now intros ->. Qed.

Lemma get_opt_returns o k : exists v, get_opt o k = Normal v.
Proof. destruct o; simpl; eauto. Qed.

(** [getJWTInfo] on a token that decodes. *)
Lemma getJWTInfo_decoded token h p sig st :
  decodes_to token h p sig ->
  getJWTInfo token st =
  (match isJWTExpired token st with
   | (Normal isExpired, _) => info_of h p isExpired
   | (_, _) => Normal None
   end, st).
Proof.
  intros Hd. pose proof (decodes_truthy _ _ _ _ Hd) as Ht.
  assert (Hown : or_else (match token with Undefined => Null | t => t end)
                         (jwtToken st) = token).
  { assert (H : match token with Undefined => Null | t => t end = token)
      by (destruct token; try reflexivity; discriminate Ht).
    rewrite H. now apply or_else_own. }
  pose proof (getJWTInfo_effective token st h p sig) as H.
  rewrite Hown in H. now apply H.
Qed.

Lemma date_of_claim_convertible x :
  unconvertible x = false ->
  date_of_claim x =
  Normal (if truthy x then Some (Date (expiration_of x)) else None).
Proof.
  intros H. unfold date_of_claim, expiration_of. destruct (truthy x); [|reflexivity].
  destruct (mul_convertible x 1000 H) as [m ->]. simpl.
  now rewrite new_Date_of_number.
Qed.

Lemma date_of_claim_unconvertible x :
  unconvertible x = true -> date_of_claim x = Throw cannot_convert.
Proof.
  intros H. unfold date_of_claim.
  now rewrite (unconvertible_truthy x H), (mul_unconvertible x 1000 H).
Qed.

Lemma claims_convertible_true p exp iat :
  claims_convertible p = true ->
  get p "exp" = Normal exp -> get p "iat" = Normal iat ->
  unconvertible exp = false /\ unconvertible iat = false.
Proof.
  unfold claims_convertible. intros H Hx Hi. rewrite Hx, Hi in H.
  apply andb_true_iff in H. destruct H as [H1 H2].
  now rewrite negb_true_iff in H1, H2.
Qed.

Lemma getJWTInfo_objects token hs ps sig st :
  decodes_to token (Obj hs) (Obj ps) sig ->
  claims_convertible (Obj ps) = true ->
  exists info,
    getJWTInfo token st = (Normal (Some info), st) /\
    info_header info = Obj hs /\ info_payload info = Obj ps /\
    isJWTExpired token st = (Normal (info_isExpired info), st) /\
    getTokenExpiration token =
    Normal (match info_expirationDate info with
            | Some (Date expiresAt) => expiresAt
            | None => Null
            end) /\
    get (Obj hs) "alg" = Normal (info_algorithm info).
Proof.
  intros Hd Hc. rewrite (getJWTInfo_decoded _ _ _ _ st Hd).
  rewrite (getTokenExpiration_valid _ _ _ _ Hd).
  destruct (isJWTExpired_returns token st) as [b Hb]. rewrite Hb.
  destruct (truthy_get (Obj ps) eq_refl "exp"%string) as [x Hx].
  destruct (truthy_get (Obj ps) eq_refl "iat"%string) as [i Hi].
  destruct (truthy_get (Obj ps) eq_refl "username"%string) as [u Hu].
  destruct (truthy_get (Obj ps) eq_refl "body"%string) as [b' Hb'].
  destruct (truthy_get (Obj hs) eq_refl "alg"%string) as [a Ha].
  destruct (claims_convertible_true _ _ _ Hc Hx Hi) as [Hcx Hci].
  unfold info_of.
  rewrite Hx, Hi, Hu, Hb', Ha. cbn [bindC].
  rewrite (date_of_claim_convertible x Hcx), (date_of_claim_convertible i Hci).
  cbn [bindC].
  destruct (get_opt_returns b' "username") as [u' Hu'].
  destruct (truthy u); rewrite ?Hu'; cbn [bindC];
    (eexists; split; [reflexivity|]; cbn; repeat split;
     destruct (truthy x); reflexivity).
Qed.

Lemma getJWTInfo_null token h p sig st :
  decodes_to token h p sig -> h = Null \/ p = Null ->
  exists e, getJWTInfo token st = (Throw e, st).
Proof.
  intros Hd Hnull. rewrite (getJWTInfo_decoded _ _ _ _ st Hd).
  destruct (isJWTExpired_returns token st) as [b ->].
  unfold info_of.
  destruct (get_cases p "exp") as [[x Hx]|[e Hx]]; [|rewrite Hx; simpl; eauto].
  destruct Hnull as [->| ->]; [|discriminate Hx].
  rewrite Hx. simpl.
  destruct (date_of_claim_cases x) as [[_ [d ->]]|[_ ->]]; simpl; [|eauto].
  destruct (get_defined _ _ _ Hx "iat"%string) as [i ->]. simpl.
  destruct (date_of_claim_cases i) as [[_ [d' ->]]|[_ ->]]; simpl; [|eauto].
  destruct (get_defined _ _ _ Hx "username"%string) as [u ->]. simpl.
  destruct (truthy u); simpl; [eauto|].
  destruct (get_defined _ _ _ Hx "body"%string) as [b' ->]. simpl.
  destruct (get_opt_returns b' "username") as [u' ->]. simpl. eauto.
Qed.

(** A claim [exp] or [iat] that cannot be multiplied: [getJWTInfo] has no
    handler. *)
Lemma getJWTInfo_unconvertible token h p sig st exp iat :
  decodes_to token h p sig ->
  get p "exp" = Normal exp -> get p "iat" = Normal iat ->
  unconvertible exp = true \/ unconvertible iat = true ->
  getJWTInfo token st = (Throw cannot_convert, st).
Proof.
  intros Hd Hx Hi Hu. rewrite (getJWTInfo_decoded _ _ _ _ st Hd).
  destruct (isJWTExpired_returns token st) as [b ->].
  unfold info_of. rewrite Hx. simpl.
  destruct (unconvertible exp) eqn:Hux.
  - now rewrite (date_of_claim_unconvertible exp Hux).
  - rewrite (date_of_claim_convertible exp Hux). simpl. rewrite Hi. simpl.
    destruct Hu as [Hu|Hu]; [discriminate Hu|].
    now rewrite (date_of_claim_unconvertible iat Hu).
Qed.

(** X3. [getJWTInfo] on a token that decodes structurally.  When header and
    payload are objects whose claims [exp] and [iat] can be converted to
    numbers, it returns the information, whose [isExpired] is what
    [isJWTExpired] says and whose [expirationDate] is the date of what
    [getTokenExpiration] returns ([null] when that is [null]).  When one of
    the two claims cannot be converted it throws the [TypeError] of the
    conversion, where [isJWTExpired] and [getTokenExpiration] have a handler
    (they answer true and [null] for such an [exp]).  When the header or the
    payload is the JSON value [null], which [decodeJWT] and
    [isCachedTokenValid] accept, it throws. *)
Theorem getJWTInfo_contract (token h p : value) (sig : string) (st : State) :
  decodes_to token h p sig ->
  (forall hs ps, h = Obj hs -> p = Obj ps -> claims_convertible p = true ->
     exists info,
       getJWTInfo token st = (Normal (Some info), st) /\
       info_header info = h /\ info_payload info = p /\
       isJWTExpired token st = (Normal (info_isExpired info), st) /\
       getTokenExpiration token =
       Normal (match info_expirationDate info with
               | Some (Date expiresAt) => expiresAt
               | None => Null
               end) /\
       get h "alg" = Normal (info_algorithm info)) /\
  (forall exp iat,
     get p "exp" = Normal exp -> get p "iat" = Normal iat ->
     unconvertible exp = true \/ unconvertible iat = true ->
     getJWTInfo token st = (Throw cannot_convert, st) /\
     (unconvertible exp = true ->
      isJWTExpired token st = (Normal true, st) /\
      getTokenExpiration token = Normal Null)) /\
  (h = Null \/ p = Null ->
   (exists e, getJWTInfo token st = (Throw e, st)) /\
   decodeJWT token = Normal (decoded_object h p sig) /\
   forall st', isCachedTokenValid (cached_record token Null) st' = (Normal true, st')).
Proof.
  intros Hd. split; [|split].
  - intros hs ps -> -> Hc. now apply (getJWTInfo_objects _ _ _ sig).
  - intros exp iat Hx Hi Hu.
    split; [now apply (getJWTInfo_unconvertible _ h p sig _ exp iat)|].
    intros Hux. split.
    + rewrite (isJWTExpired_valid _ _ _ _ st Hd), Hx.
      now rewrite (unconvertible_truthy _ Hux), (expired_claim_unconvertible _ _ Hux).
    + rewrite (getTokenExpiration_valid _ _ _ _ Hd), Hx.
      now rewrite (unconvertible_truthy _ Hux), (expiration_of_unconvertible _ Hux).
  - intros Hnull. split; [now apply (getJWTInfo_null _ h p sig)|].
    split; [now apply decodeJWT_valid|].
    intros st'. apply (isCachedTokenValid_unset_expiry _ token Null); try reflexivity.
    now exists h, p, sig.
Qed.

(** ** What [getTokenStatus] reports *)

(** With a record in memory [getTokenStatus] only reads. *)
Lemma getTokenStatus_in_memory st :
  truthy (cachedToken st) = true ->
  exists r, getTokenStatus st = (r, st) /\ no_exit r.
Proof.
  intros Ht. unfold getTokenStatus. unfold bind at 1. cbv beta iota.
  unfold bind at 1. rewrite Ht. unfold ret at 1. cbv beta iota.
  unfold falsy. rewrite Ht. cbv beta iota. simpl negb. cbv iota.
  remember (cachedToken st) as c eqn:Hc. clear Hc Ht.
  match goal with
  | |- exists r, ?T st = _ /\ _ => assert (Hr : reads T); [|apply Hr]
  end.
  apply reads_bind; [apply reads_isCachedTokenValid|intros isValid].
  apply reads_bind; [apply reads_get|intros expiresAt].
  apply reads_bind.
  { destruct (truthy expiresAt); [|apply reads_ret].
    apply reads_bind; [apply reads_new_Date|intros d]. apply reads_ret. }
  intros expirationDate.
  apply reads_bind.
  { destruct (truthy expiresAt); [|apply reads_ret].
    apply reads_bind; [apply reads_Date_now|intros now]. apply reads_sub. }
  intros timeUntilExpiry.
  apply reads_bind; [apply reads_get|intros jwt].
  apply reads_bind; [apply reads_getJWTInfo|intros info].
  apply reads_bind; [apply reads_get|intros g].
  apply reads_ret.
Qed.

(** Without one it starts with [load()]. *)
Lemma getTokenStatus_loaded st v st1 :
  truthy (cachedToken st) = false ->
  loadTokenFromCache st = (Normal v, st1) ->
  (truthy v = false -> getTokenStatus st = (Normal NoToken, st1)) /\
  (truthy v = true -> cachedToken st1 = v -> getTokenStatus st = getTokenStatus st1).
Proof.
  intros Hm Hl. unfold getTokenStatus. unfold_io. rewrite Hm, Hl. unfold falsy.
  cbv beta iota. split.
  - intros ->. reflexivity.
  - intros Ht Hc. rewrite Hc, Ht. cbv beta iota. rewrite Ht. reflexivity.
Qed.

Lemma loadTokenFromCache_truthy st v st1 :
  loadTokenFromCache st = (Normal v, st1) -> truthy v = true ->
  st1 = with_cachedToken v st /\
  exists text, cacheFile st = Some text /\ JSON_parse text = Some v.
Proof.
  intros Hl Ht. pose proof (loadTokenFromCache_run st) as H.
  destruct (cacheFile st) as [text|] eqn:Hf.
  - destruct (JSON_parse text) as [c|] eqn:Hp.
    + rewrite H in Hl. injection Hl as <- <-. eauto.
    + rewrite H in Hl. injection Hl as <- <-. discriminate Ht.
  - rewrite H in Hl. injection Hl as <- <-. discriminate Ht.
Qed.

Lemma loadTokenFromCache_fields st v st1 :
  loadTokenFromCache st = (Normal v, st1) ->
  jwtToken st1 = jwtToken st /\ lastResponse st1 = lastResponse st /\
  traffic st1 = traffic st /\ endpoint st1 = endpoint st /\ clock st1 = clock st.
Proof.
  intros Hl. pose proof (loadTokenFromCache_run st) as H.
  destruct (cacheFile st) as [text|]; [destruct (JSON_parse text)|];
    rewrite H in Hl; injection Hl as <- <-;
    try destruct (unlinkDenied st); simpl; auto.
Qed.

Lemma getTokenStatus_fields st :
  exists r st',
    getTokenStatus st = (r, st') /\ no_exit r /\
    jwtToken st' = jwtToken st /\ lastResponse st' = lastResponse st /\
    traffic st' = traffic st /\ endpoint st' = endpoint st /\ clock st' = clock st.
Proof.
  destruct (truthy (cachedToken st)) eqn:Hm.
  - destruct (getTokenStatus_in_memory st Hm) as (r & -> & Hr).
    exists r, st. auto 10.
  - destruct (loadTokenFromCache_returns st) as (v & st1 & Hl & _).
    destruct (getTokenStatus_loaded st v st1 Hm Hl) as [Hno Hyes].
    pose proof (loadTokenFromCache_fields _ _ _ Hl) as (Hj & Hr & Ht & He & Hc).
    destruct (truthy v) eqn:Hv.
    + destruct (loadTokenFromCache_truthy _ _ _ Hl Hv) as (Hst1 & _).
      assert (Hcached : cachedToken st1 = v) by now rewrite Hst1.
      rewrite (Hyes eq_refl Hcached).
      assert (Hm1 : truthy (cachedToken st1) = true) by now rewrite Hcached.
      destruct (getTokenStatus_in_memory st1 Hm1) as (r & -> & Hne).
      exists r, st1. auto 10.
    + rewrite (Hno eq_refl). exists (Normal NoToken), st1. simpl. auto 10.
Qed.

(** X4. [getTokenStatus] is an observer: it sends nothing over the network
    and leaves [jwtToken] and [lastResponse] alone; with a record in memory
    it does not look at the disk and changes nothing at all; with none in
    memory and no cache file it reports [hasToken: false].  It can throw
    (through [getJWTInfo]) but never ends the process. *)
Theorem getTokenStatus_observes (st : State) :
  (exists r st',
     getTokenStatus st = (r, st') /\ no_exit r /\
     jwtToken st' = jwtToken st /\ lastResponse st' = lastResponse st /\
     traffic st' = traffic st /\ endpoint st' = endpoint st /\ clock st' = clock st) /\
  (truthy (cachedToken st) = true -> exists r, getTokenStatus st = (r, st)) /\
  (truthy (cachedToken st) = false -> cacheFile st = None ->
   getTokenStatus st = (Normal NoToken, st)).
Proof.
  split; [apply getTokenStatus_fields|]. split.
  - intros Hm. destruct (getTokenStatus_in_memory st Hm) as (r & H & _). eauto.
  - intros Hm Hf. pose proof (loadTokenFromCache_run st) as Hl. rewrite Hf in Hl.
    now destruct (getTokenStatus_loaded st Null st Hm Hl) as [H _]; apply H.
Qed.

Lemma sub_convertible x n :
  unconvertible x = false -> exists v, sub x (Num n) = Normal v.
Proof.
  intros H. rewrite sub_Num. destruct (ToNumber_convertible x H) as [y ->].
  simpl. eauto.
Qed.

(** The status of a record in memory whose [expiresAt] can be converted and
    whose token has an object for a header and for a payload, with claims
    that can be converted. *)
Lemma getTokenStatus_record st jwt hs ps sig x :
  get (cachedToken st) "jwt" = Normal jwt ->
  decodes_to jwt (Obj hs) (Obj ps) sig ->
  claims_convertible (Obj ps) = true ->
  get (cachedToken st) "expiresAt" = Normal x ->
  unconvertible x = false ->
  exists status, getTokenStatus st = (Normal status, st).
Proof.
  intros Hj Hd Hc Hx Hu.
  assert (Ht : truthy (cachedToken st) = true).
  { apply (get_truthy_is_object _ _ _ Hj). apply (decodes_truthy _ _ _ _ Hd). }
  unfold getTokenStatus. unfold_io. rewrite Ht. unfold falsy. rewrite Ht. simpl.
  destruct (isCachedTokenValid_returns (cachedToken st) st x Hx Hu) as [b ->].
  rewrite Hx. rewrite (new_Date_convertible x Hu).
  destruct (sub_convertible x (clock st) Hu) as [left Hleft].
  destruct (truthy x); rewrite ?Hleft; rewrite Hj;
    destruct (getJWTInfo_objects jwt hs ps sig st Hd Hc) as (info & -> & _);
    destruct (truthy_get _ Ht "hasGroupAccess"%string) as [g ->];
    eexists; reflexivity.
Qed.

(** ** The gate of [main] *)

(** The policy reads the state through the clock only. *)
Lemma isCachedTokenValid_pure record :
  exists verdict, forall s, isCachedTokenValid record s = (verdict (clock s), s).
Proof.
  destruct (truthy record) eqn:Hr.
  - destruct (truthy_get _ Hr "jwt"%string) as [jwt Hj].
    destruct (truthy_get _ Hr "expiresAt"%string) as [x Hx].
    destruct (truthy jwt) eqn:Ht.
    + exists (fun now => policy now jwt x). intros s.
      now apply isCachedTokenValid_unfold.
    + exists (fun _ => Normal false). intros s.
      apply isCachedTokenValid_no_token. right. eauto.
  - exists (fun _ => Normal false). intros s.
    apply isCachedTokenValid_no_token. now left.
Qed.

Lemma isCachedTokenValid_by_clock record s s' r :
  clock s = clock s' ->
  isCachedTokenValid record s = (r, s) ->
  isCachedTokenValid record s' = (r, s').
Proof.
  intros Hc H. destruct (isCachedTokenValid_pure record) as [verdict Hv].
  rewrite Hv in *. rewrite <- Hc. now injection H as ->.
Qed.

(** A record the policy accepts has an [expiresAt] that can be converted. *)
Lemma isCachedTokenValid_true_convertible record st x :
  isCachedTokenValid record st = (Normal true, st) ->
  get record "expiresAt" = Normal x -> unconvertible x = false.
Proof.
  intros Hv Hx.
  destruct (isCachedTokenValid_outcome record st)
    as [_|[Hthrow _]]; [|rewrite Hthrow in Hv; discriminate Hv].
  destruct (unconvertible x) eqn:Hu; [|reflexivity].
  destruct (isCachedTokenValid_true_has_token _ _ Hv) as (jwt & Hj & Ht & _).
  rewrite (isCachedTokenValid_unfold _ st _ _ Hj Ht Hx) in Hv.
  unfold policy in Hv. rewrite (expired_at_unconvertible _ _ Hu) in Hv.
  discriminate Hv.
Qed.

(** [getValidToken] when the cache file holds a record the policy accepts. *)
Lemma getValidToken_cached bearerToken st text record jwt :
  cacheFile st = Some text -> JSON_parse text = Some record ->
  isCachedTokenValid record st = (Normal true, st) ->
  get record "jwt" = Normal jwt ->
  getValidToken bearerToken st =
  (Normal record,
   with_lastResponse record (with_jwtToken jwt (with_cachedToken record st))).
Proof.
  intros Hf Hp Hv Hj. pose proof (loadTokenFromCache_run st) as Hl.
  rewrite Hf, Hp in Hl.
  unfold getValidToken. unfold_io. rewrite Hl.
  rewrite (isCachedTokenValid_by_clock record st (with_cachedToken record st)
             (Normal true) eq_refl Hv).
  rewrite Hj. reflexivity.
Qed.

(** [initializeLMS] with a bearer token in the environment: true with an
    authorized record, or an exception. *)
Lemma initializeLMS_outcome (env : environment) (st : State) :
  falsy (env_value env "LMS_BEARER_TOKEN") = false ->
  (exists st', initializeLMS env st = (Normal true, st') /\
               truthy (lastResponse st') = true /\
               authorized (lastResponse st') = true) \/
  (exists e st', initializeLMS env st = (Throw e, st')).
Proof.
  intros Hb. unfold initializeLMS, new_LMSIntegration. unfold_io. cbv beta iota.
  rewrite Hb.
  match goal with
  | |- context [getTokenStatus ?s] =>
      destruct (getTokenStatus_fields s) as (r1 & st1 & -> & Hr1 & _)
  end.
  destruct r1 as [status|e|n]; simpl in Hr1;
    [|right; do 2 eexists; reflexivity|contradiction].
  destruct (initialize_outcome (env_value env "LMS_BEARER_TOKEN") st1)
    as [(st2 & -> & _ & Ht & Ha)|(st2 & ->)];
    [|right; do 2 eexists; reflexivity].
  destruct (getTokenStatus_fields st2) as (r3 & st3 & -> & Hr3 & _ & Hl & _).
  destruct r3 as [status'|e|n]; simpl in Hr3;
    [|right; do 2 eexists; reflexivity|contradiction].
  left. exists st3. rewrite Hl. auto.
Qed.

(** X5. The access gate of [main] is sound and has one failure code: [main]
    gets past it only with a bearer token in the environment and, in
    [lastResponse], a record that has one of the three access flags; in
    every other case the process ends with exit code 1. *)
Theorem main_gate_sound (env : environment) (st : State) :
  (exists st', main_gate env st = (Normal tt, st') /\
               falsy (env_value env "LMS_BEARER_TOKEN") = false /\
               truthy (lastResponse st') = true /\
               authorized (lastResponse st') = true) \/
  (exists st', main_gate env st = (Exit 1, st')).
Proof.
  unfold main_gate, initializeLMS, new_LMSIntegration, process_exit. unfold_io.
  cbv beta iota.
  destruct (falsy (env_value env "LMS_BEARER_TOKEN")) eqn:Hb; [right; eexists; simpl; reflexivity|].
  match goal with
  | |- context [getTokenStatus ?s] =>
      destruct (getTokenStatus_fields s) as (r1 & st1 & -> & Hr1 & _)
  end.
  destruct r1 as [status|e|n]; simpl in Hr1; [|right; eexists; simpl; reflexivity|contradiction].
  destruct (initialize_outcome (env_value env "LMS_BEARER_TOKEN") st1)
    as [(st2 & -> & _ & Ht & Ha)|(st2 & ->)]; [|right; eexists; simpl; reflexivity].
  destruct (getTokenStatus_fields st2) as (r3 & st3 & -> & Hr3 & _ & Hl & _).
  destruct r3 as [status'|e|n]; simpl in Hr3; [|right; eexists; simpl; reflexivity|contradiction].
  left. exists st3. rewrite Hl. simpl. auto.
Qed.

(** X6. The gate trusts the cache file.  When the file parses to a record
    that [isCachedTokenValid] accepts, whose token has an object for a header
    and for a payload with claims [exp] and [iat] that can be converted to
    numbers, and that has one of the three access flags, [main] gets past
    the gate without any network traffic: the token's signature, its issuer
    and the bearer token are never looked at. *)
Theorem main_gate_trusts_cache (env : environment) (st : State) (text : string)
  (record jwt : value) (hs ps : list (string * value)) (sig : string) :
  falsy (env_value env "LMS_BEARER_TOKEN") = false ->
  cacheFile st = Some text -> JSON_parse text = Some record ->
  get record "jwt" = Normal jwt ->
  decodes_to jwt (Obj hs) (Obj ps) sig ->
  claims_convertible (Obj ps) = true ->
  isCachedTokenValid record st = (Normal true, st) ->
  authorized record = true ->
  exists st',
    main_gate env st = (Normal tt, st') /\
    traffic st' = traffic st /\ endpoint st' = endpoint st /\
    lastResponse st' = record /\ jwtToken st' = jwt /\
    cacheFile st' = cacheFile st.
Proof.
  intros Hb Hf Hp Hj Hd Hc Hv Ha.
  assert (Ht : truthy record = true).
  { apply (get_truthy_is_object _ _ _ Hj). apply (decodes_truthy _ _ _ _ Hd). }
  destruct (truthy_get _ Ht "expiresAt"%string) as [x Hx].
  pose proof (isCachedTokenValid_true_convertible _ _ _ Hv Hx) as Hu.
  assert (Hdate : expiry_date_fails record = false)
    by (unfold expiry_date_fails; now rewrite Hx).
  unfold main_gate, initializeLMS, new_LMSIntegration, process_exit. unfold_io.
  cbv beta iota. rewrite Hb.
  set (st0 := mkState Null Undefined Undefined (cacheDir st) (cacheFile st)
                      (diskFull st) (unlinkDenied st) (clock st) (endpoint st)
                      (traffic st)).
  set (st1 := with_cachedToken record st0).
  assert (Hl0 : loadTokenFromCache st0 = (Normal record, st1)).
  { pose proof (loadTokenFromCache_run st0) as H. simpl in H.
    rewrite Hf, Hp in H. exact H. }
  assert (Hs0 : exists status, getTokenStatus st0 = (Normal status, st1)).
  { destruct (getTokenStatus_loaded st0 record st1 eq_refl Hl0) as [_ H].
    rewrite (H Ht eq_refl). now apply (getTokenStatus_record st1 jwt hs ps sig x). }
  destruct Hs0 as [status ->].
  assert (Hg : getValidToken (env_value env "LMS_BEARER_TOKEN") st1 =
               (Normal record,
                with_lastResponse record (with_jwtToken jwt (with_cachedToken record st1)))).
  { apply (getValidToken_cached _ st1 text); try assumption.
    now apply (isCachedTokenValid_by_clock record st). }
  pose proof (initialize_acquired _ _ _ _ Hb Hg Ht Hdate) as Hi. rewrite Ha in Hi.
  destruct Hi as [-> _].
  match goal with
  | |- context [getTokenStatus ?s] =>
      destruct (getTokenStatus_record s jwt hs ps sig x Hj Hd Hc Hx Hu) as [status' ->]
  end.
  eexists. split; [reflexivity|]. simpl. auto.
Qed.

(** ** Acquisition, refresh and the cache *)

(** What [performSSOLogin] returns and what it leaves in [jwtToken]. *)
Lemma performSSOLogin_record bearerToken st data st' :
  performSSOLogin bearerToken st = (Normal data, st') ->
  data <> Null ->
  (exists status body rest,
      endpoint st = Reply status body :: rest /\
      response_ok status = true /\ JSON_parse body = Some data) /\
  (forall jwt, get data "jwt" = Normal jwt ->
               jwtToken st' = if truthy jwt then jwt else jwtToken st).
Proof.
  unfold performSSOLogin, getSystemInfoWithPublicIP, fetch_apiUrl. unfold_io. simpl.
  destruct (ToPrimitive bearerToken) as [prim|e|n]; simpl;
    try (intros H Hn; injection H as <- <-; now contradiction Hn);
    try (intros H; discriminate H).
  destruct (endpoint st) as [|[|status body] rest] eqn:He; simpl;
    try (intros H Hn; injection H as <- <-; now contradiction Hn).
  destruct (response_ok status) eqn:Hok; simpl;
    try (intros H Hn; injection H as <- <-; now contradiction Hn).
  unfold parse_json.
  destruct (JSON_parse body) as [parsed|] eqn:Hp; simpl;
    try (intros H Hn; injection H as <- <-; now contradiction Hn).
  destruct (get_cases parsed "jwt") as [[jwt Hj]|[e Hj]]; rewrite Hj; simpl;
    try (intros H Hn; injection H as <- <-; now contradiction Hn).
  destruct (truthy jwt) eqn:Ht; simpl.
  - match goal with
    | |- context [displayJWTInfo ?t ?s] =>
        destruct (displayJWTInfo_reads t s) as (r & -> & Hr)
    end.
    destruct r as [u|e|n]; simpl in *; try contradiction;
      try (intros H Hn; injection H as <- <-; now contradiction Hn).
    intros H Hn. injection H as <- <-. split; [eauto 10|].
    intros jwt' Hj'. rewrite Hj in Hj'. injection Hj' as <-. now rewrite Ht.
  - intros H Hn. injection H as <- <-. split; [eauto 10|].
    intros jwt' Hj'. rewrite Hj in Hj'. injection Hj' as <-. now rewrite Ht.
Qed.

(** X7. [performSSOLogin] never makes a record up: a result other than
    [null] is the parsed body of a 2xx answer of the endpoint, and
    [jwtToken] then holds the record's token when it has one and is left as
    it was when it has none. *)
Theorem performSSOLogin_result (bearerToken data : value) (st st' : State) :
  performSSOLogin bearerToken st = (Normal data, st') ->
  data <> Null ->
  (exists status body rest,
      endpoint st = Reply status body :: rest /\
      200 <= status <= 299 /\ JSON_parse body = Some data) /\
  (forall jwt, get data "jwt" = Normal jwt ->
               jwtToken st' = if truthy jwt then jwt else jwtToken st).
Proof.
  intros H Hn. destruct (performSSOLogin_record _ _ _ _ H Hn) as [Hr Hj].
  split; [|exact Hj].
  destruct Hr as (status & body & rest & He & Hok & Hp).
  exists status, body, rest. split; [exact He|]. split; [|exact Hp].
  unfold response_ok in Hok. apply andb_true_iff in Hok. lia.
Qed.

(** X8. What [getValidToken] leaves in the instance.  When it returns a
    record that has a token, [jwtToken] holds that token, on the cache path
    and on the acquisition path alike; [lastResponse] is set on the cache
    path only, an acquired record leaves it as it was. *)
Theorem getValidToken_fields (bearerToken data jwt : value) (st st' : State) :
  getValidToken bearerToken st = (Normal data, st') ->
  get data "jwt" = Normal jwt -> truthy jwt = true ->
  jwtToken st' = jwt /\
  getJWTToken st' = (Normal jwt, st') /\
  ((traffic st' = traffic st /\ lastResponse st' = data) \/
   (traffic st' = traffic st ++ acquisition bearerToken /\
    lastResponse st' = lastResponse st)).
Proof.
  intros Hg Hj Ht.
  assert (Hgoal : jwtToken st' = jwt /\
                  ((traffic st' = traffic st /\ lastResponse st' = data) \/
                   (traffic st' = traffic st ++ acquisition bearerToken /\
                    lastResponse st' = lastResponse st))).
  { destruct (getValidToken_run bearerToken st)
      as (cached & st1 & Hl & Ht1 & _ & Hyes & Hthrow & Hno).
    pose proof (loadTokenFromCache_fields _ _ _ Hl) as (_ & Hr1 & _).
    destruct (isCachedTokenValid_outcome cached st1) as [[[] Hb]|[Hb _]].
    - destruct (Hyes Hb) as (jwt' & s & Hj' & Hg' & -> & Htr & _).
      rewrite Hg in Hg'. injection Hg' as -> ->.
      rewrite Hj in Hj'. injection Hj' as <-. simpl. auto.
    - destruct (Hno Hb) as (got & st2 & Hsso & Ht2 & Hnull & Hsaved).
      destruct (truthy got) eqn:Hgot.
      + destruct (Hsaved eq_refl) as (saved & st3 & Hsave & Hg' & Ht3 & _).
        rewrite Hg in Hg'. injection Hg' as -> ->.
        destruct (saveTokenToCache_returns got st2)
          as (b & st3' & Hsave' & _ & _ & _ & Hj3 & Hr3).
        rewrite Hsave in Hsave'. injection Hsave' as <- <-.
        destruct (performSSOLogin_returns bearerToken st1)
          as (got' & st2' & Hsso' & _ & _ & _ & _ & _ & _ & _ & _ & Hr2).
        rewrite Hsso in Hsso'. injection Hsso' as <- <-.
        assert (Hnn : got <> Null) by (intros ->; discriminate Hgot).
        destruct (performSSOLogin_record _ _ _ _ Hsso Hnn) as [_ Hjwt].
        rewrite Hj3, (Hjwt _ Hj), Ht. split; [reflexivity|]. right.
        split; congruence.
      + rewrite (Hnull eq_refl) in Hg. injection Hg as <- <-. discriminate Hj.
    - rewrite (Hthrow _ Hb) in Hg. discriminate Hg. }
  destruct Hgoal as [Hjwt Hrest]. split; [exact Hjwt|]. split; [|exact Hrest].
  unfold getJWTToken, or_else. now rewrite Hjwt, Ht.
Qed.

(** [getValidToken] without a cache file: one acquisition. *)
Lemma getValidToken_acquires bearerToken st :
  cacheFile st = None ->
  exists data st',
    getValidToken bearerToken st = (Normal data, st') /\
    traffic st' = traffic st ++ attempt bearerToken /\
    (truthy data = false -> data = Null /\ cacheFile st' = None).
Proof.
  intros Hf.
  pose proof (loadTokenFromCache_run st) as Hl. rewrite Hf in Hl.
  unfold getValidToken. unfold_io. rewrite Hl. simpl.
  destruct (performSSOLogin_returns bearerToken st)
    as (data & st2 & -> & Ht2 & Hconv & Hf2 & _).
  destruct (truthy data) eqn:Hd.
  - destruct (saveTokenToCache_returns data st2) as (b & st3 & -> & Ht3 & _).
    exists data, st3. split; [reflexivity|]. split; [congruence|intros H; congruence].
  - exists Null, st2. split; [reflexivity|]. split; [congruence|].
    intros _. split; [reflexivity|congruence].
Qed.

(** X9. [refreshToken] clears the cache and then acquires: when the file
    system allows the removal of the cache file (or there is none) it never
    serves from the cache, whatever the file holds: it runs the acquisition
    exactly once, and when that gives nothing it returns [null] with the
    cache file gone, a record that was still valid included.  When the
    removal is refused, [clearTokenCache] leaves the file, and a record in
    it that [isCachedTokenValid] accepts is returned without any
    acquisition. *)
Theorem refreshToken_always_acquires (bearerToken : value) (st : State) :
  (unlinkDenied st = false \/ cacheFile st = None ->
   exists data st',
     refreshToken bearerToken st = (Normal data, st') /\
     traffic st' = traffic st ++ attempt bearerToken /\
     (truthy data = false -> data = Null /\ cacheFile st' = None)) /\
  (unlinkDenied st = true ->
   forall text record,
     cacheFile st = Some text -> JSON_parse text = Some record ->
     isCachedTokenValid record st = (Normal true, st) ->
     exists st',
       refreshToken bearerToken st = (Normal record, st') /\
       traffic st' = traffic st /\ cacheFile st' = Some text).
Proof.
  split.
  - intros Hok. unfold refreshToken. unfold bind at 1.
    destruct (clearTokenCache_removes st Hok) as (st0 & -> & Hf & _ & Ht0 & _).
    destruct (getValidToken_acquires bearerToken st0 Hf)
      as (data & st' & Hg & Ht & Hnull).
    exists data, st'. split; [exact Hg|]. split; [congruence|exact Hnull].
  - intros Hdenied text record Hf Hp Hv.
    unfold refreshToken. unfold bind at 1.
    rewrite clearTokenCache_run, Hf, Hdenied.
    destruct (isCachedTokenValid_true_has_token _ _ Hv) as (jwt & Hj & _).
    rewrite (getValidToken_cached bearerToken st text record jwt Hf Hp Hv Hj).
    eexists. split; [reflexivity|]. simpl. auto.
Qed.

(** X10. [clearTokenCache] and [loadTokenFromCache] are idempotent and
    never throw.  After a clear that the file system allows there is no
    file and no record in memory, and [load] and [getTokenStatus] find
    nothing; a clear that is refused changes nothing, the record in memory
    included.  In both cases a second clear changes nothing.  A [load]
    repeated returns the same value and leaves the state it left the first
    time. *)
Theorem clear_and_load_idempotent (st : State) :
  (exists st1,
     clearTokenCache st = (Normal tt, st1) /\
     clearTokenCache st1 = (Normal tt, st1) /\
     (unlinkDenied st = false \/ cacheFile st = None ->
      cacheFile st1 = None /\ cachedToken st1 = Null /\
      loadTokenFromCache st1 = (Normal Null, st1) /\
      getTokenStatus st1 = (Normal NoToken, st1)) /\
     (unlinkDenied st = true -> cacheFile st <> None -> st1 = st)) /\
  (exists v st1,
     loadTokenFromCache st = (Normal v, st1) /\
     loadTokenFromCache st1 = (Normal v, st1)).
Proof.
  split.
  - rewrite clearTokenCache_run. eexists. split; [reflexivity|].
    split; [|split].
    + rewrite clearTokenCache_run.
      destruct (cacheFile st) as [text|] eqn:Hf.
      * destruct (unlinkDenied st) eqn:Hu; [|reflexivity].
        rewrite Hf. cbv iota. rewrite ?Hu. reflexivity.
      * simpl. rewrite Hf. reflexivity.
    + intros Hok.
      destruct (clearTokenCache_removes st Hok) as (st1 & Hc & Hf & Hm & _).
      rewrite clearTokenCache_run in Hc. injection Hc as <-.
      split; [exact Hf|]. split; [exact Hm|].
      match goal with
      | |- loadTokenFromCache ?s = _ /\ _ =>
          pose proof (loadTokenFromCache_run s) as Hl; rewrite Hf in Hl;
          split; [exact Hl|];
          assert (Hn : truthy (cachedToken s) = false) by now rewrite Hm
      end.
      now destruct (getTokenStatus_loaded _ Null _ Hn Hl) as [H _]; apply H.
    + intros Hu Hf. destruct (cacheFile st); [now rewrite Hu|now contradiction Hf].
  - pose proof (loadTokenFromCache_run st) as Hl.
    destruct (cacheFile st) as [text|] eqn:Hf.
    + destruct (JSON_parse text) as [v|] eqn:Hp.
      * exists v, (with_cachedToken v st). split; [exact Hl|].
        pose proof (loadTokenFromCache_run (with_cachedToken v st)) as Hl2.
        simpl in Hl2. rewrite Hf, Hp in Hl2. exact Hl2.
      * eexists. eexists. split; [exact Hl|].
        destruct (unlinkDenied st) eqn:Hu.
        -- rewrite Hl. rewrite ?Hu. reflexivity.
        -- match goal with
           | |- loadTokenFromCache ?s = _ =>
               pose proof (loadTokenFromCache_run s) as Hl2
           end.
           simpl in Hl2. exact Hl2.
    + exists Null, st. split; [exact Hl|exact Hl].
Qed.

(** ** A saved token *)

(** X11. A saved token is served from the cache until five minutes before its
    expiry claim, and acquired again from then on.  After a successful save
    of a record whose token decodes with a numeric claim [exp] (seconds,
    positive, with [exp * 1000] below [2^53]), in any later state with the
    same cache file: while the clock is before [exp * 1000 - 300000],
    [getValidToken] returns the saved record without network traffic; from
    that instant on it runs the acquisition. *)
Theorem saved_token_served_until_buffer (bearerToken tokenData jwt h p : value)
  (sig : string) (exp : Z) (st st1 later : State) :
  faithful_JSON rt -> data tokenData ->
  saveTokenToCache tokenData st = (Normal true, st1) ->
  get tokenData "jwt" = Normal jwt ->
  decodes_to jwt h p sig ->
  get p "exp" = Normal (Num exp) -> 0 < exp -> exp * 1000 < 2 ^ 53 ->
  cacheFile later = cacheFile st1 ->
  (clock later < exp * 1000 - 300000 ->
   exists record st',
     getValidToken bearerToken later = (Normal record, st') /\
     traffic st' = traffic later /\ endpoint st' = endpoint later /\
     get record "jwt" = Normal jwt /\
     get record "expiresAt" = Normal (Num (exp * 1000)) /\
     get record "cachedAt" = Normal (Num (clock st)) /\
     (forall k, get record k = get (cachedToken st1) k)) /\
  (exp * 1000 - 300000 <= clock later ->
   exists data st',
     getValidToken bearerToken later = (Normal data, st') /\
     traffic st' = traffic later ++ attempt bearerToken).
Proof.
  intros Hrt Hdata Hsave Hj Hd Hexp Hpos Hsafe Hfile.
  assert (Hx : getTokenExpiration jwt = Normal (Num (exp * 1000))).
  { rewrite (getTokenExpiration_valid _ _ _ _ Hd), Hexp. simpl.
    destruct (Z.eqb_spec exp 0) as [|_]; [lia|]. simpl.
    unfold expiration_of. rewrite mul_exact; [reflexivity|].
    rewrite Z.abs_eq by lia. exact Hsafe. }
  destruct (saved_file_parses tokenData st st1 Hrt Hdata) as
    (text & record & Hf & Hp & Hget); [|exact Hsave|].
  { intros jwt' x Hj' Hx'. rewrite Hj in Hj'. injection Hj' as <-.
    rewrite Hx in Hx'. injection Hx' as <-. right. eauto. }
  destruct (saveTokenToCache_true _ _ _ Hsave)
    as (jwt' & n & l & g & key & x & text' & Hj' & _ & _ & _ & _ & Hx'
        & _ & Hcached & _ & _).
  rewrite Hj in Hj'. injection Hj' as <-. rewrite Hx in Hx'. injection Hx' as <-.
  assert (Hrj : get record "jwt" = Normal jwt) by now rewrite Hget, Hcached.
  assert (Hre : get record "expiresAt" = Normal (Num (exp * 1000)))
    by now rewrite Hget, Hcached.
  assert (Hra : get record "cachedAt" = Normal (Num (clock st)))
    by now rewrite Hget, Hcached.
  assert (Ht : truthy jwt = true) by exact (decodes_truthy _ _ _ _ Hd).
  assert (Hdec : decodes jwt) by now exists h, p, sig.
  assert (Hvalid : forall s,
             isCachedTokenValid record s =
             (Normal (negb (exp * 1000 - 300000 <=? clock s)), s)).
  { intros s. rewrite (isCachedTokenValid_unfold _ s _ _ Hrj Ht Hre).
    unfold policy, expired_at, expires_soon_at.
    rewrite (decodes_decodeJWT_truthy _ Hdec).
    unfold ge, sub, bufferTime. simpl.
    destruct (Z.eqb_spec (exp * 1000) 0) as [|_]; [lia|]. simpl.
    destruct (Z.leb_spec (exp * 1000) (clock s)); simpl;
      destruct (Z.leb_spec (exp * 1000 - 300000) (clock s)); simpl;
      try reflexivity; lia. }
  rewrite Hf in Hfile.
  split.
  - intros Hnow.
    assert (Hv : isCachedTokenValid record later = (Normal true, later)).
    { rewrite Hvalid. destruct (Z.leb_spec (exp * 1000 - 300000) (clock later));
        [lia|reflexivity]. }
    rewrite (getValidToken_cached bearerToken later text record jwt Hfile Hp Hv Hrj).
    do 2 eexists. split; [reflexivity|]. simpl. auto 10.
  - intros Hnow.
    unfold getValidToken. unfold_io.
    pose proof (loadTokenFromCache_run later) as Hl. rewrite Hfile, Hp in Hl.
    rewrite Hl, Hvalid. simpl.
    destruct (Z.leb_spec (exp * 1000 - 300000) (clock later)); [|lia]. simpl.
    destruct (performSSOLogin_returns bearerToken (with_cachedToken record later))
      as (got & st2 & -> & Ht2 & _).
    destruct (truthy got).
    + destruct (saveTokenToCache_returns got st2) as (b & st3 & -> & Ht3 & _).
      do 2 eexists. split; [reflexivity|]. now rewrite Ht3, Ht2.
    + do 2 eexists. split; [reflexivity|]. now rewrite Ht2.
Qed.

(** What [save()] does with room on the disk. *)
Lemma saveTokenToCache_cases (tokenData : value) (st : State) :
  (forall ps, JSON_stringify (Obj ps) <> None) ->
  diskFull st = false ->
  (tokenData = Null \/ tokenData = Undefined ->
   exists st', saveTokenToCache tokenData st = (Normal false, st') /\
               cacheFile st' = cacheFile st /\ cachedToken st' = cachedToken st) /\
  (tokenData <> Null -> tokenData <> Undefined ->
   exists st' text,
     saveTokenToCache tokenData st = (Normal true, st') /\
     cacheDir st' = true /\ cacheFile st' = Some text /\
     JSON_stringify (cachedToken st') = Some text /\
     get (cachedToken st') "jwt" = get tokenData "jwt" /\
     get (cachedToken st') "cachedAt" = Normal (Num (clock st))).
Proof.
  intros Hjson Hfull. split.
  - intros Hnull.
    unfold saveTokenToCache, ensureCacheDirectory, existsSync_cacheDir,
      mkdirSync_cacheDir, writeFileSync_cacheFile.
    unfold_io.
    destruct (cacheDir st) eqn:Hd; rewrite ?Hfull; simpl;
      destruct Hnull as [->| ->]; simpl; eexists; (split; [reflexivity|]);
      simpl; auto.
  - intros Hn Hu.
    destruct (saveTokenToCache_writes tokenData st Hjson Hfull Hn Hu)
      as (st' & jwt & n & l & g & key & x & text & Hsave & Hj & _ & _ & _ & _ & _
          & Hcached & Htext & Hfile & Hdir).
    exists st', text. split; [exact Hsave|]. split; [exact Hdir|].
    split; [exact Hfile|]. split; [exact Htext|].
    rewrite Hcached, Hj. split; reflexivity.
Qed.

(** X12. [saveTokenToCache] validates nothing.  With room on the disk it
    returns true for every argument other than [null] and [undefined], a
    record without a token included, creating the cache directory when it is
    missing; for [null] and [undefined] it returns false, the file and the
    record in memory staying as they were.  It never throws. *)
Theorem saveTokenToCache_accepts (tokenData : value) (st : State) :
  (forall ps, JSON_stringify (Obj ps) <> None) ->
  diskFull st = false ->
  (tokenData = Null \/ tokenData = Undefined ->
   exists st', saveTokenToCache tokenData st = (Normal false, st') /\
               cacheFile st' = cacheFile st /\ cachedToken st' = cachedToken st) /\
  (tokenData <> Null -> tokenData <> Undefined ->
   exists st' text,
     saveTokenToCache tokenData st = (Normal true, st') /\
     cacheDir st' = true /\ cacheFile st' = Some text /\
     JSON_stringify (cachedToken st') = Some text /\
     get (cachedToken st') "jwt" = get tokenData "jwt" /\
     get (cachedToken st') "cachedAt" = Normal (Num (clock st))).
Proof. apply saveTokenToCache_cases. Qed.

(** ** The first start *)

Lemma env_value_convertible env name : unconvertible (env_value env name) = false.
Proof. unfold env_value. destruct (env name); reflexivity. Qed.

(** What [getTokenExpiration] returns can always be converted: a number,
    an infinity, [NaN] or [null]. *)
Lemma getTokenExpiration_convertible jwt x :
  getTokenExpiration jwt = Normal x -> unconvertible x = false.
Proof.
  unfold getTokenExpiration.
  destruct (decodeJWT_cases jwt) as [->|(h & p & sig & _ & ->)]; simpl.
  - intros H. injection H as <-. reflexivity.
  - destruct (get_cases p "exp") as [[e ->]|[e ->]]; simpl;
      [|intros H; injection H as <-; reflexivity].
    destruct (truthy e); simpl; [|intros H; injection H as <-; reflexivity].
    rewrite mul_Num.
    destruct (ToNumber_cases e) as [[_ [n ->]]|[_ ->]]; simpl;
      intros H; injection H as <-; [apply unconvertible_of_number|reflexivity].
Qed.

(** [performSSOLogin] when the endpoint answers 2xx with a record whose
    token has an object for a header and for a payload, with claims that
    can be converted. *)
Lemma performSSOLogin_granted bearerToken st status body rest data jwt hs ps sig :
  unconvertible bearerToken = false ->
  endpoint st = Reply status body :: rest -> response_ok status = true ->
  JSON_parse body = Some data ->
  get data "jwt" = Normal jwt -> decodes_to jwt (Obj hs) (Obj ps) sig ->
  claims_convertible (Obj ps) = true ->
  performSSOLogin bearerToken st =
  (Normal data,
   with_jwtToken jwt
     (with_network rest (traffic st ++ acquisition bearerToken) st)).
Proof.
  intros Hb He Hok Hp Hj Hd Hc.
  unfold performSSOLogin, getSystemInfoWithPublicIP, fetch_apiUrl, acquisition.
  unfold_io. simpl.
  destruct (ToPrimitive_convertible _ Hb) as [prim ->]. simpl.
  rewrite He. simpl. rewrite Hok. simpl.
  unfold parse_json. rewrite Hp. simpl. rewrite Hj. simpl.
  rewrite (decodes_truthy _ _ _ _ Hd). simpl.
  unfold displayJWTInfo. unfold_io.
  match goal with
  | |- context [getJWTInfo jwt ?s] =>
      destruct (getJWTInfo_objects jwt hs ps sig s Hd Hc) as (info & -> & _)
  end.
  simpl. rewrite <- app_assoc. reflexivity.
Qed.

(** X13. On a first start (no cache file, room on the disk) the gate decides
    by the flags of the record the endpoint answers with.  When the answer
    has a status from 200 to 299 and its body parses to a record whose
    [expiresAt], if it has one, can be made a date, and whose token has an
    object for a header and for a payload with claims [exp] and [iat] that
    can be converted to numbers: with one of the three access flags [main]
    gets past the gate, after exactly one acquisition, with the record in
    [lastResponse], its token in [jwtToken] and the record saved in the
    cache file; with none of them the process ends with exit code 1, after
    the same single acquisition. *)
Theorem main_gate_first_start (env : environment) (st : State) (status : Z)
  (body : string) (rest : list http_reply) (data jwt : value)
  (hs ps : list (string * value)) (sig : string) :
  falsy (env_value env "LMS_BEARER_TOKEN") = false ->
  cacheFile st = None -> diskFull st = false ->
  (forall props, JSON_stringify (Obj props) <> None) ->
  endpoint st = Reply status body :: rest -> 200 <= status <= 299 ->
  JSON_parse body = Some data ->
  expiry_date_fails data = false ->
  get data "jwt" = Normal jwt -> decodes_to jwt (Obj hs) (Obj ps) sig ->
  claims_convertible (Obj ps) = true ->
  exists st',
    main_gate env st = (if authorized data then Normal tt else Exit 1, st') /\
    traffic st' = traffic st ++ acquisition (env_value env "LMS_BEARER_TOKEN") /\
    endpoint st' = rest /\ lastResponse st' = data /\ jwtToken st' = jwt /\
    exists text,
      cacheFile st' = Some text /\ JSON_stringify (cachedToken st') = Some text /\
      get (cachedToken st') "jwt" = Normal jwt.
Proof.
  intros Hb Hf Hfull Hjson He Hstatus Hp Hdate Hj Hd Hc.
  assert (Hok : response_ok status = true).
  { unfold response_ok. apply andb_true_iff. split; apply Z.leb_le; lia. }
  assert (Ht : truthy data = true).
  { apply (get_truthy_is_object _ _ _ Hj). apply (decodes_truthy _ _ _ _ Hd). }
  assert (Hnn : data <> Null /\ data <> Undefined)
    by (split; intros ->; discriminate Ht).
  unfold main_gate, initializeLMS, new_LMSIntegration, process_exit. unfold_io.
  cbv beta iota. rewrite Hb.
  set (bearer := env_value env "LMS_BEARER_TOKEN") in *.
  set (st0 := mkState Null Undefined Undefined (cacheDir st) (cacheFile st)
                      (diskFull st) (unlinkDenied st) (clock st) (endpoint st)
                      (traffic st)).
  assert (Hl0 : loadTokenFromCache st0 = (Normal Null, st0)).
  { pose proof (loadTokenFromCache_run st0) as H. simpl in H. now rewrite Hf in H. }
  destruct (getTokenStatus_loaded st0 Null st0 eq_refl Hl0) as [Hs0 _].
  rewrite (Hs0 eq_refl).
  set (st2 := with_jwtToken jwt (with_network rest (traffic st0 ++ acquisition bearer) st0)).
  assert (Hsso : performSSOLogin bearer st0 = (Normal data, st2))
    by (apply (performSSOLogin_granted bearer st0 status body rest data jwt hs ps sig);
        try assumption; apply env_value_convertible).
  destruct (saveTokenToCache_writes data st2 Hjson Hfull (proj1 Hnn) (proj2 Hnn))
    as (st3 & jwt' & n & l & g & key & x & text & Hsaved & Hj' & _ & _ & _ & _ & Hx
        & Hcached & Htext & Hfile & _).
  rewrite Hj in Hj'. injection Hj' as <-.
  destruct (saveTokenToCache_returns data st2)
    as (b & st3' & Hsaved' & Ht3 & He3 & _ & Hj3 & Hr3).
  rewrite Hsaved in Hsaved'. injection Hsaved' as <- <-.
  assert (Hg : getValidToken bearer st0 = (Normal data, st3)).
  { unfold getValidToken. unfold_io. rewrite Hl0. simpl. rewrite Hsso, Ht, Hsaved.
    reflexivity. }
  assert (Hcj : get (cachedToken st3) "jwt" = Normal jwt) by now rewrite Hcached.
  assert (Hce : get (cachedToken st3) "expiresAt" = Normal x) by now rewrite Hcached.
  pose proof (getTokenExpiration_convertible _ _ Hx) as Hcu.
  pose proof (initialize_acquired _ _ _ _ Hb Hg Ht Hdate) as Hi.
  destruct (authorized data).
  - destruct Hi as [-> _].
    assert (Hcj' : get (cachedToken (with_lastResponse data st3)) "jwt" = Normal jwt)
      by exact Hcj.
    assert (Hce' : get (cachedToken (with_lastResponse data st3)) "expiresAt" = Normal x)
      by exact Hce.
    destruct (getTokenStatus_record _ jwt hs ps sig x Hcj' Hd Hc Hce' Hcu)
      as [status' ->].
    eexists. split; [reflexivity|]. simpl.
    rewrite Ht3, He3, Hj3. simpl. eauto 10.
  - destruct Hi as [-> _].
    eexists. split; [reflexivity|]. simpl.
    rewrite Ht3, He3, Hj3. simpl. eauto 10.
Qed.

(** ** Arguments of any kind *)

(** X14. The three checks take anything.  For every argument, of any type,
    [isJWTExpired] returns a boolean and [getTokenExpiration] returns a
    value: their handlers catch the [TypeError] of an expiry claim that
    cannot be converted to a number, and answer true and [null].
    [isCachedTokenValid] has no handler: it changes nothing and never ends
    the process, returns a boolean whenever the record's [expiresAt] can be
    converted, and throws the [TypeError] of the conversion for a record
    with a token and an [expiresAt] that cannot.  For a token that does not
    decode structurally [isJWTExpired] says true, [getTokenExpiration] says
    [null], and [isCachedTokenValid] rejects every record that carries it
    with an [expiresAt] that can be converted. *)
Theorem validity_checks_total (v : value) (st : State) :
  (exists b, isJWTExpired v st = (Normal b, st)) /\
  (exists x, getTokenExpiration v = Normal x) /\
  (forall h p sig exp,
      decodes_to v h p sig -> get p "exp" = Normal exp ->
      unconvertible exp = true ->
      isJWTExpired v st = (Normal true, st) /\
      getTokenExpiration v = Normal Null) /\
  (exists r, isCachedTokenValid v st = (r, st) /\ no_exit r) /\
  (forall e,
      isCachedTokenValid v st = (Throw e, st) ->
      e = cannot_convert /\
      exists x, get v "expiresAt" = Normal x /\ unconvertible x = true) /\
  (forall jwt x,
      get v "jwt" = Normal jwt -> truthy jwt = true ->
      get v "expiresAt" = Normal x -> unconvertible x = true ->
      isCachedTokenValid v st = (Throw cannot_convert, st)) /\
  (~ decodes v ->
   isJWTExpired v st = (Normal true, st) /\
   getTokenExpiration v = Normal Null /\
   forall expiresAt,
     unconvertible expiresAt = false ->
     isCachedTokenValid (cached_record v expiresAt) st = (Normal false, st)).
Proof.
  split; [apply isJWTExpired_returns|].
  split; [apply getTokenExpiration_returns|].
  split; [|split; [apply isCachedTokenValid_reads|split; [|split]]].
  - intros h p sig exp Hd Hx Hu. split.
    + rewrite (isJWTExpired_valid _ _ _ _ st Hd), Hx.
      now rewrite (unconvertible_truthy _ Hu), (expired_claim_unconvertible _ _ Hu).
    + rewrite (getTokenExpiration_valid _ _ _ _ Hd), Hx.
      now rewrite (unconvertible_truthy _ Hu), (expiration_of_unconvertible _ Hu).
  - intros e He.
    destruct (isCachedTokenValid_outcome v st)
      as [[b Hb]|[Hthrow (jwt & x & _ & _ & Hx & Hu)]].
    + rewrite Hb in He. discriminate He.
    + rewrite Hthrow in He. injection He as <-. eauto.
  - intros jwt x Hj Ht Hx Hu.
    rewrite (isCachedTokenValid_unfold _ st _ _ Hj Ht Hx).
    unfold policy. now rewrite (expired_at_unconvertible _ _ Hu).
  - intros Hn. split; [now apply isJWTExpired_invalid|].
    split; [now apply getTokenExpiration_invalid|].
    intros expiresAt Hu. destruct (truthy v) eqn:Ht.
    + rewrite (isCachedTokenValid_unfold (cached_record v expiresAt) st v expiresAt
                 eq_refl Ht eq_refl).
      unfold policy. rewrite (decodeJWT_invalid _ Hn).
      destruct (expired_at_convertible (clock st) expiresAt Hu) as [b ->]. simpl.
      destruct b; [reflexivity|].
      destruct (expires_soon_at_convertible (clock st) expiresAt Hu) as [b ->].
      simpl. destruct b; reflexivity.
    + apply isCachedTokenValid_no_token. right. exists v. split; [reflexivity|exact Ht].
Qed.

(** ** The signature of a token *)

Lemma split_token_segments p0 p1 p2 :
  dotless p0 = true -> dotless p1 = true -> dotless p2 = true ->
  split_on dot (p0 ++ "." ++ p1 ++ "." ++ p2) = [p0; p1; p2].
Proof.
  intros H0 H1 H2.
  change (p0 ++ "." ++ p1 ++ "." ++ p2)%string
    with (p0 ++ String dot (p1 ++ String dot p2))%string.
  rewrite !split_on_append, !split_on_dotless by assumption. reflexivity.
Qed.

Lemma decodes_to_segments p0 p1 p2 h p :
  dotless p0 = true -> dotless p1 = true -> dotless p2 = true ->
  JSON_parse (base64UrlDecode p0) = Some h ->
  JSON_parse (base64UrlDecode p1) = Some p ->
  decodes_to (Str (p0 ++ "." ++ p1 ++ "." ++ p2)) h p p2.
Proof.
  intros H0 H1 H2 Hh Hp. exists (p0 ++ "." ++ p1 ++ "." ++ p2)%string, p0, p1.
  split; [reflexivity|]. split; [now apply split_token_segments|]. auto.
Qed.

Lemma decodes_segments p0 p1 p2 :
  dotless p0 = true -> dotless p1 = true -> dotless p2 = true ->
  decodes (Str (p0 ++ "." ++ p1 ++ "." ++ p2)) ->
  exists h p, JSON_parse (base64UrlDecode p0) = Some h /\
              JSON_parse (base64UrlDecode p1) = Some p.
Proof.
  intros H0 H1 H2 (h & p & sig & s & q0 & q1 & Hs & Hsplit & Hh & Hp).
  injection Hs as Hs. subst s.
  change (p0 ++ String "." (p1 ++ String "." p2))%string
    with (p0 ++ "." ++ p1 ++ "." ++ p2)%string in Hsplit.
  rewrite (split_token_segments p0 p1 p2 H0 H1 H2) in Hsplit.
  injection Hsplit as <- <- <-. eauto.
Qed.

(** The policy looks at a token through [decodeJWT] only. *)
Lemma policy_same_decoding now jwt jwt' x :
  match decodeJWT jwt with Normal d => truthy d | _ => false end =
  match decodeJWT jwt' with Normal d => truthy d | _ => false end ->
  policy now jwt x = policy now jwt' x.
Proof. intros H. unfold policy. now rewrite H. Qed.

(** X15. The signature of a token is never looked at.  Two tokens with the
    same first two segments and any two third segments get the same answer
    from [getTokenExpiration] and [isJWTExpired], and cached records that
    differ in the token's signature only get the same answer from
    [isCachedTokenValid], at every time; [decodeJWT] rejects both or
    neither. *)
Theorem signature_never_checked (p0 p1 sig sig' : string) (expiresAt : value)
  (st : State) :
  dotless p0 = true -> dotless p1 = true ->
  dotless sig = true -> dotless sig' = true ->
  getTokenExpiration (Str (p0 ++ "." ++ p1 ++ "." ++ sig)) =
  getTokenExpiration (Str (p0 ++ "." ++ p1 ++ "." ++ sig')) /\
  isJWTExpired (Str (p0 ++ "." ++ p1 ++ "." ++ sig)) st =
  isJWTExpired (Str (p0 ++ "." ++ p1 ++ "." ++ sig')) st /\
  isCachedTokenValid (cached_record (Str (p0 ++ "." ++ p1 ++ "." ++ sig)) expiresAt) st =
  isCachedTokenValid (cached_record (Str (p0 ++ "." ++ p1 ++ "." ++ sig')) expiresAt) st /\
  (decodeJWT (Str (p0 ++ "." ++ p1 ++ "." ++ sig)) = Normal Null <->
   decodeJWT (Str (p0 ++ "." ++ p1 ++ "." ++ sig')) = Normal Null).
Proof.
  intros H0 H1 H2 H2'.
  set (t := Str (p0 ++ "." ++ p1 ++ "." ++ sig)).
  set (t' := Str (p0 ++ "." ++ p1 ++ "." ++ sig')).
  assert (Htruthy : forall s, truthy (Str (p0 ++ "." ++ s)) = true).
  { intros s. destruct p0; reflexivity. }
  assert (Hpolicy :
            match decodeJWT t with Normal d => truthy d | _ => false end =
            match decodeJWT t' with Normal d => truthy d | _ => false end ->
            isCachedTokenValid (cached_record t expiresAt) st =
            isCachedTokenValid (cached_record t' expiresAt) st).
  { intros H.
    rewrite (isCachedTokenValid_unfold (cached_record t expiresAt) st t expiresAt
               eq_refl (Htruthy _) eq_refl).
    rewrite (isCachedTokenValid_unfold (cached_record t' expiresAt) st t' expiresAt
               eq_refl (Htruthy _) eq_refl).
    now rewrite (policy_same_decoding _ t t' _ H). }
  destruct (JSON_parse (base64UrlDecode p0)) as [h|] eqn:Hh;
    [destruct (JSON_parse (base64UrlDecode p1)) as [p|] eqn:Hp|].
  - pose proof (decodes_to_segments p0 p1 sig h p H0 H1 H2 Hh Hp) as Hd.
    pose proof (decodes_to_segments p0 p1 sig' h p H0 H1 H2' Hh Hp) as Hd'.
    fold t in Hd. fold t' in Hd'.
    split; [now rewrite (getTokenExpiration_valid _ _ _ _ Hd),
                        (getTokenExpiration_valid _ _ _ _ Hd')|].
    split; [now rewrite (isJWTExpired_valid _ _ _ _ st Hd),
                        (isJWTExpired_valid _ _ _ _ st Hd')|].
    split.
    + apply Hpolicy.
      now rewrite (decodeJWT_valid _ _ _ _ Hd), (decodeJWT_valid _ _ _ _ Hd').
    + rewrite (decodeJWT_valid _ _ _ _ Hd), (decodeJWT_valid _ _ _ _ Hd').
      split; discriminate.
  - assert (Hn : ~ decodes t).
    { intros Hd. destruct (decodes_segments _ _ _ H0 H1 H2 Hd) as (? & ? & _ & Hq).
      congruence. }
    assert (Hn' : ~ decodes t').
    { intros Hd. destruct (decodes_segments _ _ _ H0 H1 H2' Hd) as (? & ? & _ & Hq).
      congruence. }
    split; [now rewrite (getTokenExpiration_invalid _ Hn),
                        (getTokenExpiration_invalid _ Hn')|].
    split; [now rewrite (isJWTExpired_invalid _ st Hn), (isJWTExpired_invalid _ st Hn')|].
    split.
    + apply Hpolicy.
      now rewrite (decodeJWT_invalid _ Hn), (decodeJWT_invalid _ Hn').
    + rewrite (decodeJWT_invalid _ Hn), (decodeJWT_invalid _ Hn'). tauto.
  - assert (Hn : ~ decodes t).
    { intros Hd. destruct (decodes_segments _ _ _ H0 H1 H2 Hd) as (? & ? & Hq & _).
      congruence. }
    assert (Hn' : ~ decodes t').
    { intros Hd. destruct (decodes_segments _ _ _ H0 H1 H2' Hd) as (? & ? & Hq & _).
      congruence. }
    split; [now rewrite (getTokenExpiration_invalid _ Hn),
                        (getTokenExpiration_invalid _ Hn')|].
    split; [now rewrite (isJWTExpired_invalid _ st Hn), (isJWTExpired_invalid _ st Hn')|].
    split.
    + apply Hpolicy.
      now rewrite (decodeJWT_invalid _ Hn), (decodeJWT_invalid _ Hn').
    + rewrite (decodeJWT_invalid _ Hn), (decodeJWT_invalid _ Hn'). tauto.
Qed.

End SessionFacts.

(* ================================================================== *)
(** * Properties of the base64url padding                                *)
(* ================================================================== *)

Section PaddingFacts.
Context {rt : Runtime}.

Lemma mod4_cases (n : nat) :
  (n mod 4 = 0 /\ S n mod 4 = 1 \/ n mod 4 = 1 /\ S n mod 4 = 2 \/
   n mod 4 = 2 /\ S n mod 4 = 3 \/ n mod 4 = 3 /\ S n mod 4 = 0)%nat.
Proof.
  induction n as [|n IH]; [now left|].
  assert (Hstep : forall m r, (m mod 4 = r -> S r < 4 -> S m mod 4 = S r)%nat).
  { intros m r Hm Hr. pose proof (Nat.div_mod_eq m 4) as Hd. rewrite Hm in Hd.
    symmetry. apply (Nat.mod_unique _ _ (m / 4)%nat); lia. }
  assert (Hwrap : forall m, (m mod 4 = 3 -> S m mod 4 = 0)%nat).
  { intros m Hm. pose proof (Nat.div_mod_eq m 4) as Hd. rewrite Hm in Hd.
    symmetry. apply (Nat.mod_unique _ _ (S (m / 4))%nat); lia. }
  destruct IH as [[_ H]|[[_ H]|[[_ H]|[_ H]]]].
  - right; left. split; [exact H|]. apply Hstep; [exact H|lia].
  - right; right; left. split; [exact H|]. apply Hstep; [exact H|lia].
  - right; right; right. split; [exact H|]. now apply Hwrap.
  - left. split; [exact H|]. apply Hstep; [exact H|lia].
Qed.

Lemma append_empty (s : string) : (s ++ EmptyString)%string = s.
Proof. induction s as [|c s IH]; simpl; [reflexivity|now rewrite IH]. Qed.

Lemma pad_base64_enough (k rounds : nat) (s : string) :
  ((4 - String.length s mod 4) mod 4 = k)%nat -> (k <= rounds)%nat ->
  pad_base64 rounds s = (s ++ string_of_list_ascii (repeat "="%char k))%string.
Proof.
  revert rounds s. induction k as [|k IH]; intros rounds s Hk Hr.
  - assert (Hz : (String.length s mod 4 = 0)%nat).
    { destruct (mod4_cases (String.length s)) as [[H _]|[[H _]|[[H _]|[H _]]]];
        rewrite H in Hk; [exact H|discriminate Hk ..]. }
    cbn [repeat string_of_list_ascii]. rewrite append_empty.
    destruct rounds; cbn [pad_base64]; [reflexivity|]. now rewrite Hz.
  - destruct rounds as [|rounds]; [lia|]. cbn [pad_base64 repeat string_of_list_ascii].
    assert (Hnz : (String.length s mod 4 <> 0)%nat).
    { intros Hz. rewrite Hz in Hk. simpl in Hk. discriminate. }
    apply Nat.eqb_neq in Hnz. rewrite Hnz.
    rewrite (IH rounds (s ++ "=")%string);
      [|rewrite length_append; cbn [String.length]|lia].
    + now rewrite append_assoc.
    + rewrite Nat.add_1_r.
      destruct (mod4_cases (String.length s)) as [[H H']|[[H H']|[[H H']|[H H']]]];
        rewrite H in Hk; rewrite H'; simpl in *; lia.
Qed.

(** X16. The padding loop of [base64UrlDecode] runs at most three times: it
    appends to its input the fewest [=] that make the length a multiple of
    four, none when it is one already, and more rounds change nothing; the
    two replacements before it keep the length. *)
Theorem base64UrlDecode_padding (str : string) :
  let k := ((4 - String.length str mod 4) mod 4)%nat in
  (k <= 3)%nat /\
  (forall rounds, (3 <= rounds)%nat ->
     pad_base64 rounds str = (str ++ string_of_list_ascii (repeat "="%char k))%string) /\
  (String.length (pad_base64 3 str) mod 4 = 0)%nat /\
  String.length (replace_all "_" "/" (replace_all "-" "+" str)) = String.length str.
Proof.
  intros k.
  assert (Hk : (k <= 3)%nat).
  { unfold k. pose proof (Nat.mod_upper_bound (4 - String.length str mod 4) 4). lia. }
  assert (Hpad : forall rounds, (3 <= rounds)%nat ->
     pad_base64 rounds str = (str ++ string_of_list_ascii (repeat "="%char k))%string).
  { intros rounds Hr. apply pad_base64_enough; [reflexivity|lia]. }
  split; [exact Hk|]. split; [exact Hpad|]. split.
  - rewrite (Hpad 3%nat (Nat.le_refl 3)), length_append.
    assert (Hlen : String.length (string_of_list_ascii (repeat "="%char k)) = k).
    { clear. induction k as [|k IH]; simpl; [reflexivity|now rewrite IH]. }
    rewrite Hlen. unfold k. clear.
    set (n := String.length str).
    destruct (mod4_cases n) as [[H0 H1]|[[H0 H1]|[[H0 H1]|[H0 H1]]]];
      destruct (mod4_cases (S n)) as [[G0 G1]|[[G0 G1]|[[G0 G1]|[G0 G1]]]];
      try congruence;
      destruct (mod4_cases (S (S n))) as [[F0 F1]|[[F0 F1]|[[F0 F1]|[F0 F1]]]];
      try congruence; rewrite H0.
    + change ((4 - 0) mod 4)%nat with 0%nat. now rewrite Nat.add_0_r.
    + change ((4 - 1) mod 4)%nat with 3%nat.
      now replace (n + 3)%nat with (S (S (S n))) by lia.
    + change ((4 - 2) mod 4)%nat with 2%nat.
      now replace (n + 2)%nat with (S (S n)) by lia.
    + change ((4 - 3) mod 4)%nat with 1%nat.
      now replace (n + 1)%nat with (S n) by lia.
  - assert (Hrep : forall a b s, String.length (replace_all a b s) = String.length s).
    { intros a b s. induction s as [|c s IH]; simpl; [reflexivity|now rewrite IH]. }
    now rewrite !Hrep.
Qed.

End PaddingFacts.

(* ================================================================== *)
(** * Properties of the request fingerprint                              *)
(* ================================================================== *)

Section SystemInfoFacts.
Import SystemInfo.
Context {cv : Conversions}.

Lemma scan_find interfaces :
  scan interfaces = option_map address (find external_IPv4 (entries interfaces)).
Proof.
  induction interfaces as [|[name nets] rest IH]; [reflexivity|].
  unfold entries. simpl. fold (entries rest).
  induction nets as [|n nets IHn]; simpl; [exact IH|].
  unfold external_IPv4 at 1.
  destruct (negb (internal n) && String.eqb (family n) "IPv4"); [reflexivity|].
  exact IHn.
Qed.

(** X17. [getIPAddress] never throws.  It returns the address of the first
    entry, in the order of the interfaces and of their entries, that is not
    internal and whose family is [IPv4]; [127.0.0.1] when no entry is; and
    [126.0.0.0] when the operating system's call throws. *)
Theorem getIPAddress_first_external (host : Host) :
  getIPAddress host =
  Normal (Str (match networkInterfaces host with
               | None => "126.0.0.0"
               | Some interfaces =>
                   match find external_IPv4 (entries interfaces) with
                   | Some n => address n
                   | None => "127.0.0.1"
                   end
               end)).
Proof.
  unfold getIPAddress. destruct (networkInterfaces host) as [interfaces|]; simpl;
    [|reflexivity].
  rewrite scan_find. destruct (find external_IPv4 (entries interfaces)); reflexivity.
Qed.

Lemma or_else_truthy a b : truthy b = true -> truthy (or_else a b) = true.
Proof. unfold or_else. destruct (truthy a) eqn:Ha; auto. Qed.

Lemma get_cases' o k :
  (exists v, get o k = Normal v) \/ (exists e, get o k = Throw e).
Proof. destruct o; simpl; eauto. Qed.

Lemma truthy_joined (a b : string) : truthy (Str (a ++ ", " ++ b)) = true.
Proof. destruct a; reflexivity. Qed.

Lemma to_string_cases v :
  (exists s, to_string v = Normal s) \/ (exists e, to_string v = Throw e).
Proof. unfold to_string. destruct (ToString v); eauto. Qed.

Lemma getLocationFromTimezone_truthy host :
  exists v, getLocationFromTimezone host = Normal v /\ truthy v = true.
Proof.
  unfold getLocationFromTimezone. destruct (timeZone host) as [tz|]; simpl.
  - eexists. split; [reflexivity|]. now apply or_else_truthy.
  - eexists. split; reflexivity.
Qed.

Lemma getFallbackLocation_truthy host :
  exists v, getFallbackLocation host = Normal v /\ truthy v = true.
Proof.
  unfold getFallbackLocation.
  destruct (ipapi_co host) as [data|]; simpl;
    [|apply getLocationFromTimezone_truthy].
  destruct (get_cases' data "city") as [[city Hc]|[e Hc]]; rewrite Hc; simpl;
    [|apply getLocationFromTimezone_truthy].
  assert (Hall : forall k, exists v, get data k = Normal v)
    by (intros k; destruct data; simpl in *; try discriminate Hc; eauto).
  destruct (Hall "country_name"%string) as [country Hn].
  destruct (truthy city) eqn:Htc; repeat (rewrite ?Hc, ?Hn; simpl).
  - destruct (truthy country) eqn:Htn; repeat (rewrite ?Hc, ?Hn; simpl).
    + destruct (to_string_cases city) as [[c' ->]|[e ->]]; simpl;
        [|apply getLocationFromTimezone_truthy].
      repeat (rewrite ?Hc, ?Hn; simpl).
      destruct (to_string_cases country) as [[n' ->]|[e ->]]; simpl;
        [|apply getLocationFromTimezone_truthy].
      eexists. split; [reflexivity|apply truthy_joined].
    + apply getLocationFromTimezone_truthy.
  - rewrite Htc. simpl. repeat (rewrite ?Hc, ?Hn; simpl).
    destruct (truthy country) eqn:Htn; simpl;
      [eauto|apply getLocationFromTimezone_truthy].
Qed.

Lemma getUserLocation_returns (host : Host) :
  exists location, getUserLocation host = Normal location /\ truthy location = true.
Proof.
  unfold getUserLocation.
  destruct (ip_api host) as [data|]; simpl; [|apply getFallbackLocation_truthy].
  destruct (get_cases' data "status") as [[status Hs]|[e Hs]]; rewrite Hs; simpl;
    [|apply getFallbackLocation_truthy].
  assert (Hall : forall k, exists v, get data k = Normal v)
    by (intros k; destruct data; simpl in *; try discriminate Hs; eauto).
  destruct (Hall "city"%string) as [city Hc].
  destruct (Hall "country"%string) as [country Hn].
  destruct (is_string status "success"); repeat (rewrite ?Hc, ?Hn; simpl).
  - destruct (to_string_cases city) as [[c' ->]|[e ->]]; simpl;
      [|apply getFallbackLocation_truthy].
    repeat (rewrite ?Hc, ?Hn; simpl).
    destruct (to_string_cases country) as [[n' ->]|[e ->]]; simpl;
      [|apply getFallbackLocation_truthy].
    eexists. split; [reflexivity|apply truthy_joined].
  - destruct (truthy country) eqn:Htn; simpl;
      [eauto|apply getFallbackLocation_truthy].
Qed.

(** X18. [getUserLocation] never throws and never comes back empty-handed:
    whatever the three services and the time zone look-up answer or throw,
    and whatever ToString does, it returns a truthy value. *)
Theorem getUserLocation_truthy (host : Host) :
  exists location, getUserLocation host = Normal location /\ truthy location = true.
Proof. apply getUserLocation_returns. Qed.

Lemma getIPAddress_returns host : exists v, getIPAddress host = Normal v.
Proof.
  unfold getIPAddress. destruct (networkInterfaces host) as [ifs|]; simpl; eauto.
  destruct (scan ifs); simpl; eauto.
Qed.

Lemma getPublicIPAddress_returns host : exists v, getPublicIPAddress host = Normal v.
Proof.
  unfold getPublicIPAddress.
  destruct (ipify host) as [data|]; simpl; [|apply getIPAddress_returns].
  destruct (get_cases' data "ip") as [[v ->]|[e ->]]; simpl;
    [eauto|apply getIPAddress_returns].
Qed.

(** X19. The fallback object of [getSystemInfoWithPublicIP] (location India,
    operating system Mac, local address) is never sent: every method the
    [try] block calls returns, so the method returns the object built from
    their results. *)
Theorem getSystemInfoWithPublicIP_no_fallback (host : Host) :
  exists username machineNumber userLocation operatingSystem publicIP,
    getUserEmail host = Normal username /\
    getMachineId host = Normal machineNumber /\
    getUserLocation host = Normal userLocation /\
    getOperatingSystem host = Normal operatingSystem /\
    getPublicIPAddress host = Normal publicIP /\
    getSystemInfoWithPublicIP host =
    Normal (systemInfo username machineNumber userLocation operatingSystem publicIP).
Proof.
  destruct (getPublicIPAddress_returns host) as [ip Hip].
  destruct (getUserLocation_returns host) as (loc & Hloc & _).
  assert (Hos : exists v, getOperatingSystem host = Normal v).
  { unfold getOperatingSystem. destruct (os_platform host); simpl; eauto. }
  assert (Hu : exists v, getUserEmail host = Normal v).
  { unfold getUserEmail. destruct (userInfo_username host); simpl; eauto. }
  assert (Hm : exists v, getMachineId host = Normal v).
  { unfold getMachineId. destruct (hostname host); simpl; eauto. }
  destruct Hos as [o Ho]. destruct Hu as [u Hu]. destruct Hm as [m Hm].
  exists u, m, loc, o, ip. repeat (split; [assumption|]).
  unfold getSystemInfoWithPublicIP. rewrite Hip, Hloc, Ho, Hu, Hm. reflexivity.
Qed.

Lemma replace_first_dotless (name rest : string) :
  dotless name = true ->
  replace_first ".uhc.com." EmptyString (name ++ ".uhc.com." ++ rest) =
  (name ++ rest)%string.
Proof.
  induction name as [|c name IH]; intros Hd.
  - reflexivity.
  - simpl in Hd. apply andb_true_iff in Hd. destruct Hd as [Hc Hd].
    apply negb_true_iff in Hc.
    change (replace_first ".uhc.com." EmptyString
              (String c (name ++ ".uhc.com." ++ rest)) =
            String c (name ++ rest)).
    cbn [replace_first startsWith]. rewrite Hc. cbn [andb].
    now rewrite (IH Hd).
Qed.

Lemma replace_first_no_trailing_dot (name : string) :
  dotless name = true ->
  replace_first ".uhc.com." EmptyString (name ++ ".uhc.com") =
  (name ++ ".uhc.com")%string.
Proof.
  induction name as [|c name IH]; intros Hd.
  - reflexivity.
  - simpl in Hd. apply andb_true_iff in Hd. destruct Hd as [Hc Hd].
    apply negb_true_iff in Hc.
    change (replace_first ".uhc.com." EmptyString
              (String c (name ++ ".uhc.com")) =
            String c (name ++ ".uhc.com")).
    cbn [replace_first startsWith]. rewrite Hc. cbn [andb].
    now rewrite (IH Hd).
Qed.

(** X20. [getMachineId] removes the first [.uhc.com.] of the host name, final
    dot included, and nothing else: a name followed by [.uhc.com.] loses it
    (what follows is kept); the same name followed by [.uhc.com] without the
    final dot is returned whole; and when the operating system's call throws
    the result is [UNKNOWN]. *)
Theorem getMachineId_strips_domain (host : Host) (name rest : string) :
  dotless name = true ->
  (hostname host = Some (name ++ ".uhc.com." ++ rest)%string ->
   getMachineId host = Normal (Str (name ++ rest))) /\
  (hostname host = Some (name ++ ".uhc.com")%string ->
   getMachineId host = Normal (Str (name ++ ".uhc.com"))) /\
  (hostname host = None -> getMachineId host = Normal (Str "UNKNOWN")).
Proof.
  intros Hd. unfold getMachineId. repeat split; intros ->; cbn [call bindC try_catch].
  - now rewrite replace_first_dotless.
  - now rewrite replace_first_no_trailing_dot.
  - reflexivity.
Qed.

End SystemInfoFacts.

(* ================================================================== *)
(** * Properties of the child's command line                             *)
(* ================================================================== *)

(** X21. In production mode the child is started from the script path alone:
    the path that [main] builds ends in [n8n], so [isBinary] holds, and
    neither [start] nor [--tunnel] is passed, with offline mode or without.
    In development mode [--tunnel] follows [start] unless offline mode is
    enabled, and a child is started on macOS and on Windows only. *)
Theorem launch_command_line (os : platform) (dir : string) (env : environment)
  (portInUse : bool) :
  isBinary (dir ++ "n8n") = true /\
  launch false os (dir ++ "n8n") env portInUse =
    (if shouldInit (bgEnabled env) portInUse
     then Some (Respawn [(dir ++ "n8n")%string] 10) else None) /\
  launch true os (dir ++ "n8n") env portInUse =
    (if shouldInit (bgEnabled env) portInUse
     then match os with
          | darwin =>
              Some (ExecFile (dir ++ "n8n")
                      (if offlineEnabled env then ["start"%string]
                       else ["start"; "--tunnel"]%string))
          | win32 =>
              Some (Fork (dir ++ "n8n")
                      (if offlineEnabled env then ["start"%string]
                       else ["start"; "--tunnel"]%string))
          | other_platform => None
          end
     else None).
Proof.
  assert (Hb : isBinary (dir ++ "n8n") = true).
  { unfold isBinary. now rewrite (endsWith_suffix dir "n8n" ".js" eq_refl). }
  split; [exact Hb|]. split.
  - unfold launch, spawnArgs. rewrite Hb. simpl.
    destruct (shouldInit (bgEnabled env) portInUse); reflexivity.
  - unfold launch, devCliArgs.
    destruct (shouldInit (bgEnabled env) portInUse), os, (offlineEnabled env);
      reflexivity.
Qed.

(* ================================================================== *)
(** * Properties of the environment set-up                               *)
(* ================================================================== *)

Section EnvVarsFacts.
Import EnvVars.

Lemma timezone_line_found guess :
  containsGenericTimezoneEnvVar ("GENERIC_TIMEZONE='" ++ guess ++ "'") = true.
Proof.
  unfold containsGenericTimezoneEnvVar. cbn [append split_on Ascii.eqb Bool.eqb].
  cbn. pose proof (split_on_nonempty Node.LF (guess ++ "'")) as Hne.
  destruct (split_on Node.LF (guess ++ "'")) as [|h l]; [contradiction|].
  reflexivity.
Qed.

Lemma contains_after_join content guess :
  containsGenericTimezoneEnvVar
    (join_lines content ("GENERIC_TIMEZONE='" ++ guess ++ "'")) = true.
Proof.
  pose proof (timezone_line_found guess) as H.
  unfold containsGenericTimezoneEnvVar, join_lines, newline in *.
  change (String Node.LF "" ++ ("GENERIC_TIMEZONE='" ++ guess ++ "'"))%string
    with (String Node.LF ("GENERIC_TIMEZONE='" ++ guess ++ "'")%string).
  rewrite split_on_append, existsb_app, H. apply orb_true_r.
Qed.

(** X22. [addGenericTimezoneEnvVar] is idempotent and only ever appends.  On
    a writable disk with the file present it returns; afterwards the file
    has a line that starts with [GENERIC_TIMEZONE=], it is the old contents
    or the old contents followed by a line break and the new line, and a
    second call, whatever zone is guessed then, changes nothing. *)
Theorem addGenericTimezoneEnvVar_idempotent (guess guess' content : string)
  (p : Process) :
  desktopEnvPath (files p) = Some content ->
  readOnly (files p) = false ->
  exists p' content',
    addGenericTimezoneEnvVar guess p = (Normal tt, p') /\
    desktopEnvPath (files p') = Some content' /\
    containsGenericTimezoneEnvVar content' = true /\
    content' =
      (if containsGenericTimezoneEnvVar content then content
       else content ++ newline ++ "GENERIC_TIMEZONE='" ++ guess ++ "'")%string /\
    env p' = env p /\
    addGenericTimezoneEnvVar guess' p' = (Normal tt, p').
Proof.
  intros Hf Hw.
  unfold addGenericTimezoneEnvVar, bind, readFile_desktopEnvPath,
    writeFile_desktopEnvPath, ret.
  rewrite Hf.
  destruct (containsGenericTimezoneEnvVar content) eqn:Hc.
  - exists p, content. rewrite Hf, Hc. repeat split.
  - rewrite Hw.
    exists (mkProcess
              (mkFiles (dotN8nDir (files p)) (logsDirPath (files p))
                 (Some (join_lines content ("GENERIC_TIMEZONE='" ++ guess ++ "'")))
                 (readOnly (files p)))
              (env p)),
           (join_lines content ("GENERIC_TIMEZONE='" ++ guess ++ "'")).
    cbn [files desktopEnvPath env]. rewrite contains_after_join. repeat split.
    now rewrite Hw.
Qed.

Section Defaults.
Context {rt : Runtime}.
Variable defaultEnv guess : string.
Variable join_logsDirPath : string -> string.
Variable dotenv_config : option string -> environment -> environment.

Lemma lms_defaults (p p' : Process) :
  setEnvVars defaultEnv guess join_logsDirPath dotenv_config p = (Normal tt, p') ->
  falsy (env_value (env p') "LMS_BEARER_TOKEN") = false /\
  falsy (env_value (env p') "LMS_API_URL") = false.
Proof.
  unfold setEnvVars.
  unfold bind at 1. destruct (getDotN8nDir p) as [[[]|e|n] p1]; try discriminate.
  unfold bind at 1.
  destruct (handleLoggingEnvVars join_logsDirPath p1) as [[[]|e|n] p2];
    try discriminate.
  unfold bind at 1.
  destruct (getDesktopEnvPath defaultEnv p2) as [[[]|e|n] p3]; try discriminate.
  unfold bind at 1.
  destruct (addGenericTimezoneEnvVar guess p3) as [[[]|e|n] p4]; try discriminate.
  unfold bind, getenv, setenv, ret. cbn [files env].
  set (e4 := dotenv_config (desktopEnvPath (files p4)) (env p4)).
  assert (Hset : forall (e : environment) name value other,
             value <> EmptyString ->
             falsy (env_value (fun k => if String.eqb k name then Some value else e k)
                              other) =
             if String.eqb other name then false else falsy (env_value e other)).
  { intros e name value other Hv. unfold env_value.
    destruct (String.eqb other name); [|reflexivity].
    destruct value; [contradiction|reflexivity]. }
  destruct (falsy (env_value e4 "LMS_BEARER_TOKEN")) eqn:Ht; cbn [files env];
    match goal with
    | |- context [falsy (env_value ?e "LMS_API_URL")] =>
        destruct (falsy (env_value e "LMS_API_URL")) eqn:Hu
    end;
    cbn [files env]; intros H; injection H as <-; cbn [env];
    rewrite ?Hset in * by discriminate; cbn [String.eqb Ascii.eqb Bool.eqb andb] in *;
    auto.
Qed.

(** X23. [setEnvVars] always leaves a bearer token and an endpoint in the
    environment, the built-in ones when nothing else set them.  So
    [initializeLMS], called after it as [main] does, never reports a missing
    token and never returns false: it returns true, with an authorized record
    in [lastResponse], or throws. *)
Theorem setEnvVars_leaves_bearer_token (p p' : Process) (st : State) :
  setEnvVars defaultEnv guess join_logsDirPath dotenv_config p = (Normal tt, p') ->
  falsy (env_value (env p') "LMS_BEARER_TOKEN") = false /\
  falsy (env_value (env p') "LMS_API_URL") = false /\
  ((exists st', initializeLMS (env p') st = (Normal true, st') /\
                authorized (lastResponse st') = true) \/
   (exists e st', initializeLMS (env p') st = (Throw e, st'))).
Proof.
  intros H. destruct (lms_defaults p p' H) as [Ht Hu].
  split; [exact Ht|]. split; [exact Hu|].
  destruct (initializeLMS_outcome (env p') st Ht) as [(st' & Hi & _ & Ha)|Hthrow];
    [left; eauto|right; exact Hthrow].
Qed.

End Defaults.

End EnvVarsFacts.

(* ================================================================== *)
(** * More scenarios on the executable runtime                           *)
(* ================================================================== *)

Lemma getMachineId_strips_domain_witness :
  SystemInfo.getMachineId workstation = Normal (Str "mac01").
Proof.
  exact (proj1 (getMachineId_strips_domain workstation "mac01" EmptyString eq_refl)
               eq_refl).
Defined.

Lemma token_with_null_header_decodes :
  decodes_to (rt := Node.runtime) token_with_null_header Null (Obj []) "x".
Proof.
  exists "bnVsbA.e30.x"%string, "bnVsbA"%string, "e30"%string.
  repeat split; vm_compute; reflexivity.
Qed.

Lemma token_with_unconvertible_expiry_decodes :
  decodes_to (rt := Node.runtime) token_with_unconvertible_expiry
    (Obj []) (Obj [("exp", unconvertible_object)]%string) "x".
Proof.
  exists "e30.eyJleHAiOnsidG9TdHJpbmciOjF9fQ.x"%string, "e30"%string,
    "eyJleHAiOnsidG9TdHJpbmciOjF9fQ"%string.
  repeat split; vm_compute; reflexivity.
Qed.

Lemma getJWTInfo_contract_witness :
  (exists info,
     getJWTInfo (rt := Node.runtime) token_without_expiry (fresh 0) =
       (Normal (Some info), fresh 0) /\
     info_payload info = Obj []) /\
  (getJWTInfo (rt := Node.runtime) token_with_unconvertible_expiry (fresh 0) =
     (Throw cannot_convert, fresh 0) /\
   isJWTExpired (rt := Node.runtime) token_with_unconvertible_expiry (fresh 0) =
     (Normal true, fresh 0) /\
   getTokenExpiration (rt := Node.runtime) token_with_unconvertible_expiry =
     Normal Null) /\
  (exists e,
     getJWTInfo (rt := Node.runtime) token_with_null_header (fresh 0) =
       (Throw e, fresh 0)) /\
  isCachedTokenValid (rt := Node.runtime)
    (cached_record token_with_null_header Null) (fresh 0) = (Normal true, fresh 0).
Proof.
  split; [|split; [|split]].
  - destruct (proj1 (getJWTInfo_contract (rt := Node.runtime) token_without_expiry
                       (Obj []) (Obj []) "x" (fresh 0) token_without_expiry_decodes)
                    [] [] eq_refl eq_refl eq_refl)
      as (info & Hi & _ & Hp & _).
    exists info. split; [exact Hi|exact Hp].
  - destruct (proj1 (proj2 (getJWTInfo_contract (rt := Node.runtime)
                              token_with_unconvertible_expiry (Obj [])
                              (Obj [("exp", unconvertible_object)]%string) "x"
                              (fresh 0) token_with_unconvertible_expiry_decodes))
                    unconvertible_object Undefined eq_refl eq_refl
                    (or_introl eq_refl))
      as [Hthrow Hcaught].
    split; [exact Hthrow|exact (Hcaught eq_refl)].
  - exact (proj1 (proj2 (proj2 (getJWTInfo_contract (rt := Node.runtime)
                                  token_with_null_header Null (Obj []) "x" (fresh 0)
                                  token_with_null_header_decodes))
                        (or_introl eq_refl))).
  - exact (proj2 (proj2 (proj2 (proj2 (getJWTInfo_contract (rt := Node.runtime)
                                         token_with_null_header Null (Obj []) "x"
                                         (fresh 0) token_with_null_header_decodes))
                               (or_introl eq_refl)))
                 (fresh 0)).
Defined.

Lemma getTokenStatus_observes_witness :
  getTokenStatus (rt := Node.runtime) (fresh 0) = (Normal NoToken, fresh 0).
Proof.
  exact (proj2 (proj2 (getTokenStatus_observes (rt := Node.runtime) (fresh 0)))
               eq_refl eq_refl).
Defined.

Lemma main_gate_trusts_cache_witness :
  exists st',
    main_gate (rt := Node.runtime) with_bearer (with_file (cache_text trusted_record) 0) =
      (Normal tt, st') /\
    traffic st' = [] /\ lastResponse st' = trusted_record.
Proof.
  destruct (main_gate_trusts_cache (rt := Node.runtime) with_bearer
              (with_file (cache_text trusted_record) 0)
              (cache_text trusted_record) trusted_record token_without_expiry
              [] [] "x" eq_refl eq_refl eq_refl eq_refl
              token_without_expiry_decodes eq_refl eq_refl eq_refl)
    as (st' & Hm & Ht & _ & Hl & _).
  exists st'. split; [exact Hm|]. split; [exact Ht|exact Hl].
Defined.

Lemma performSSOLogin_result_witness :
  jwtToken (snd (performSSOLogin (rt := Node.runtime) (Str "bearer")
                   (answering granted_response 0))) = token_expiring_at_1000.
Proof.
  assert (Hn : granted_response <> Null) by discriminate.
  exact (proj2 (performSSOLogin_result (rt := Node.runtime) (Str "bearer")
                  granted_response (answering granted_response 0)
                  (snd (performSSOLogin (rt := Node.runtime) (Str "bearer")
                          (answering granted_response 0)))
                  eq_refl Hn)
               token_expiring_at_1000 eq_refl).
Defined.

Lemma getValidToken_fields_witness :
  getJWTToken (snd (getValidToken (rt := Node.runtime) (Str "bearer")
                      (answering granted_response 0))) =
    (Normal token_expiring_at_1000,
     snd (getValidToken (rt := Node.runtime) (Str "bearer")
            (answering granted_response 0))) /\
  lastResponse (snd (getValidToken (rt := Node.runtime) (Str "bearer")
                       (answering granted_response 0))) = Undefined.
Proof.
  destruct (getValidToken_fields (rt := Node.runtime) (Str "bearer") granted_response
              token_expiring_at_1000 (answering granted_response 0)
              (snd (getValidToken (rt := Node.runtime) (Str "bearer")
                      (answering granted_response 0)))
              eq_refl eq_refl eq_refl)
    as (_ & Hj & _).
  split; [exact Hj|reflexivity].
Defined.

Lemma refreshToken_always_acquires_witness :
  exists st',
    refreshToken (rt := Node.runtime) (Str "bearer")
      (with_file (cache_text trusted_record) 0) = (Normal Null, st') /\
    traffic st' = acquisition (Str "bearer") /\
    cacheFile st' = None.
Proof.
  destruct (proj1 (refreshToken_always_acquires (rt := Node.runtime) (Str "bearer")
                     (with_file (cache_text trusted_record) 0))
                  (or_introl eq_refl))
    as (data & st' & Hr & Ht & Hnull).
  assert (Hd : data = Null).
  { vm_compute in Hr. now injection Hr as <- _. }
  subst data. exists st'. split; [exact Hr|]. split; [exact Ht|].
  exact (proj2 (Hnull eq_refl)).
Defined.

Lemma token_expiring_at_1000_decodes :
  decodes_to (rt := Node.runtime) token_expiring_at_1000
    (Obj [("alg", Str "HS256")]%string) (Obj [("exp", Num 1000)]%string) "sig".
Proof.
  exists "eyJhbGciOiJIUzI1NiJ9.eyJleHAiOjEwMDB9.sig"%string,
    "eyJhbGciOiJIUzI1NiJ9"%string, "eyJleHAiOjEwMDB9"%string.
  repeat split; vm_compute; reflexivity.
Qed.

Lemma saved_token_served_until_buffer_witness :
  exists record st',
    getValidToken (rt := Node.runtime) (Str "bearer")
      (snd (saveTokenToCache (rt := Node.runtime) granted_response (fresh 5000))) =
      (Normal record, st') /\
    traffic st' = [] /\
    get record "expiresAt" = Normal (Num 1000000).
Proof.
  assert (Hpos : 0 < 1000) by lia.
  assert (Hexact : 1000 * 1000 < 2 ^ 53) by (vm_compute; reflexivity).
  destruct (saved_token_served_until_buffer (rt := Node.runtime) (Str "bearer")
              granted_response token_expiring_at_1000
              (Obj [("alg", Str "HS256")]%string) (Obj [("exp", Num 1000)]%string)
              "sig" 1000 (fresh 5000)
              (snd (saveTokenToCache (rt := Node.runtime) granted_response (fresh 5000)))
              (snd (saveTokenToCache (rt := Node.runtime) granted_response (fresh 5000)))
              NodeFacts.runtime_faithful granted_response_data eq_refl eq_refl
              token_expiring_at_1000_decodes eq_refl
              Hpos Hexact
              eq_refl)
    as (Hserved & _).
  destruct (Hserved eq_refl) as (record & st' & Hg & Ht & _ & _ & He & _).
  exists record, st'. split; [exact Hg|]. split; [exact Ht|exact He].
Defined.

Lemma saveTokenToCache_accepts_witness :
  fst (saveTokenToCache (rt := Node.runtime) (Obj []) (fresh 7)) = Normal true /\
  fst (saveTokenToCache (rt := Node.runtime) Null (fresh 7)) = Normal false.
Proof.
  assert (Hjson : forall ps, JSON_stringify (Runtime := Node.runtime) (Obj ps) <> None)
    by (intros ps; discriminate).
  destruct (saveTokenToCache_accepts (rt := Node.runtime) (Obj []) (fresh 7) Hjson eq_refl)
    as [_ Hyes].
  destruct (saveTokenToCache_accepts (rt := Node.runtime) Null (fresh 7) Hjson eq_refl)
    as [Hno _].
  split.
  - destruct Hyes as (st' & text & -> & _); [discriminate|discriminate|reflexivity].
  - destruct (Hno (or_introl eq_refl)) as (st' & -> & _). reflexivity.
Defined.

Lemma base64UrlDecode_padding_witness :
  pad_base64 3 "e30" = "e30="%string /\ pad_base64 7 "e30" = "e30="%string.
Proof.
  destruct (base64UrlDecode_padding "e30") as (_ & Hpad & _).
  split; [apply (Hpad 3%nat); lia|apply (Hpad 7%nat); lia].
Defined.

Lemma addGenericTimezoneEnvVar_idempotent_witness :
  exists p',
    EnvVars.addGenericTimezoneEnvVar "Europe/Paris" configured = (Normal tt, p') /\
    EnvVars.desktopEnvPath (EnvVars.files p') =
      Some (EnvVars.join_lines "N8N_PORT=5678" "GENERIC_TIMEZONE='Europe/Paris'") /\
    EnvVars.addGenericTimezoneEnvVar "Asia/Tokyo" p' = (Normal tt, p').
Proof.
  destruct (addGenericTimezoneEnvVar_idempotent "Europe/Paris" "Asia/Tokyo"
              "N8N_PORT=5678" configured eq_refl eq_refl)
    as (p' & content' & Ha & Hf & _ & Hc & _ & Hagain).
  exists p'. split; [exact Ha|]. split; [|exact Hagain].
  rewrite Hf, Hc. reflexivity.
Defined.

Lemma setEnvVars_leaves_bearer_token_witness :
  falsy (env_value
           (EnvVars.env
              (snd (EnvVars.setEnvVars "N8N_PORT=5678" "Europe/Paris" (fun s => s)
                      (fun _ e => e) first_start)))
           "LMS_BEARER_TOKEN") = false.
Proof.
  exact (proj1 (setEnvVars_leaves_bearer_token (rt := Node.runtime)
                  "N8N_PORT=5678" "Europe/Paris" (fun s => s) (fun _ e => e)
                  first_start
                  (snd (EnvVars.setEnvVars "N8N_PORT=5678" "Europe/Paris" (fun s => s)
                          (fun _ e => e) first_start))
                  (fresh 0) eq_refl)).
Defined.

Lemma signature_never_checked_witness :
  isCachedTokenValid (rt := Node.runtime)
    (cached_record (Str "e30.e30.x") Null) (fresh 0) =
  isCachedTokenValid (rt := Node.runtime)
    (cached_record (Str "e30.e30.forged") Null) (fresh 0).
Proof.
  exact (proj1 (proj2 (proj2 (signature_never_checked (rt := Node.runtime)
                                "e30" "e30" "x" "forged" Null (fresh 0)
                                eq_refl eq_refl eq_refl eq_refl)))).
Defined.

Lemma main_gate_first_start_witness :
  exists st',
    main_gate (rt := Node.runtime) with_bearer (answering granted_response 0) =
      (Normal tt, st') /\
    traffic st' = acquisition (Str "secret") /\
    lastResponse st' = granted_response.
Proof.
  assert (Hjson : forall ps, JSON_stringify (Runtime := Node.runtime) (Obj ps) <> None)
    by (intros ps; discriminate).
  assert (Hstatus : 200 <= 200 <= 299) by lia.
  destruct (main_gate_first_start (rt := Node.runtime) with_bearer
              (answering granted_response 0) 200 (cache_text granted_response) []
              granted_response token_expiring_at_1000
              [("alg", Str "HS256")]%string [("exp", Num 1000)]%string "sig"
              eq_refl eq_refl eq_refl Hjson eq_refl Hstatus eq_refl eq_refl eq_refl
              token_expiring_at_1000_decodes eq_refl)
    as (st' & Hm & Ht & _ & Hl & _).
  exists st'. split; [exact Hm|]. split; [exact Ht|exact Hl].
Defined.

Lemma validity_checks_total_witness :
  isCachedTokenValid (rt := Node.runtime)
    (cached_record (Str "garbage") (Num 5)) (fresh 0) = (Normal false, fresh 0) /\
  isCachedTokenValid (rt := Node.runtime) wedged_record (fresh 0) =
    (Throw cannot_convert, fresh 0).
Proof.
  assert (Hn : ~ decodes (rt := Node.runtime) (Str "garbage")).
  { intros (h & p & sig & s & p0 & p1 & Hs & Hsplit & _).
    injection Hs as <-. vm_compute in Hsplit. discriminate Hsplit. }
  split.
  - destruct (validity_checks_total (rt := Node.runtime) (Str "garbage") (fresh 0))
      as (_ & _ & _ & _ & _ & _ & Hgarbage).
    exact (proj2 (proj2 (Hgarbage Hn)) (Num 5) eq_refl).
  - destruct (validity_checks_total (rt := Node.runtime) wedged_record (fresh 0))
      as (_ & _ & _ & _ & _ & Hthrows & _).
    exact (Hthrows token_without_expiry unconvertible_object
                   eq_refl eq_refl eq_refl eq_refl).
Defined.
